(** * ZFS Assistant: privileged execution, snapshot lifecycle, retention and
    replication

    A shallow embedding of the core of the ZFS snapshot assistant
    ([utils/common.py], [utils/privilege_manager.py], [core/zfs_core.py],
    [backup/zfs_backup.py]) and the properties of its specification.

    Conventions of the embedding.
    - A Python [str] is a [string]; a character is a code point below 256.
    - Every process the program starts is answered by an oracle of the
      environment, indexed by the number of processes started before it; the
      processes started are recorded, in order, in the world's [trace].
    - Logging calls ([log_info], [log_error], [self.logger...]) do not
      influence any result and are left out. *)

From Stdlib Require Import Ascii QArith Qround Lqa.
From stdpp Require Import gmap strings pretty list sorting.

Local Open Scope Z_scope.

(** ** Python string primitives *)

Module Py.

(** [c in s] for a one-character [c]. *)
Fixpoint contains (c : ascii) (s : string) : bool :=
  match s with
  | EmptyString => false
  | String a s' => if Ascii.eqb a c then true else contains c s'
  end.

(** [any(p(ch) for ch in s)]. *)
Fixpoint any (p : ascii → bool) (s : string) : bool :=
  match s with
  | EmptyString => false
  | String a s' => if p a then true else any p s'
  end.

(** [s.split(sep)] for a one-character separator: never the empty list. *)
Fixpoint split (sep : ascii) (s : string) : list string :=
  match s with
  | EmptyString => [EmptyString]
  | String a s' =>
      if Ascii.eqb a sep then EmptyString :: split sep s'
      else match split sep s' with
           | h :: t => String a h :: t
           | [] => [String a EmptyString]
           end
  end.

(** [s.split(sep, 1)]: cut at the first separator only. *)
Fixpoint split1 (sep : ascii) (s : string) : list string :=
  match s with
  | EmptyString => [EmptyString]
  | String a s' =>
      if Ascii.eqb a sep then [EmptyString; s']
      else match split1 sep s' with
           | h :: t => String a h :: t
           | [] => [String a EmptyString]
           end
  end.

(** [sep.join(l)]. *)
Fixpoint join (sep : string) (l : list string) : string :=
  match l with
  | [] => ""
  | [x] => x
  | x :: l' => x +:+ sep +:+ join sep l'
  end.

(** [str.isspace] on one code point below 256. *)
Definition isspace (c : ascii) : bool :=
  let n := Ascii.N_of_ascii c in
  ((9 <=? n) && (n <=? 13) || (28 <=? n) && (n <=? 32)
   || (n =? 133) || (n =? 160))%N.

Fixpoint lstrip (s : string) : string :=
  match s with
  | EmptyString => EmptyString
  | String a s' => if isspace a then lstrip s' else s
  end.

Fixpoint rstrip (s : string) : string :=
  match s with
  | EmptyString => EmptyString
  | String a s' =>
      match rstrip s' with
      | EmptyString => if isspace a then EmptyString else String a EmptyString
      | r => String a r
      end
  end.

(** [s.strip()]. *)
Definition strip (s : string) : string := rstrip (lstrip s).

(** Truthiness of a string: [bool(s)]. *)
Definition nonempty (s : string) : bool :=
  match s with EmptyString => false | _ => true end.

(** [s.replace(old, new)] for a one-character [old]. *)
Fixpoint replace (old : ascii) (new : string) (s : string) : string :=
  match s with
  | EmptyString => EmptyString
  | String a s' =>
      if Ascii.eqb a old then new +:+ replace old new s'
      else String a (replace old new s')
  end.

End Py.

(** ** [utils/common.py]: the token validator *)

Definition TAB : ascii := Ascii.ascii_of_N 9.
Definition LF : ascii := Ascii.ascii_of_N 10.
Definition CR : ascii := Ascii.ascii_of_N 13.
Definition DQUOTE : ascii := Ascii.ascii_of_N 34.
Definition SQUOTE : ascii := Ascii.ascii_of_N 39.
Definition BACKSLASH : ascii := Ascii.ascii_of_N 92.
Definition AT : ascii := Ascii.ascii_of_N 64.

(** [_DISALLOWED_SHELL_CHARS]: space, tab, carriage return, line feed, single
    quote, double quote, backtick, semicolon, dollar, pipe, ampersand,
    less-than, greater-than, backslash. *)
Definition _DISALLOWED_SHELL_CHARS : list ascii :=
  [ " "; TAB; CR; LF; SQUOTE; DQUOTE; "`"; ";"; "$"; "|"; "&"; "<"; ">";
    BACKSLASH ]%char.

Definition disallowed (ch : ascii) : bool :=
  bool_decide (ch ∈ _DISALLOWED_SHELL_CHARS).

(** The character class [[A-Za-z0-9._:/+-]] of [_SAFE_ZFS_TOKEN_RE]. *)
Definition token_class (c : ascii) : bool :=
  let n := Ascii.N_of_ascii c in
  ((65 <=? n) && (n <=? 90) || (97 <=? n) && (n <=? 122)
   || (48 <=? n) && (n <=? 57)
   || bool_decide (c ∈ [ "."; "_"; ":"; "/"; "+"; "-" ]%char))%N.

(** What is left of [^[A-Za-z0-9._:/+-]+$] once one character of the class has
    been read: more characters of the class, then [$], which holds at the end
    of the string and also just before a line feed that ends the string. *)
Fixpoint token_re_rest (s : string) : bool :=
  match s with
  | EmptyString => true
  | String c s' =>
      if token_class c then token_re_rest s'
      else Ascii.eqb c LF && negb (Py.nonempty s')
  end.

(** [bool(_SAFE_ZFS_TOKEN_RE.match(value))]. *)
Definition _SAFE_ZFS_TOKEN_RE_match (value : string) : bool :=
  match value with
  | EmptyString => false
  | String c s' => token_class c && token_re_rest s'
  end.

(** [is_safe_zfs_token] *)
Definition is_safe_zfs_token (value : string) : bool :=
  if negb (Py.nonempty value) then false
  else if Py.any disallowed value then false
  else _SAFE_ZFS_TOKEN_RE_match value.

(** ** The process layer

    What a started process does is not decided by the program: it is read from
    the environment. [Exited] is a process that ran to its end, [TimedOut] one
    that outlived the timeout it was given, [Raised] any other exception of
    the call (the program that does not exist, a full pipe, ...), with the
    text of the exception. *)

Inductive proc_result :=
| Exited (returncode : Z) (stdout stderr : string)
| TimedOut
| Raised (msg : string).

(** The place of the source a process is started from. *)
Inductive call_site :=
| AuthProbe      (* _refresh_auth_cache: pkexec true *)
| PrivCmd        (* run_privileged_command *)
| BatchCmd       (* run_batch_privileged_commands, one command, as root *)
| BatchScript    (* run_batch_privileged_commands, the script under pkexec *)
| ZfsList        (* get_snapshots *)
| PoolProbe      (* perform_backup: zfs list target_pool *)
| Send           (* send_snapshot: zfs send *)
| Receive.       (* send_snapshot: zfs receive *)

Global Instance call_site_eq_dec : EqDecision call_site.
Proof. solve_decision. Defined.

Record event := Spawned { ev_site : call_site; ev_argv : list string }.

Record Env := {
  (** [os.geteuid()] *)
  geteuid : Z;
  (** the value of the k-th call of [time.time()], in seconds *)
  time_time : nat → Q;
  (** the value of the k-th call of [datetime.datetime.now()], in microseconds
      since [datetime.min] *)
  datetime_now : nat → N;
  (** the result of the k-th process started, given its argument vector *)
  spawn : nat → list string → proc_result;
  (** [str(e)] for a [CalledProcessError] of this command and exit status *)
  str_called_process_error : list string → Z → string;
  (** [datetime.strptime(text, format)], [None] for a [ValueError]; the value
      is in microseconds since [datetime.min] *)
  strptime : string → string → option N;
  (** [strftime("%Y%m%d-%H%M")] *)
  strftime_stamp : N → string;
  (** writing the batch script to a temporary file and making it executable:
      the path of the file, or the text of the exception *)
  stage_script : string → string + string;
  (** the order in which a Python set of strings is iterated *)
  set_order : gset string → list string;
}.

(** ** [utils/privilege_manager.py] *)

Record PrivilegeManager := {
  _auth_cache_time : Q;
  _auth_cache_duration : Q;
  _session_active : bool;
  _initial_auth_completed : bool;
}.

(** [PrivilegeManager.__init__] *)
Definition PrivilegeManager_init : PrivilegeManager :=
  {| _auth_cache_time := 0; _auth_cache_duration := 900;
     _session_active := false; _initial_auth_completed := false |}.

(** The state the program runs in: the session cache, how often each clock
    has been read, and the processes started so far. *)
Record World := {
  privilege_manager : PrivilegeManager;
  time_reads : nat;
  now_reads : nat;
  trace : list event;
}.

Definition World_init : World :=
  {| privilege_manager := PrivilegeManager_init;
     time_reads := 0; now_reads := 0; trace := [] |}.

(** Stateful code is a function of the world. *)
Definition M (A : Type) : Type := World → A * World.

Definition ret {A} (x : A) : M A := λ w, (x, w).

Definition bind {A B} (m : M A) (f : A → M B) : M B :=
  λ w, let (a, w') := m w in f a w'.

Notation "'let*' x ':=' m 'in' k" := (bind m (λ x, k))
  (at level 10, x name, m at level 100, k at level 200,
   format "'[v' 'let*'  x  ':='  m  'in' '/' k ']'").

Definition Qltb (x y : Q) : bool := negb (Qle_bool y x).

Section Model.
Context (env : Env).

Definition subprocess (site : call_site) (argv : list string) : M proc_result :=
  λ w, (spawn env (length (trace w)) argv,
        {| privilege_manager := privilege_manager w;
           time_reads := time_reads w; now_reads := now_reads w;
           trace := trace w ++ [Spawned site argv] |}).

Definition read_time : M Q :=
  λ w, (time_time env (time_reads w),
        {| privilege_manager := privilege_manager w;
           time_reads := S (time_reads w); now_reads := now_reads w;
           trace := trace w |}).

Definition read_now : M N :=
  λ w, (datetime_now env (now_reads w),
        {| privilege_manager := privilege_manager w;
           time_reads := time_reads w; now_reads := S (now_reads w);
           trace := trace w |}).

Definition get_pm : M PrivilegeManager := λ w, (privilege_manager w, w).

Definition put_pm (p : PrivilegeManager) : M unit :=
  λ w, (tt, {| privilege_manager := p; time_reads := time_reads w;
               now_reads := now_reads w; trace := trace w |}).

(** [_is_auth_cached] *)
Definition _is_auth_cached : M bool :=
  let* now := read_time in
  let* p := get_pm in
  ret (Qltb (now - _auth_cache_time p) (_auth_cache_duration p)).

(** [_refresh_auth_cache] *)
Definition _refresh_auth_cache : M bool :=
  let* r := subprocess AuthProbe ["pkexec"; "true"] in
  match r with
  | Exited 0 _ _ =>
      let* now := read_time in
      let* p := get_pm in
      let* _ := put_pm {| _auth_cache_time := now;
                          _auth_cache_duration := _auth_cache_duration p;
                          _session_active := true;
                          _initial_auth_completed := true |} in
      ret true
  | _ =>
      let* p := get_pm in
      let* _ := put_pm {| _auth_cache_time := _auth_cache_time p;
                          _auth_cache_duration := _auth_cache_duration p;
                          _session_active := false;
                          _initial_auth_completed := _initial_auth_completed p |} in
      ret false
  end.

(** [e.stderr.strip() if e.stderr else str(e)] *)
Definition error_text (argv : list string) (rc : Z) (stderr : string) : string :=
  if Py.nonempty stderr then Py.strip stderr
  else str_called_process_error env argv rc.

Definition AUTH_FAILED : string := "Failed to obtain administrative privileges".

(** The result of [run_privileged_command] from the result of its process:
    the normal return and the three [except] clauses. *)
Definition command_result (argv : list string) (r : proc_result) : bool * string :=
  match r with
  | Exited 0 out _ => (true, Py.strip out)
  | Exited rc _ err => (false, "Command failed: " +:+ error_text argv rc err)
  | TimedOut => (false, "Command timed out")
  | Raised msg => (false, "Unexpected error: " +:+ msg)
  end.

(** [run_privileged_command]. The input text, when there is one, is handed to
    the process and has no other use. *)
Definition run_privileged_command (command : list string) : M (bool * string) :=
  if geteuid env =? 0 then
    let* r := subprocess PrivCmd command in
    ret (command_result command r)
  else
    let full_command := "pkexec" :: command in
    let run_the_command : M (bool * string) :=
      let* r := subprocess PrivCmd full_command in
      ret (command_result full_command r) in
    let* cached := _is_auth_cached in
    if cached then run_the_command
    else
      let* ok := _refresh_auth_cache in
      if ok then run_the_command else ret (false, AUTH_FAILED).

(** The loop of [run_batch_privileged_commands] when the process is root:
    one process per command, in order; the first one that fails ends the
    loop. [results] is the list of the outputs collected so far. *)
Fixpoint run_batch_as_root (commands : list (list string)) (results : list string)
  : M (bool * string) :=
  match commands with
  | [] => ret (true, Py.join (String LF EmptyString) results)
  | command :: rest =>
      let* r := subprocess BatchCmd command in
      match r with
      | Exited 0 out _ => run_batch_as_root rest (results ++ [Py.strip out])
      | Exited rc _ err =>
          ret (false, "Command failed: " +:+ Py.join " " command +:+ " - "
                        +:+ error_text command rc err)
      | TimedOut => ret (false, "Batch execution timed out")
      | Raised msg => ret (false, "Unexpected error in batch execution: " +:+ msg)
      end
  end.

(** The text a single quote is replaced by inside a quoted argument: a single
    quote, a double quote, a single quote, a double quote, a single quote. *)
Definition QUOTE_ESCAPE : string :=
  String SQUOTE (String DQUOTE (String SQUOTE (String DQUOTE (String SQUOTE EmptyString)))).

Definition escape_arg (arg : string) : string :=
  if Py.contains SQUOTE arg
  then "'" +:+ Py.replace SQUOTE QUOTE_ESCAPE arg +:+ "'"
  else "'" +:+ arg +:+ "'".

Definition script_lines (commands : list (list string)) : list string :=
  [ "#!/bin/bash"; "set -e  # Exit on any error"; "" ]
  ++ concat (map (λ command,
                   [ "echo 'Executing: " +:+ Py.join " " command +:+ "'";
                     Py.join " " (map escape_arg command);
                     "" ]) commands).

(** The result of the batch script from the result of its process. *)
Definition script_result (argv : list string) (r : proc_result) : bool * string :=
  match r with
  | Exited 0 out _ => (true, Py.strip out)
  | Exited rc _ err => (false, "Batch execution failed: " +:+ error_text argv rc err)
  | TimedOut => (false, "Batch execution timed out")
  | Raised msg => (false, "Unexpected error in batch execution: " +:+ msg)
  end.

(** [run_batch_privileged_commands] *)
Definition run_batch_privileged_commands (commands : list (list string))
  : M (bool * string) :=
  match commands with
  | [] => ret (true, "No commands to execute")
  | _ =>
      if geteuid env =? 0 then run_batch_as_root commands []
      else
        let run_the_script : M (bool * string) :=
          match stage_script env (Py.join (String LF EmptyString) (script_lines commands)) with
          | inl temp_script_path =>
              let argv := [ "pkexec"; "bash"; temp_script_path ] in
              let* r := subprocess BatchScript argv in
              ret (script_result argv r)
          | inr msg => ret (false, "Unexpected error in batch execution: " +:+ msg)
          end in
        let* cached := _is_auth_cached in
        if cached then run_the_script
        else
          let* ok := _refresh_auth_cache in
          if ok then run_the_script else ret (false, AUTH_FAILED)
  end.

End Model.

(** ** [utils/models.py]: the snapshot value *)

(** [creation_date]: the parsed time, in microseconds since [datetime.min], or
    the text of the listing when no format fits. *)
Inductive creation :=
| Parsed (t : N)
| Unparsed (raw : string).

Record ZFSSnapshot := {
  name : string;
  creation_date : creation;
  dataset : string;
  used : string;
  referenced : string;
}.

(** Modelled from the spec: the property [full_name] of [ZFSSnapshot], whose
    module [utils/models.py] is not among the sources; it is the dataset, an at
    sign and the name, [fullName = dataset + "@" + name]. *)
Definition full_name (s : ZFSSnapshot) : string :=
  dataset s +:+ "@" +:+ name s.

(** [datetime.datetime.min], the origin of the time scale. *)
Definition datetime_min : N := 0.

(** Microseconds in a day: [timedelta.days] is the floor of the quotient. *)
Definition DAY : Z := 86400000000.

Definition is_datetime (c : creation) : bool :=
  match c with Parsed _ => true | Unparsed _ => false end.

(** The sort key of [cleanup_snapshots] and [perform_backup]:
    [x.creation_date if isinstance(x.creation_date, datetime) else datetime.min]. *)
Definition sort_key (x : ZFSSnapshot) : N :=
  match creation_date x with
  | Parsed t => t
  | Unparsed _ => datetime_min
  end.

(** [sorted(snapshots, key=sort_key, reverse=True)]: a stable sort, so
    snapshots of equal key keep the order of the listing. *)
Fixpoint insert_newest_first (x : ZFSSnapshot) (l : list ZFSSnapshot) : list ZFSSnapshot :=
  match l with
  | [] => [x]
  | y :: l' =>
      if (sort_key y <=? sort_key x)%N then x :: y :: l'
      else y :: insert_newest_first x l'
  end.

Definition sorted_newest_first (snapshots : list ZFSSnapshot) : list ZFSSnapshot :=
  foldr insert_newest_first [] snapshots.

(** ** [core/zfs_core.py] *)

Section Core.
Context (env : Env).

(** The two formats tried on the creation field, without and with seconds. *)
Definition parse_creation (creation_str : string) : creation :=
  match strptime env creation_str "%a %b %d %H:%M %Y" with
  | Some t => Parsed t
  | None =>
      match strptime env creation_str "%a %b %d %H:%M:%S %Y" with
      | Some t => Parsed t
      | None => Unparsed creation_str
      end
  end.

(** The body of the loop of [get_snapshots], on one line of the listing. *)
Definition parse_snapshot_line (line : string) : option ZFSSnapshot :=
  if Py.nonempty (Py.strip line) then
    match Py.split TAB line with
    | p0 :: p1 :: p2 :: p3 :: _ =>
        if Py.contains AT p0 then
          match Py.split1 AT p0 with
          | [ dataset_name; snapshot_name ] =>
              Some {| name := snapshot_name;
                      creation_date := parse_creation p1;
                      dataset := dataset_name;
                      used := p2;
                      referenced := p3 |}
          | _ => None
          end
        else None
    | _ => None
    end
  else None.

(** The command of the listing. *)
Definition list_command (dataset : string) : list string :=
  [ "zfs"; "list"; "-H"; "-t"; "snapshot"; "-o"; "name,creation,used,referenced" ]
  ++ (if Py.nonempty dataset then [ dataset ] else []).

(** [get_snapshots(dataset)]; the empty string stands for no dataset. The
    listing has no timeout; every failure of the call gives the empty list. *)
Definition get_snapshots (dataset : string) : M (list ZFSSnapshot) :=
  let cmd := list_command dataset in
  let* r := subprocess env ZfsList cmd in
  match r with
  | Exited 0 out _ =>
      ret (omap parse_snapshot_line (Py.split LF (Py.strip out)))
  | _ => ret []
  end.

(** [create_snapshot(dataset, name)]; [None] is no name given. *)
Definition create_snapshot (dataset : string) (name : option string)
  : M (bool * string) :=
  if negb (is_safe_zfs_token dataset) then ret (false, "Invalid dataset name")
  else
    let create (name : string) : M (bool * string) :=
      let snapshot_full_name := dataset +:+ "@" +:+ name in
      let* sr := run_privileged_command env [ "zfs"; "snapshot"; snapshot_full_name ] in
      if sr.1 then ret (true, "Created snapshot " +:+ snapshot_full_name)
      else ret (false, sr.2) in
    match name with
    | Some (String c n) =>
        if negb (is_safe_zfs_token (String c n))
        then ret (false, "Invalid snapshot name")
        else create (String c n)
    | _ =>
        let* now := read_now env in
        create ("zfs-assistant-" +:+ strftime_stamp env now)
    end.

(** [delete_snapshot(snapshot_full_name)] *)
Definition delete_snapshot (snapshot_full_name : string) : M (bool * string) :=
  if negb (is_safe_zfs_token snapshot_full_name)
     || negb (Py.contains AT snapshot_full_name)
  then ret (false, "Invalid snapshot identifier")
  else
    let* sr := run_privileged_command env [ "zfs"; "destroy"; snapshot_full_name ] in
    if sr.1 then ret (true, "Deleted snapshot " +:+ snapshot_full_name)
    else ret (false, sr.2).

(** [rollback_snapshot(snapshot_full_name, force)] *)
Definition rollback_snapshot (snapshot_full_name : string) (force : bool)
  : M (bool * string) :=
  if negb (is_safe_zfs_token snapshot_full_name)
     || negb (Py.contains AT snapshot_full_name)
  then ret (false, "Invalid snapshot identifier")
  else
    let cmd := [ "zfs"; "rollback" ] ++ (if force then [ "-r" ] else [])
               ++ [ snapshot_full_name ] in
    let* sr := run_privileged_command env cmd in
    if sr.1 then ret (true, "Rolled back to snapshot " +:+ snapshot_full_name)
    else ret (false, sr.2).

(** [clone_snapshot(snapshot_full_name, target_name)] *)
Definition clone_snapshot (snapshot_full_name target_name : string)
  : M (bool * string) :=
  if negb (is_safe_zfs_token snapshot_full_name)
     || negb (Py.contains AT snapshot_full_name)
  then ret (false, "Invalid snapshot identifier")
  else if negb (is_safe_zfs_token target_name)
  then ret (false, "Invalid target dataset name")
  else
    let* sr := run_privileged_command env
                 [ "zfs"; "clone"; snapshot_full_name; target_name ] in
    if sr.1 then ret (true, "Cloned snapshot " +:+ snapshot_full_name
                              +:+ " to " +:+ target_name)
    else ret (false, sr.2).

(** [(datetime.now() - creation).days] *)
Definition age_days (now t : N) : Z := (Z.of_N now - Z.of_N t) `div` DAY.

(** The retention loop of [cleanup_snapshots]: [i] is the rank of the head of
    [sorted_snapshots], [snapshots_to_delete] the list built so far. The clock
    is read once for every snapshot whose creation time is a timestamp. *)
Fixpoint mark_for_deletion (keep_count max_age_days : Z) (i : nat)
    (sorted_snapshots snapshots_to_delete : list ZFSSnapshot)
  : M (list ZFSSnapshot) :=
  match sorted_snapshots with
  | [] => ret snapshots_to_delete
  | snapshot :: rest =>
      let by_count := bool_decide (keep_count ≤ Z.of_nat i) in
      let* should_delete :=
        match creation_date snapshot with
        | Parsed t =>
            let* now := read_now env in
            ret (if bool_decide (max_age_days < age_days now t) then true
                 else by_count)
        | Unparsed _ => ret by_count
        end in
      mark_for_deletion keep_count max_age_days (S i) rest
        (if should_delete then snapshots_to_delete ++ [ snapshot ]
         else snapshots_to_delete)
  end.

(** The end of [cleanup_snapshots]: nothing to do when no snapshot is marked,
    else one batch of [zfs destroy] commands for the marked snapshots. *)
Definition delete_in_batch (dataset : string)
    (snapshots_to_delete : list ZFSSnapshot) : M (bool * string) :=
  match snapshots_to_delete with
  | [] => ret (true, "No snapshots to clean up for dataset " +:+ dataset)
  | _ =>
      let delete_commands :=
        map (λ snapshot, [ "zfs"; "destroy"; full_name snapshot ])
            snapshots_to_delete in
      let* sr := run_batch_privileged_commands env delete_commands in
      if sr.1
      then ret (true, "Cleanup completed for " +:+ dataset +:+ ": "
                        +:+ pretty (length snapshots_to_delete)
                        +:+ " snapshots deleted successfully")
      else ret (false, "Cleanup failed for " +:+ dataset
                         +:+ ": batch deletion failed - " +:+ sr.2)
  end.

(** [cleanup_snapshots(dataset, retention_policy)] *)
Definition cleanup_snapshots (dataset : string) (retention_policy : gmap string Z)
  : M (bool * string) :=
  let* snapshots := get_snapshots dataset in
  match snapshots with
  | [] => ret (true, "No snapshots found for dataset " +:+ dataset)
  | _ =>
      let sorted_snapshots := sorted_newest_first snapshots in
      let keep_count := default 10 (retention_policy !! "keep_count") in
      let max_age_days := default 30 (retention_policy !! "max_age_days") in
      let* snapshots_to_delete :=
        mark_for_deletion keep_count max_age_days 0 sorted_snapshots [] in
      delete_in_batch dataset snapshots_to_delete
  end.

End Core.

(** ** [backup/zfs_backup.py] *)

Section Backup.
Context (env : Env).

(** The processes of the transfer are started without a timeout. *)
Definition popen (site : call_site) (argv : list string) : M proc_result :=
  let* r := subprocess env site argv in
  ret (match r with TimedOut => Raised "TimeoutExpired" | _ => r end).

(** Truthiness of an optional string: [None] and the empty string are false. *)
Definition truthy (o : option string) : option string :=
  match o with
  | Some (String c s) => Some (String c s)
  | _ => None
  end.

(** [send_snapshot(snapshot_full_name, target_pool, incremental_snapshot)] *)
Definition send_snapshot (snapshot_full_name target_pool : string)
    (incremental_snapshot : option string) : M (bool * string) :=
  if negb (is_safe_zfs_token snapshot_full_name)
     || negb (Py.contains AT snapshot_full_name)
  then ret (false, "Invalid snapshot identifier")
  else if negb (is_safe_zfs_token target_pool)
  then ret (false, "Invalid target pool name")
  else if match truthy incremental_snapshot with
          | Some base => negb (is_safe_zfs_token base)
          | None => false
          end
  then ret (false, "Invalid incremental snapshot identifier")
  else
    let send_cmd :=
      match truthy incremental_snapshot with
      | Some base => [ "zfs"; "send"; "-i"; base; snapshot_full_name ]
      | None => [ "zfs"; "send"; snapshot_full_name ]
      end in
    let receive_cmd := [ "zfs"; "receive"; "-F"; target_pool ] in
    let* auth := run_privileged_command env [ "true" ] in
    if negb auth.1
    then ret (false, "Failed to obtain administrative privileges for ZFS send/receive operation")
    else
      let* s := popen Send send_cmd in
      match s with
      | Exited send_rc _ send_stderr =>
          let* r := popen Receive receive_cmd in
          match r with
          | Exited receive_rc _ receive_stderr =>
              if negb (send_rc =? 0)
              then ret (false, "Error in send operation: " +:+ send_stderr)
              else if negb (receive_rc =? 0)
              then ret (false, "Error in receive operation: " +:+ receive_stderr)
              else ret (true, "Successfully sent snapshot " +:+ snapshot_full_name
                                +:+ " to " +:+ target_pool)
          | TimedOut => ret (false, "Error executing send/receive commands: TimeoutExpired")
          | Raised msg => ret (false, "Error executing send/receive commands: " +:+ msg)
          end
      | TimedOut => ret (false, "Error executing send/receive commands: TimeoutExpired")
      | Raised msg => ret (false, "Error executing send/receive commands: " +:+ msg)
      end.

(** [{snapshot.name: snapshot for snapshot in snapshots}]: of two snapshots of
    one name the later of the listing stays. *)
Definition by_name (snapshots : list ZFSSnapshot) : gmap string ZFSSnapshot :=
  foldl (λ m snapshot, <[ name snapshot := snapshot ]> m) ∅ snapshots.

(** The loop of [get_latest_common_snapshot] over the common names. *)
Fixpoint latest_of (source_snapshot_names : gmap string ZFSSnapshot)
    (names : list string) (latest : option ZFSSnapshot) (latest_date : N)
  : option ZFSSnapshot :=
  match names with
  | [] => latest
  | n :: rest =>
      match source_snapshot_names !! n with
      | Some source_snap =>
          match creation_date source_snap with
          | Parsed t =>
              if bool_decide (latest_date < t)%N
              then latest_of source_snapshot_names rest (Some source_snap) t
              else latest_of source_snapshot_names rest latest latest_date
          | Unparsed _ => latest_of source_snapshot_names rest latest latest_date
          end
      | None => latest_of source_snapshot_names rest latest latest_date
      end
  end.

(** [get_latest_common_snapshot(source_dataset, target_pool)]; [zfs_core] says
    whether the ZFS core has been given to the backup module. *)
Definition get_latest_common_snapshot (zfs_core : bool)
    (source_dataset target_pool : string) : M (option string) :=
  if negb zfs_core then ret None
  else
    let* source_snapshots := get_snapshots env source_dataset in
    let source_snapshot_names := by_name source_snapshots in
    let* target_snapshots := get_snapshots env target_pool in
    let target_snapshot_names := by_name target_snapshots in
    let common_names : gset string :=
      dom source_snapshot_names ∩ dom target_snapshot_names in
    if bool_decide (common_names = ∅) then ret None
    else
      ret (full_name <$> latest_of source_snapshot_names
                           (set_order env common_names) None datetime_min).

(** [perform_backup(dataset, target_pool)] *)
Definition perform_backup (zfs_core : bool) (dataset target_pool : string)
  : M (bool * string) :=
  if negb zfs_core
  then ret (false, "Backup module is not initialized with ZFS core dependency")
  else if negb (is_safe_zfs_token dataset)
  then ret (false, "Invalid source dataset name")
  else if negb (is_safe_zfs_token target_pool)
  then ret (false, "Invalid target pool name")
  else
    let* probe := popen PoolProbe [ "zfs"; "list"; target_pool ] in
    match probe with
    | Exited 0 _ _ =>
        let* snapshots := get_snapshots env dataset in
        match snapshots with
        | [] => ret (false, "No snapshots found for dataset " +:+ dataset)
        | _ :: _ =>
            match sorted_newest_first snapshots with
            | [] => ret (false, "Error performing backup: list index out of range")
            | latest_snapshot :: _ =>
                let* common_snapshot :=
                  get_latest_common_snapshot zfs_core dataset target_pool in
                match truthy common_snapshot with
                | Some common =>
                    if String.eqb common (full_name latest_snapshot)
                    then ret (true, "Latest snapshot "
                                      +:+ full_name latest_snapshot
                                      +:+ " already exists in target pool")
                    else send_snapshot (full_name latest_snapshot) target_pool
                           (Some common)
                | None =>
                    send_snapshot (full_name latest_snapshot) target_pool None
                end
            end
        end
    | Exited _ _ _ =>
        ret (false, "Target pool '" +:+ target_pool
                      +:+ "' does not exist or is not accessible")
    | TimedOut => ret (false, "Error performing backup: TimeoutExpired")
    | Raised msg => ret (false, "Error performing backup: " +:+ msg)
    end.

End Backup.


(** ** [utils/common.py]: the other validators *)

(** What is left of a pattern [[class]+$] once one character of the class has
    been read, for any class that has no line feed. *)
Fixpoint re_class_rest (class : ascii → bool) (s : string) : bool :=
  match s with
  | EmptyString => true
  | String c s' =>
      if class c then re_class_rest class s'
      else Ascii.eqb c LF && negb (Py.nonempty s')
  end.

(** A match of [[class]+$] at the start of [s]. *)
Definition re_class_plus_end (class : ascii → bool) (s : string) : bool :=
  match s with
  | EmptyString => false
  | String c s' => class c && re_class_rest class s'
  end.

Definition alnum_class (c : ascii) : bool :=
  let n := Ascii.N_of_ascii c in
  ((65 <=? n) && (n <=? 90) || (97 <=? n) && (n <=? 122)
   || (48 <=? n) && (n <=? 57))%N.

(** The class [[A-Za-z0-9._-]] of [_SAFE_PREFIX_RE]. *)
Definition prefix_class (c : ascii) : bool :=
  alnum_class c || bool_decide (c ∈ [ "."; "_"; "-" ]%char).

(** The class [[A-Za-z0-9_]] of [_SAFE_ARC_PARAM_RE]. *)
Definition word_class (c : ascii) : bool :=
  alnum_class c || Ascii.eqb c "_".

(** The class [[0-9]] of [_SAFE_INT_RE]. *)
Definition digit_class (c : ascii) : bool :=
  let n := Ascii.N_of_ascii c in ((48 <=? n) && (n <=? 57))%N.

(** [bool(_SAFE_PREFIX_RE.match(value))], the pattern [^[A-Za-z0-9._-]+$]. *)
Definition _SAFE_PREFIX_RE_match (value : string) : bool :=
  re_class_plus_end prefix_class value.

(** [bool(_SAFE_ARC_PARAM_RE.match(value))], the pattern [^zfs_[A-Za-z0-9_]+$]. *)
Definition _SAFE_ARC_PARAM_RE_match (value : string) : bool :=
  match value with
  | String "z" (String "f" (String "s" (String "_" rest))) =>
      re_class_plus_end word_class rest
  | _ => false
  end.

(** [bool(_SAFE_INT_RE.match(value))], the pattern [^-?[0-9]+$]. *)
Definition _SAFE_INT_RE_match (value : string) : bool :=
  match value with
  | String "-" rest => re_class_plus_end digit_class rest
  | _ => re_class_plus_end digit_class value
  end.

(** [is_safe_snapshot_prefix] *)
Definition is_safe_snapshot_prefix (value : string) : bool :=
  if negb (Py.nonempty value) then false
  else if Py.any disallowed value then false
  else _SAFE_PREFIX_RE_match value.

(** [is_safe_arc_parameter] *)
Definition is_safe_arc_parameter (value : string) : bool :=
  Py.nonempty value && _SAFE_ARC_PARAM_RE_match value.

(** [is_safe_integer] *)
Definition is_safe_integer (value : string) : bool :=
  Py.nonempty value && _SAFE_INT_RE_match (Py.strip value).

(** ** [utils/privilege_manager.py]: the session and the derived helpers *)

(** [int(x)] for a rational: towards zero. *)
Definition py_int (x : Q) : Z :=
  if Qle_bool 0 x then Qfloor x else Qceiling x.

(** [max(0, x)] *)
Definition max_0 (x : Q) : Q := if Qltb 0 x then x else 0%Q.

(** [p.rfind("/") + 1] characters of [p]: the part up to and including the
    last slash, empty when there is none. *)
Fixpoint upto_last_slash (p : string) : string :=
  match p with
  | EmptyString => EmptyString
  | String c p' =>
      if Ascii.eqb c "/" then String c (upto_last_slash p')
      else match upto_last_slash p' with
           | EmptyString => EmptyString
           | h => String c h
           end
  end.

(** [head.rstrip("/")] *)
Fixpoint rstrip_slash (s : string) : string :=
  match s with
  | EmptyString => EmptyString
  | String a s' =>
      match rstrip_slash s' with
      | EmptyString => if Ascii.eqb a "/" then EmptyString else String a EmptyString
      | r => String a r
      end
  end.

(** [head == "/" * len(head)] *)
Fixpoint all_slashes (s : string) : bool :=
  match s with
  | EmptyString => true
  | String a s' => Ascii.eqb a "/" && all_slashes s'
  end.

(** [os.path.dirname] of [posixpath]. *)
Definition dirname (p : string) : string :=
  let head := upto_last_slash p in
  if Py.nonempty head && negb (all_slashes head) then rstrip_slash head
  else head.

Section Session.
Context (env : Env).

(** [get_timestamp] *)
Definition get_timestamp : M string :=
  let* now := read_now env in
  ret (strftime_stamp env now).

(** [cleanup_session] *)
Definition cleanup_session : M unit :=
  let* p := get_pm in
  put_pm {| _auth_cache_time := 0;
            _auth_cache_duration := _auth_cache_duration p;
            _session_active := false;
            _initial_auth_completed := _initial_auth_completed p |}.

(** [is_authenticated]: the clock is read only when the session is active. *)
Definition is_authenticated : M bool :=
  let* p := get_pm in
  if _session_active p then _is_auth_cached env else ret false.

(** [get_session_remaining_time] *)
Definition get_session_remaining_time : M Z :=
  let* p := get_pm in
  if negb (_session_active p) then ret 0
  else
    let* now := read_time env in
    let elapsed := (now - _auth_cache_time p)%Q in
    let remaining := max_0 (_auth_cache_duration p - elapsed)%Q in
    ret (py_int remaining).

(** The commands of [copy_files_privileged] for one pair. *)
Definition copy_commands (operation : string * string) : list (list string) :=
  let (src, dst) := operation in
  let dst_dir := dirname dst in
  (if Py.nonempty dst_dir then [ [ "mkdir"; "-p"; dst_dir ] ] else [])
  ++ [ [ "cp"; src; dst ] ].

(** [copy_files_privileged] *)
Definition copy_files_privileged (file_operations : list (string * string))
  : M (bool * string) :=
  match file_operations with
  | [] => ret (true, "No files to copy")
  | _ =>
      run_batch_privileged_commands env
        (concat (map copy_commands file_operations))
  end.

(** [remove_files_privileged] *)
Definition remove_files_privileged (file_paths : list string) : M (bool * string) :=
  match file_paths with
  | [] => ret (true, "No files to remove")
  | _ => run_batch_privileged_commands env [ [ "rm"; "-f" ] ++ file_paths ]
  end.

End Session.

(** ** [core/zfs_core.py]: batch and scheduled snapshots, ARC tunables *)

(** A value of the configuration, as far as [isinstance(v, int)] and [int(v)]
    tell values apart: an integer, a boolean (which Python counts as the
    integer 0 or 1), or anything else. *)
Inductive config_value :=
| VInt (n : Z)
| VBool (b : bool)
| VOther.

(** The keys of the configuration that are read; [None] is a missing key. *)
Record Config := {
  cfg_datasets : option (list string);
  cfg_prefix : option string;
  cfg_external_backup_enabled : option bool;
  cfg_external_pool_name : option string;
  cfg_snapshot_retention : option (gmap string config_value);
}.

Section Scheduled.
Context (env : Env).

(** [create_batch_snapshots(datasets, snapshot_name)] *)
Definition create_batch_snapshots (datasets : list string) (snapshot_name : string)
  : M (bool * string) :=
  match datasets with
  | [] => ret (false, "No datasets provided for batch snapshot creation")
  | _ =>
      let snapshot_commands :=
        map (λ dataset, [ "zfs"; "snapshot"; dataset +:+ "@" +:+ snapshot_name ])
            datasets in
      let* sr := run_batch_privileged_commands env snapshot_commands in
      if sr.1
      then ret (true, "Successfully created " +:+ pretty (length datasets)
                        +:+ " snapshots in batch")
      else ret (false, "Batch snapshot creation failed: " +:+ sr.2)
  end.



(** [set_arc_tunable(parameter, value)]; [path_exists] is [os.path.exists].
    The value, stripped and followed by a line feed, is the input of [tee]. *)
Definition set_arc_tunable (path_exists : string → bool)
    (parameter value : string) : M (bool * string) :=
  if negb (is_safe_arc_parameter parameter)
  then ret (false, "Invalid ARC parameter name")
  else if negb (is_safe_integer value)
  then ret (false, "Invalid ARC parameter value (integer expected)")
  else
    let param_path := "/sys/module/zfs/parameters/" +:+ parameter in
    if negb (path_exists param_path)
    then ret (false, "Parameter " +:+ parameter +:+ " not found")
    else
      let* sr := run_privileged_command env [ "tee"; param_path ] in
      if negb sr.1
      then ret (false, "Failed to set " +:+ parameter +:+ ": " +:+ sr.2)
      else ret (true, "Set " +:+ parameter +:+ " to " +:+ value).

End Scheduled.

(** ** [backup/zfs_backup.py]: schedules and verification *)

Section Schedules.
Context (env : Env).

(** The loop over the datasets of [create_backup_schedule] and of
    [run_scheduled_backup]: every dataset is backed up, whatever happened to
    the ones before it. *)
Fixpoint backup_each (zfs_core : bool) (target_pool : string)
    (datasets : list string) (success_count : nat) (failures : list string)
  : M (nat * list string) :=
  match datasets with
  | [] => ret (success_count, failures)
  | dataset :: rest =>
      let* r := perform_backup env zfs_core dataset target_pool in
      if r.1
      then backup_each zfs_core target_pool rest (S success_count) failures
      else backup_each zfs_core target_pool rest success_count
             (failures ++ [ dataset +:+ ": " +:+ r.2 ])
  end.

(** [create_backup_schedule(datasets, target_pool, schedule_type)] *)
Definition create_backup_schedule (zfs_core : bool) (datasets : list string)
    (target_pool schedule_type : string) : M (bool * string) :=
  let* counted := backup_each zfs_core target_pool datasets 0 [] in
  match counted.2 with
  | [] => ret (true, "Successfully created " +:+ schedule_type
                       +:+ " backup schedule for " +:+ pretty counted.1
                       +:+ " datasets")
  | failed_datasets =>
      ret (false, "Backup schedule created with errors. Failed datasets: "
                    +:+ Py.join ", " failed_datasets)
  end.

(** [run_scheduled_backup] *)
Definition run_scheduled_backup (zfs_core : bool) (config : Config)
  : M (bool * string) :=
  if negb (default false (cfg_external_backup_enabled config))
  then ret (true, "External backup is disabled")
  else
    let target_pool := Py.strip (default "" (cfg_external_pool_name config)) in
    if negb (Py.nonempty target_pool)
    then ret (false, "External backup is enabled but no target pool is configured")
    else
      match default [] (cfg_datasets config) with
      | [] => ret (false, "No datasets configured for scheduled backup")
      | datasets =>
          let* counted := backup_each zfs_core target_pool datasets 0 [] in
          match counted.2 with
          | [] => ret (true, "Scheduled backup completed successfully for "
                               +:+ pretty counted.1 +:+ " datasets")
          | failures =>
              ret (false, "Scheduled backup completed with partial failures ("
                            +:+ pretty counted.1 +:+ "/"
                            +:+ pretty (length datasets) +:+ "): "
                            +:+ Py.join "; " failures)
          end
      end.

(** [verify_backup_integrity(source_dataset, target_pool)]. Without a ZFS
    core the first listing raises and the function reports the exception. *)
Definition verify_backup_integrity (zfs_core : bool)
    (source_dataset target_pool : string) : M (bool * string) :=
  if negb zfs_core
  then ret (false, "Error verifying backup integrity: "
                     +:+ "'NoneType' object has no attribute 'get_snapshots'")
  else
    let* source_snapshots := get_snapshots env source_dataset in
    let* target_snapshots := get_snapshots env target_pool in
    let source_names : gset string := list_to_set (name <$> source_snapshots) in
    let target_names : gset string := list_to_set (name <$> target_snapshots) in
    let missing_in_target := source_names ∖ target_names in
    let extra_in_target := target_names ∖ source_names in
    let issues :=
      (if bool_decide (missing_in_target = ∅) then []
       else [ "Missing in target: "
              +:+ Py.join ", " (set_order env missing_in_target) ])
      ++ (if bool_decide (extra_in_target = ∅) then []
          else [ "Extra in target: "
                 +:+ Py.join ", " (set_order env extra_in_target) ]) in
    match issues with
    | [] => ret (true, "Backup integrity verified: "
                         +:+ pretty (size source_names) +:+ " snapshots match")
    | _ => ret (false, "Backup integrity check found issues: "
                         +:+ Py.join "; " issues)
    end.

End Schedules.

(** ** [core/zfs_core.py]: the listings of datasets and pools

    [get_datasets] and [get_zfs_pools] start one process each, outside the
    privilege manager; they are given here as functions of the result of that
    process, and the functions that call them take the results in the order
    of the calls. *)

(** [[line.strip() for line in stdout.strip().split(LF) if line.strip()]] *)
Definition listed_names (stdout : string) : list string :=
  filter (λ line, Py.nonempty line = true)
         (Py.strip <$> Py.split LF (Py.strip stdout)).

(** [get_datasets], from the result of [zfs list -H -o name -t filesystem]. *)
Definition get_datasets (listing : proc_result) : list string :=
  match listing with
  | Exited 0 stdout _ => listed_names stdout
  | _ => []
  end.

(** [get_zfs_pools], from the result of [zpool list -H -o name]. *)
Definition get_zfs_pools (listing : proc_result) : list string :=
  match listing with
  | Exited 0 stdout _ => listed_names stdout
  | _ => []
  end.

(** [get_root_pool_datasets]: the pools are listed first, then the datasets. *)
Definition get_root_pool_datasets (pools_listing datasets_listing : proc_result)
  : list string :=
  let pools := get_zfs_pools pools_listing in
  let datasets := get_datasets datasets_listing in
  filter (λ pool, pool ∈ datasets) pools.

(** [get_filtered_datasets]: the datasets are listed, then the pools, then the
    datasets once more. *)
Definition get_filtered_datasets
    (datasets_listing pools_listing datasets_listing_again : proc_result)
  : list string :=
  let all_datasets := get_datasets datasets_listing in
  let root_datasets :=
    get_root_pool_datasets pools_listing datasets_listing_again in
  filter (λ dataset, dataset ∉ root_datasets) all_datasets.

(** What a line of [zfs get -H all] adds to the properties: nothing when the
    line is blank or has fewer than three fields, else its second field as
    the name and its third field as the value. *)
Definition property_of_line (line : string) : option (string * string) :=
  if Py.nonempty (Py.strip line) then
    match Py.split TAB line with
    | _ :: prop_name :: prop_value :: _ => Some (prop_name, prop_value)
    | _ => None
    end
  else None.

(** [get_dataset_properties(dataset_name)], from the result of
    [zfs get -H all dataset_name]. *)
Definition get_dataset_properties (listing : proc_result) : gmap string string :=
  match listing with
  | Exited 0 stdout _ =>
      foldl (λ properties line,
               match property_of_line line with
               | Some (prop_name, prop_value) =>
                   <[prop_name := prop_value]> properties
               | None => properties
               end)
            ∅ (Py.split LF (Py.strip stdout))
  | _ => ∅
  end.

(** ** [system/system_maintenance.py]: the snapshot before a system update *)

(** [str.isalnum] on one code point below 256. *)
Definition isalnum (c : ascii) : bool :=
  let n := Ascii.N_of_ascii c in
  ((48 <=? n) && (n <=? 57) || (65 <=? n) && (n <=? 90)
   || (97 <=? n) && (n <=? 122) || (n =? 170) || (178 <=? n) && (n <=? 179)
   || (n =? 181) || (185 <=? n) && (n <=? 186) || (188 <=? n) && (n <=? 190)
   || (192 <=? n) && (n <=? 214) || (216 <=? n) && (n <=? 246)
   || (248 <=? n) && (n <=? 255))%N.

(** [str().join(ch for ch in s if p(ch))] *)
Fixpoint keep_chars (p : ascii → bool) (s : string) : string :=
  match s with
  | EmptyString => EmptyString
  | String ch s' => if p ch then String ch (keep_chars p s') else keep_chars p s'
  end.

(** The label [safe_type] that [create_system_update_snapshot] derives from
    its argument. *)
Definition safe_type (snapshot_type : option string) : string :=
  let safe_type :=
    Py.replace " " "-" (Py.strip (default "sysupdate" (truthy snapshot_type))) in
  let safe_type :=
    keep_chars (λ ch, isalnum ch || bool_decide (ch ∈ [ "-"; "_" ]%char))
      safe_type in
  if Py.nonempty safe_type then safe_type else "sysupdate".

Section Maintenance.
Context (env : Env).

(** [create_system_update_snapshot(snapshot_type)]; [_get_timestamp] is
    [get_timestamp] of [utils/common.py] written again. Once the name of the
    snapshot is made, the function imports [ZFSCore] from [.zfs_core], which
    is [system/zfs_core]: there is no such module among the sources (the core
    is [core/zfs_core]), so the import raises and the function answers with
    its own [except] clause. [import_error] is the text of that exception. *)
Definition create_system_update_snapshot (import_error : string)
    (config : Config) (snapshot_type : option string) : M (bool * string) :=
  match default [] (cfg_datasets config) with
  | [] => ret (false, "No datasets configured for system update snapshot")
  | _ :: _ =>
      let* timestamp := get_timestamp env in
      let snapshot_name :=
        "zfs-assistant-" +:+ safe_type snapshot_type +:+ "-" +:+ timestamp in
      ret (false, "Error creating system update snapshot: " +:+ import_error)
  end.

End Maintenance.

(** ** [zfs_assistant.py]: clean-up over the configured datasets *)

Module ZFSAssistant.
Section Assistant.
Context (env : Env).

(** The retention policy derived from the configuration when the caller
    gives none: the entries of [snapshot_retention] for [daily], [weekly] and
    [monthly] that are integers are added up (a missing entry is 0), and a
    sum of zero or less is replaced by 10. *)
Definition derived_policy (config : Config) : gmap string Z :=
  let cfg_retention := default ∅ (cfg_snapshot_retention config) in
  let keep_count :=
    foldr Z.add 0
      (omap (λ k, match default (VInt 0) (cfg_retention !! k) with
                  | VInt n => Some n
                  | VBool b => Some (Z.b2z b)
                  | VOther => None
                  end)
            [ "daily"; "weekly"; "monthly" ]) in
  let keep_count := if keep_count <=? 0 then 10 else keep_count in
  {[ "keep_count" := keep_count; "max_age_days" := 30 ]}.

(** The loop over the configured datasets. *)
Fixpoint cleanup_each (policy : gmap string Z) (datasets : list string)
    (success_count : nat) (failures : list string) : M (nat * list string) :=
  match datasets with
  | [] => ret (success_count, failures)
  | ds :: rest =>
      let* r := cleanup_snapshots env ds policy in
      if r.1 then cleanup_each policy rest (S success_count) failures
      else cleanup_each policy rest success_count
             (failures ++ [ ds +:+ ": " +:+ r.2 ])
  end.

(** [cleanup_snapshots(dataset=None, retention_policy=None)] *)
Definition cleanup_snapshots (config : Config) (dataset : option string)
    (retention_policy : option (gmap string Z)) : M (bool * string) :=
  let policy := default (derived_policy config) retention_policy in
  match truthy dataset with
  | Some dataset => cleanup_snapshots env dataset policy
  | None =>
      match default [] (cfg_datasets config) with
      | [] => ret (true, "No datasets configured for cleanup")
      | datasets =>
          let* counted := cleanup_each policy datasets 0 [] in
          match counted.2 with
          | [] => ret (true, "Cleanup completed successfully for "
                               +:+ pretty counted.1 +:+ " datasets")
          | failures =>
              ret (false, "Cleanup completed with partial failures ("
                            +:+ pretty counted.1 +:+ "/"
                            +:+ pretty (length datasets) +:+ "): "
                            +:+ Py.join "; " failures)
          end
      end
  end.

End Assistant.
End ZFSAssistant.
(** ** Notions of the specification *)

(** A character of the token grammar: a letter, a digit, or one of
    [. _ : / + -]. *)
Definition token_char (c : ascii) : Prop :=
  let n := Ascii.N_of_ascii c in
  (65 ≤ n ≤ 90 ∨ 97 ≤ n ≤ 122 ∨ 48 ≤ n ≤ 57
   ∨ c ∈ [ "."; "_"; ":"; "/"; "+"; "-" ]%char)%N.

(** The characters of a string, in order. *)
Fixpoint chars (s : string) : list ascii :=
  match s with
  | EmptyString => []
  | String a s' => a :: chars s'
  end.

(** The characters the specification names as always rejected: space, single
    and double quote, backtick, semicolon, dollar, pipe, ampersand, less-than,
    greater-than, backslash. *)
Definition shell_metacharacters : list ascii :=
  [ " "; SQUOTE; DQUOTE; "`"; ";"; "$"; "|"; "&"; "<"; ">"; BACKSLASH ]%char.

(** A process that ran to its end with exit status zero. *)
Definition succeeded (r : proc_result) : Prop :=
  match r with Exited 0 _ _ => True | _ => False end.

Global Instance succeeded_dec r : Decision (succeeded r).
Proof. destruct r as [[| |] ? ?| |]; simpl; apply _. Defined.

Ltac run := unfold bind, ret, subprocess, read_time, read_now, get_pm, put_pm;
            cbn beta iota.


(** ** Example environments *)

(** An environment with the given effective user, process oracle and set
    order; the clocks stand still at 2000 seconds. *)
Definition example_env (euid : Z) (oracle : nat → list string → proc_result)
    (order : gset string → list string) : Env :=
  {| geteuid := euid;
     time_time := λ _, 2000%Q;
     datetime_now := λ _, 50%N;
     spawn := oracle;
     str_called_process_error := λ _ _, "non-zero exit status";
     strptime := λ text _,
       if bool_decide (text = "t1") then Some 10%N
       else if bool_decide (text = "t2") then Some 20%N
       else if bool_decide (text = "t3") then Some 30%N
       else None;
     strftime_stamp := λ _, "20250604-1030";
     stage_script := λ _, inl "/tmp/batch.sh";
     set_order := order |}.

(** Every process succeeds and prints nothing. *)
Definition all_succeed : nat → list string → proc_result :=
  λ _ _, Exited 0 "" "".

(** Every process but the second one succeeds. *)
Definition second_fails : nat → list string → proc_result :=
  λ k _, if bool_decide (k = 1%nat) then Exited 1 "" "cannot destroy"
         else Exited 0 "" "".

(** The authentication probe, which is the first process, is declined. *)
Definition probe_declined : nat → list string → proc_result :=
  λ k _, if bool_decide (k = 0%nat) then Exited 126 "" "" else Exited 0 "" "".

(** ** Notions of the retention rule *)

(** Newest first, by creation time: [b] may follow [a]. Times are counted
    from [datetime.min]. A snapshot without a creation time may follow any
    snapshot, and is followed only by snapshots without a creation time or
    created at [datetime.min] itself: it is ordered as the oldest. *)
Definition not_newer (a b : ZFSSnapshot) : Prop :=
  match creation_date a, creation_date b with
  | Parsed ta, Parsed tb => (tb ≤ ta)%N
  | _, Unparsed _ => True
  | Unparsed _, Parsed tb => tb = 0%N
  end.

(** How often the retention loop has read the clock before it reaches rank
    [i]: once for every earlier snapshot whose creation time is a timestamp. *)
Fixpoint clock_reads_before (i : nat) (l : list ZFSSnapshot) : nat :=
  match i, l with
  | S i', s :: l' =>
      ((if is_datetime (creation_date s) then 1 else 0)
       + clock_reads_before i' l')%nat
  | _, _ => 0%nat
  end.

(** Times are in microseconds. *)
Definition microseconds_per_day : Z := 24 * 60 * 60 * 1000000.

(** [days] is the age in whole days, at the time [now], of what was created
    at the time [t]: the number of full days elapsed since (negative when [t]
    is ahead of [now]). *)
Definition age_in_whole_days (now t : N) (days : Z) : Prop :=
  days * microseconds_per_day ≤ Z.of_N now - Z.of_N t
  < (days + 1) * microseconds_per_day.

(** The age test: the snapshot has a creation time, and its age in whole
    days, at the clock reading number [reads], exceeds [max_age_days]. *)
Definition too_old (env : Env) (reads : nat) (max_age_days : Z)
    (s : ZFSSnapshot) : Prop :=
  ∃ t days, creation_date s = Parsed t
            ∧ age_in_whole_days (datetime_now env reads) t days
            ∧ max_age_days < days.

(** Four snapshots of one dataset, 1, 10, 40 and 50 days old when the clock
    shows day 100, listed oldest first. *)
Definition day (n : N) : N := (n * 86400000000)%N.

Definition aged (label : string) (days : N) : ZFSSnapshot :=
  {| name := label; creation_date := Parsed (day (100 - days));
     dataset := "tank/data"; used := "0B"; referenced := "1G" |}.

Definition four_snapshots : list ZFSSnapshot :=
  [ aged "d50" 50; aged "d40" 40; aged "d10" 10; aged "d1" 1 ].

Definition env_day_100 : Env :=
  {| geteuid := 0;
     time_time := λ _, 2000%Q;
     datetime_now := λ _, day 100;
     spawn := all_succeed;
     str_called_process_error := λ _ _, "non-zero exit status";
     strptime := λ _ _, None;
     strftime_stamp := λ _, "20250604-1030";
     stage_script := λ _, inl "/tmp/batch.sh";
     set_order := elements |}.

(** A dataset with two snapshots, created on day 60 and on day 99, listed
    oldest first, when the clock shows day 100. *)
Definition env_two_ages : Env :=
  {| geteuid := 0;
     time_time := λ _, 2000%Q;
     datetime_now := λ _, day 100;
     spawn := λ _ _,
       Exited 0 (Py.join (String LF "")
                   [ Py.join (String TAB "") [ "tank/data@old"; "day 60"; "0B"; "1G" ];
                     Py.join (String TAB "") [ "tank/data@new"; "day 99"; "0B"; "1G" ] ])
              "";
     str_called_process_error := λ _ _, "non-zero exit status";
     strptime := λ text _,
       if bool_decide (text = "day 60") then Some (day 60)
       else if bool_decide (text = "day 99") then Some (day 99)
       else None;
     strftime_stamp := λ _, "20250604-1030";
     stage_script := λ _, inl "/tmp/batch.sh";
     set_order := elements |}.

(** ** Notions of the replication resolver *)

(** [s] is the entry of the listing that stands for its name: an entry of
    the listing that no later entry shares its name with. *)
Definition last_of_its_name (listing : list ZFSSnapshot) (s : ZFSSnapshot)
  : Prop :=
  ∃ i, listing !! i = Some s
       ∧ ∀ j s', (i < j)%nat → listing !! j = Some s' → name s' ≠ name s.

(** A snapshot of the source listing, the last entry of its name, whose name
    is also the name of a snapshot of the target listing and whose creation
    time, on the source side, is the timestamp [t]. *)
Definition common_snapshot (source target : list ZFSSnapshot)
    (s : ZFSSnapshot) (t : N) : Prop :=
  last_of_its_name source s
  ∧ (∃ s', s' ∈ target ∧ name s' = name s)
  ∧ creation_date s = Parsed t.

(** One line of the listing: full name, creation, used, referenced. *)
Definition listing_line (full creation_str : string) : string :=
  Py.join (String TAB "") [ full; creation_str; "0B"; "1G" ].

Definition listing (lines : list string) : string :=
  Py.join (String LF "") lines.

(** The listing of [tank/data] is [source], that of [backup] is [target];
    every other process succeeds and prints nothing. *)
Definition listing_oracle (source target : list string)
  : nat → list string → proc_result :=
  λ _ argv,
    if bool_decide (argv = list_command "tank/data")
    then Exited 0 (listing source) ""
    else if bool_decide (argv = list_command "backup")
    then Exited 0 (listing target) ""
    else Exited 0 "" "".

(** The source has the snapshots a, b, c created at t1 < t2 < t3. *)
Definition source_abc : list string :=
  [ listing_line "tank/data@a" "t1"; listing_line "tank/data@b" "t2";
    listing_line "tank/data@c" "t3" ].

Definition target_ac : list string :=
  [ listing_line "backup@a" "t1"; listing_line "backup@c" "t3" ].

Definition target_a : list string := [ listing_line "backup@a" "t1" ].

(** A source whose only snapshot has a creation field no format fits. *)
Definition source_unparsed : list string :=
  [ listing_line "tank/data@a" "last Tuesday" ].

(** The claim on [get_latest_common_snapshot] as the specification words it:
    nothing when no name is common to the two listings; else the source-side
    full name of a common snapshot that no common snapshot is newer than, a
    snapshot without a parsed creation time counting as the oldest. *)
Definition returns_latest_common (source target : list ZFSSnapshot)
    (result : option string) : Prop :=
  let common s := s ∈ source ∧ ∃ s', s' ∈ target ∧ name s' = name s in
  ((∀ s, ¬ common s) → result = None)
  ∧ ((∃ s, common s) →
     ∃ s, common s ∧ result = Some (full_name s)
          ∧ ∀ s', common s' → not_newer s s').

(** The processes [perform_backup] starts before any transfer: the probe of
    the target pool, the listing of the source, and the two listings of the
    search for a common snapshot. *)
Definition backup_preparation (dataset target_pool : string) : list event :=
  [ Spawned PoolProbe [ "zfs"; "list"; target_pool ];
    Spawned ZfsList (list_command dataset);
    Spawned ZfsList (list_command dataset);
    Spawned ZfsList (list_command target_pool) ].

(** ** Notions of the other validators *)

Definition alnum_char (c : ascii) : Prop :=
  let n := Ascii.N_of_ascii c in
  (65 ≤ n ≤ 90 ∨ 97 ≤ n ≤ 122 ∨ 48 ≤ n ≤ 57)%N.

(** A letter, a digit, or one of [. _ -]. *)
Definition prefix_char (c : ascii) : Prop :=
  alnum_char c ∨ c ∈ [ "."; "_"; "-" ]%char.

(** A letter, a digit, or an underscore. *)
Definition word_char (c : ascii) : Prop := alnum_char c ∨ c = "_"%char.

Definition digit_char (c : ascii) : Prop :=
  (48 ≤ Ascii.N_of_ascii c ≤ 57)%N.

(** A decimal integer: digits, after an optional minus sign. *)
Definition decimal (s : string) : Prop :=
  ∃ digits, digits ≠ "" ∧ Forall digit_char (chars digits)
            ∧ (s = digits ∨ s = String "-" digits).

(** ** The commands of a shell script

    How the shell reads a script, for the part of its grammar the batch
    script relies on. The script is a sequence of simple commands, each a
    list of words. Outside quotes, a line feed ends the command (a line
    without a word is no command), blanks separate words, a [#] where a word
    would start opens a comment that runs to the end of the line, a single or
    a double quote opens a quoted part of the word, and only letters, digits
    and [. _ : / + -] are read as plain characters (any other character
    outside quotes is taken as not safe: [None]). Between single quotes every
    character, a line feed included, stands for itself up to the next single
    quote. Between double quotes every character but dollar, backtick and
    backslash stands for itself up to the next double quote. A quote left
    open at the end of the script is an error. *)

Inductive quoting := Blank | Bare | Single | Double | Comment.

Definition is_blank (c : ascii) : bool := Ascii.eqb c " " || Ascii.eqb c TAB.

Definition special_in_double (c : ascii) : bool :=
  Ascii.eqb c "$" || Ascii.eqb c "`" || Ascii.eqb c BACKSLASH.

(** The characters read as plain outside quotes. *)
Definition sh_plain (c : ascii) : bool :=
  let n := Ascii.N_of_ascii c in
  ((65 <=? n) && (n <=? 90) || (97 <=? n) && (n <=? 122)
   || (48 <=? n) && (n <=? 57))%N
  || bool_decide (c ∈ [ "."; "_"; ":"; "/"; "+"; "-" ]%char).

(** The end of a line: the words read on it, if any, are a command. *)
Definition end_command (words : list string) (commands : list (list string))
  : list (list string) :=
  match words with
  | [] => commands
  | _ => words :: commands
  end.

(** [word] is the part read so far of the current word, [words] the words
    read so far of the current command. *)
Fixpoint sh_script_from (q : quoting) (word : string) (words : list string)
    (script : string) : option (list (list string)) :=
  match script with
  | EmptyString =>
      match q with
      | Blank | Comment => Some (end_command words [])
      | Bare => Some [ words ++ [ word ] ]
      | Single | Double => None
      end
  | String c rest =>
      match q with
      | Blank =>
          if Ascii.eqb c LF
          then end_command words <$> sh_script_from Blank "" [] rest
          else if is_blank c then sh_script_from Blank "" words rest
          else if Ascii.eqb c "#" then sh_script_from Comment "" words rest
          else if Ascii.eqb c SQUOTE then sh_script_from Single "" words rest
          else if Ascii.eqb c DQUOTE then sh_script_from Double "" words rest
          else if sh_plain c
               then sh_script_from Bare (String c "") words rest
          else None
      | Bare =>
          if Ascii.eqb c LF
          then cons (words ++ [ word ]) <$> sh_script_from Blank "" [] rest
          else if is_blank c
               then sh_script_from Blank "" (words ++ [ word ]) rest
          else if Ascii.eqb c SQUOTE then sh_script_from Single word words rest
          else if Ascii.eqb c DQUOTE then sh_script_from Double word words rest
          else if sh_plain c
               then sh_script_from Bare (word +:+ String c "") words rest
          else None
      | Single =>
          if Ascii.eqb c SQUOTE then sh_script_from Bare word words rest
          else sh_script_from Single (word +:+ String c "") words rest
      | Double =>
          if Ascii.eqb c DQUOTE then sh_script_from Bare word words rest
          else if special_in_double c then None
          else sh_script_from Double (word +:+ String c "") words rest
      | Comment =>
          if Ascii.eqb c LF
          then end_command words <$> sh_script_from Blank "" [] rest
          else sh_script_from Comment "" words rest
      end
  end.

Definition sh_script (script : string) : option (list (list string)) :=
  sh_script_from Blank "" [] script.

(** The line of the batch script that announces a command. *)
Definition echo_line (command : list string) : string :=
  "echo 'Executing: " +:+ Py.join " " command +:+ "'".

(** The line of the batch script that runs a command. *)
Definition command_line (command : list string) : string :=
  Py.join " " (map escape_arg command).

(** What the batch script is to do for one command: announce it, then run it
    with exactly its arguments (a command without a word runs nothing). *)
Definition announced_and_run (command : list string) : list (list string) :=
  [ "echo"; "Executing: " +:+ Py.join " " command ] :: end_command command [].

(** ** What a run may have done *)

(** From [w] to [w'] the only change is that processes were started, all of
    them from the places [sites]: the session cache is the same and no clock
    was read. *)
Definition only_started (sites : list call_site) (w w' : World) : Prop :=
  privilege_manager w' = privilege_manager w
  ∧ time_reads w' = time_reads w
  ∧ now_reads w' = now_reads w
  ∧ ∃ new, trace w' = trace w ++ new ∧ Forall (λ e, ev_site e ∈ sites) new.

(** ** A run over the configured datasets *)

(** The answers of [step] for the datasets, one after the other, each given
    in the world that the one before has left, and the world at the end. *)
Fixpoint attempts (step : string → M (bool * string)) (datasets : list string)
    (w : World) : list (bool * string) * World :=
  match datasets with
  | [] => ([], w)
  | dataset :: rest =>
      let (answer, w1) := step dataset w in
      let (answers, w2) := attempts step rest w1 in
      (answer :: answers, w2)
  end.

(** The datasets whose answer is a failure, each with the message of its
    answer. *)
Fixpoint failed (datasets : list string) (answers : list (bool * string))
  : list string :=
  match datasets, answers with
  | dataset :: datasets', answer :: answers' =>
      (if answer.1 then [] else [ dataset +:+ ": " +:+ answer.2 ])
      ++ failed datasets' answers'
  | _, _ => []
  end.

(** The number of answers that are a success. *)
Fixpoint successes (answers : list (bool * string)) : nat :=
  match answers with
  | [] => 0
  | answer :: answers' =>
      ((if answer.1 then 1 else 0) + successes answers')%nat
  end.

(** ** Destinations of a copy *)

(** A destination is a file name alone, or a file name under a directory. *)
Inductive destination :=
| Flat (base : string)
| Under (dir base : string).

Definition destination_path (d : destination) : string :=
  match d with
  | Flat base => base
  | Under dir base => dir +:+ "/" +:+ base
  end.

(** The file name has no slash; the directory is not empty and does not end
    with a slash. *)
Definition proper_destination (d : destination) : Prop :=
  match d with
  | Flat base => "/"%char ∉ chars base
  | Under dir base =>
      "/"%char ∉ chars base
      ∧ ∃ c, last (chars dir) = Some c ∧ c ≠ "/"%char
  end.

(** The commands that copy [src] to a destination: its directory is made
    first, when it has one. *)
Definition copy_plan (operation : string * destination) : list (list string) :=
  match operation.2 with
  | Flat base => [ [ "cp"; operation.1; base ] ]
  | Under dir base =>
      [ [ "mkdir"; "-p"; dir ]; [ "cp"; operation.1; dir +:+ "/" +:+ base ] ]
  end.

(** ** Plain text *)

(** Every character is below 128. *)
Definition ascii_only (s : string) : Prop :=
  Forall (λ c, (Ascii.N_of_ascii c < 128)%N) (chars s).

(** ** The configured retention *)

(** What an entry of [snapshot_retention] counts for. *)
Definition configured_count (retention : gmap string config_value)
    (k : string) : Z :=
  match retention !! k with
  | Some (VInt n) => n
  | Some (VBool b) => Z.b2z b
  | _ => 0
  end.

Definition configured_total (config : Config) : Z :=
  let retention := default ∅ (cfg_snapshot_retention config) in
  configured_count retention "daily" + configured_count retention "weekly"
  + configured_count retention "monthly".

(** From [w] to [w'] processes were started, all of them from the places
    [sites]. *)
Definition started_from (sites : list call_site) (w w' : World) : Prop :=
  ∃ new, trace w' = trace w ++ new ∧ Forall (λ e, ev_site e ∈ sites) new.
(** * Properties *)

(** ** Strings *)

Lemma contains_elem_of c s : Py.contains c s = true ↔ c ∈ chars s.
Proof.
  induction s as [|a s IH]; simpl.
  - split; [done | by intros ?%elem_of_nil].
  - destruct (Ascii.eqb_spec a c) as [->|Hne].
    + split; [intros _; left | done].
    + rewrite IH. split; [by right | ].
      intros [?|?]%elem_of_cons; [congruence | done].
Qed.

Lemma contains_false c s : Py.contains c s = false ↔ c ∉ chars s.
Proof. rewrite <- contains_elem_of. by destruct (Py.contains c s). Qed.

Lemma any_false p s : Py.any p s = false ↔ Forall (λ c, p c = false) (chars s).
Proof.
  induction s as [|a s IH]; simpl.
  - split; [constructor | done].
  - destruct (p a) eqn:Hp.
    + split; [done | ]. intros [? _]%Forall_cons. congruence.
    + rewrite IH. split; [by constructor | by intros [_ ?]%Forall_cons].
Qed.

Lemma chars_app s1 s2 : chars (s1 +:+ s2) = chars s1 ++ chars s2.
Proof. induction s1 as [|a s1 IH]; simpl; [done | by rewrite IH]. Qed.

Lemma append_assoc s1 s2 s3 : (s1 +:+ s2) +:+ s3 = s1 +:+ (s2 +:+ s3).
Proof.
  induction s1 as [|a s1 IH]; [done | ].
  change (String a ((s1 +:+ s2) +:+ s3) = String a (s1 +:+ (s2 +:+ s3))).
  by rewrite IH.
Qed.

Lemma append_char a s : String a "" +:+ s = String a s.
Proof. reflexivity. Qed.

Lemma split1_first sep a b :
  Py.contains sep a = false →
  Py.split1 sep (a +:+ String sep b) = [ a; b ].
Proof.
  induction a as [|c a IH]; simpl.
  - intros _. by rewrite Ascii.eqb_refl.
  - destruct (Ascii.eqb c sep); [done | ]. intros H. by rewrite (IH H).
Qed.

Lemma split_whole sep a : Py.contains sep a = false → Py.split sep a = [ a ].
Proof.
  induction a as [|c a IH]; simpl; [done | ].
  destruct (Ascii.eqb c sep); [done | ]. intros H. by rewrite (IH H).
Qed.

Lemma split_first sep a b :
  Py.contains sep a = false →
  Py.split sep (a +:+ String sep b) = a :: Py.split sep b.
Proof.
  induction a as [|c a IH]; simpl.
  - intros _. by rewrite Ascii.eqb_refl.
  - destruct (Ascii.eqb c sep); [done | ]. intros H. by rewrite (IH H).
Qed.

(** ** The token validator *)

Lemma token_class_char c : token_class c = true ↔ token_char c.
Proof.
  unfold token_class, token_char. cbv zeta.
  rewrite !orb_true_iff, !andb_true_iff, !N.leb_le, bool_decide_eq_true.
  tauto.
Qed.

Lemma token_class_allowed c : token_class c = true → disallowed c = false.
Proof.
  destruct c as [[] [] [] [] [] [] [] []]; vm_compute; congruence.
Qed.

Lemma token_re_rest_class s :
  Forall (λ c, token_class c = true) (chars s) → token_re_rest s = true.
Proof.
  induction s as [|a s IH]; simpl; [done | ].
  intros [Ha Hs]%Forall_cons. rewrite Ha. by apply IH.
Qed.

Lemma token_re_rest_inv s :
  token_re_rest s = true → Py.any disallowed s = false →
  Forall (λ c, token_class c = true) (chars s).
Proof.
  induction s as [|a s IH]; simpl; [constructor | ].
  destruct (disallowed a) eqn:Hd; [done | ].
  destruct (token_class a) eqn:Ha.
  - intros ??. constructor; auto.
  - intros [Heq _]%andb_true_iff _. apply Ascii.eqb_eq in Heq. subst a.
    by vm_compute in Hd.
Qed.

(** The validator accepts exactly the non-empty strings of the grammar. *)
Lemma is_safe_zfs_token_iff s :
  is_safe_zfs_token s = true ↔ s ≠ "" ∧ Forall token_char (chars s).
Proof.
  unfold is_safe_zfs_token. destruct s as [|a s]; simpl; [by intuition | ].
  split.
  - destruct (disallowed a) eqn:Hd; [done | ].
    destruct (Py.any disallowed s) eqn:Hs; [done | ].
    intros [Ha Hr]%andb_true_iff. split; [done | ].
    constructor; [by apply token_class_char | ].
    eapply Forall_impl; [by apply token_re_rest_inv | ].
    intros c. apply token_class_char.
  - intros [_ [Ha Hs]%Forall_cons].
    apply token_class_char in Ha.
    assert (Forall (λ c, token_class c = true) (chars s)) as Hc.
    { eapply Forall_impl; [exact Hs | ]. intros c. apply token_class_char. }
    rewrite (token_class_allowed _ Ha).
    assert (Py.any disallowed s = false) as ->.
    { apply any_false. eapply Forall_impl; [exact Hc | ].
      intros c. apply token_class_allowed. }
    rewrite Ha. by apply token_re_rest_class.
Qed.

Lemma AT_not_token_char : ¬ token_char AT.
Proof. rewrite <- token_class_char. by vm_compute. Qed.

Lemma TAB_not_token_char : ¬ token_char TAB.
Proof. rewrite <- token_class_char. by vm_compute. Qed.

Lemma safe_token_no_char c s :
  ¬ token_char c → is_safe_zfs_token s = true → Py.contains c s = false.
Proof.
  intros Hc [_ Hs]%is_safe_zfs_token_iff. apply contains_false.
  intros Hin. rewrite Forall_forall in Hs. by apply Hc, Hs.
Qed.

(** No string with an at sign passes the validator. *)
Lemma at_sign_rejected s :
  Py.contains AT s = true → is_safe_zfs_token s = false.
Proof.
  intros Hc. destruct (is_safe_zfs_token s) eqn:Hs; [ | done].
  by rewrite (safe_token_no_char AT s AT_not_token_char Hs) in Hc.
Qed.

Lemma full_name_contains_at d n : Py.contains AT (d +:+ "@" +:+ n) = true.
Proof.
  apply contains_elem_of. rewrite chars_app. apply elem_of_app. right.
  simpl. left.
Qed.

(** C3. The token validator rejects every string that holds a space, a single
    or double quote, a backtick, a semicolon, a dollar, a pipe, an ampersand, a
    less-than, a greater-than or a backslash; it accepts every non-empty
    string made only of letters, digits and [. _ : / + -]; and it rejects the
    empty string. *)
Theorem token_validation :
  (∀ s c, c ∈ shell_metacharacters → c ∈ chars s →
          is_safe_zfs_token s = false)
  ∧ (∀ s, s ≠ "" → Forall token_char (chars s) → is_safe_zfs_token s = true)
  ∧ is_safe_zfs_token "" = false.
Proof.
  split; [ | split; [ | done]].
  - intros s c Hmeta Hin.
    destruct (is_safe_zfs_token s) eqn:Hs; [ | done].
    apply is_safe_zfs_token_iff in Hs as [_ Hs].
    rewrite Forall_forall in Hs. specialize (Hs c Hin).
    apply token_class_char, token_class_allowed in Hs.
    assert (disallowed c = true) as Hd; [ | congruence].
    unfold shell_metacharacters in Hmeta.
    repeat (apply elem_of_cons in Hmeta as [->|Hmeta]; [by vm_compute | ]).
    by apply elem_of_nil in Hmeta.
  - intros s Hne Hs. by apply is_safe_zfs_token_iff.
Qed.

Lemma token_validation_witness :
  is_safe_zfs_token "tank/data; rm -rf" = false
  ∧ is_safe_zfs_token "tank/data-2025.01_a:b+c" = true.
Proof.
  destruct token_validation as (Hrej & Hacc & _). split.
  - apply (Hrej "tank/data; rm -rf" ";"%char); vm_compute.
    + do 4 right. left.
    + do 9 right. left.
  - apply (Hacc "tank/data-2025.01_a:b+c"); [done | ].
    simpl. repeat (apply Forall_cons_2; [apply token_class_char; reflexivity | ]).
    apply Forall_nil_2.
Defined.

(** ** Full names *)

Lemma rstrip_nonempty a s :
  Py.isspace a = false → Py.nonempty (Py.rstrip (String a s)) = true.
Proof. intros Ha. simpl. rewrite Ha. by destruct (Py.rstrip s). Qed.

Lemma token_char_not_space c : token_char c → Py.isspace c = false.
Proof.
  intros Hc%token_class_char. revert Hc.
  destruct c as [[] [] [] [] [] [] [] []]; vm_compute; congruence.
Qed.

Lemma strip_token_prefix d s :
  is_safe_zfs_token d = true → Py.nonempty (Py.strip (d +:+ s)) = true.
Proof.
  intros [Hne Hd]%is_safe_zfs_token_iff.
  destruct d as [|a d]; [done | ].
  apply Forall_cons in Hd as [Ha%token_char_not_space _].
  unfold Py.strip. change (String a d +:+ s) with (String a (d +:+ s)).
  unfold Py.lstrip; fold Py.lstrip. rewrite Ha.
  by apply rstrip_nonempty.
Qed.

Lemma contains_app c s1 s2 :
  Py.contains c (s1 +:+ s2) = Py.contains c s1 || Py.contains c s2.
Proof.
  induction s1 as [|a s1 IH]; simpl; [done | ].
  by destruct (Ascii.eqb a c).
Qed.

(** C9. For valid tokens [dataset] and [name] without an at sign, the full
    name [dataset@name] splits back at its first at sign to the same pair; and
    a line of the snapshot listing that starts with this full name is read by
    [get_snapshots] as a snapshot of this dataset and this name. *)
Theorem full_name_round_trip env d n :
  is_safe_zfs_token d = true → is_safe_zfs_token n = true →
  Py.contains AT d = false → Py.contains AT n = false →
  Py.split1 AT (d +:+ "@" +:+ n) = [ d; n ]
  ∧ ∀ creation_str u r,
      Py.contains TAB creation_str = false →
      Py.contains TAB u = false → Py.contains TAB r = false →
      parse_snapshot_line env
        (Py.join (String TAB "") [ d +:+ "@" +:+ n; creation_str; u; r ])
      = Some {| name := n; creation_date := parse_creation env creation_str;
                dataset := d; used := u; referenced := r |}.
Proof.
  intros Hd Hn Hda Hna.
  assert (Py.split1 AT (d +:+ "@" +:+ n) = [ d; n ]) as Hsplit.
  { by apply (split1_first AT d n). }
  split; [done | ]. intros c u r Hc Hu Hr.
  unfold parse_snapshot_line. cbn [Py.join].
  set (rest := String TAB "" +:+ c +:+ String TAB "" +:+ u +:+ String TAB "" +:+ r).
  assert (Py.nonempty (Py.strip ((d +:+ "@" +:+ n) +:+ rest)) = true) as ->.
  { rewrite append_assoc. by apply strip_token_prefix. }
  subst rest.
  assert (Py.contains TAB (d +:+ "@" +:+ n) = false) as Hfull.
  { rewrite !contains_app.
    rewrite (safe_token_no_char TAB d TAB_not_token_char Hd).
    by rewrite (safe_token_no_char TAB n TAB_not_token_char Hn). }
  rewrite !append_char.
  rewrite (split_first TAB _ _ Hfull), (split_first TAB _ _ Hc),
    (split_first TAB _ _ Hu), (split_whole TAB _ Hr).
  by rewrite full_name_contains_at, Hsplit.
Qed.

Lemma full_name_round_trip_witness :
  Py.split1 AT ("tank/data" +:+ "@" +:+ "daily-1") = [ "tank/data"; "daily-1" ].
Proof.
  apply (full_name_round_trip
           {| geteuid := 0; time_time := λ _, 0%Q; datetime_now := λ _, 0%N;
              spawn := λ _ _, TimedOut;
              str_called_process_error := λ _ _, "";
              strptime := λ _ _, None; strftime_stamp := λ _, "";
              stage_script := λ _, inl ""; set_order := elements |}
           "tank/data" "daily-1"); reflexivity.
Defined.

(** ** Worlds *)

(** C1. The claim is that [delete_snapshot], [rollback_snapshot] and
    [clone_snapshot] accept a full name [dataset@name] of valid tokens and
    hand their command over to [run_privileged_command]. The code does not:
    the validator it applies to the whole full name has no at sign in its
    grammar, so for every dataset and every name the three operations return
    the validation error and start no process. *)
Theorem snapshot_mutations_reject_full_names env d n force target w :
  delete_snapshot env (d +:+ "@" +:+ n) w
    = ((false, "Invalid snapshot identifier"), w)
  ∧ rollback_snapshot env (d +:+ "@" +:+ n) force w
    = ((false, "Invalid snapshot identifier"), w)
  ∧ clone_snapshot env (d +:+ "@" +:+ n) target w
    = ((false, "Invalid snapshot identifier"), w).
Proof.
  unfold delete_snapshot, rollback_snapshot, clone_snapshot.
  by rewrite (at_sign_rejected _ (full_name_contains_at d n)).
Qed.

(** C10. The batch executor called with no command returns success with the
    message "No commands to execute"; it reads no clock, asks for no
    authentication, starts no process and leaves the session cache as it
    is: the world is unchanged. *)
Theorem empty_batch_is_a_no_op env w :
  run_batch_privileged_commands env [] w = ((true, "No commands to execute"), w).
Proof. reflexivity. Qed.

(** ** The privilege broker *)

Lemma run_batch_as_root_pm env commands : ∀ results w,
  privilege_manager (run_batch_as_root env commands results w).2
  = privilege_manager w.
Proof.
  induction commands as [|c commands IH]; intros results w; [done | ].
  simpl. run.
  destruct (spawn env (length (trace w)) c) as [[| |] out err| |]; try done.
  by rewrite IH.
Qed.

Lemma run_batch_as_root_all env commands : ∀ results w,
  (∀ j cmd, commands !! j = Some cmd →
            succeeded (spawn env (length (trace w) + j) cmd)) →
  ∃ msg w', run_batch_as_root env commands results w = ((true, msg), w')
            ∧ trace w' = trace w ++ map (Spawned BatchCmd) commands
            ∧ privilege_manager w' = privilege_manager w.
Proof.
  induction commands as [|c commands IH]; intros results w Hall.
  - eexists _, w. simpl. unfold ret. by rewrite app_nil_r.
  - pose proof (Hall 0%nat c eq_refl) as Hc. rewrite Nat.add_0_r in Hc.
    simpl. run. destruct (spawn env (length (trace w)) c) as [[| |] out err| |];
      try done.
    match goal with |- context [run_batch_as_root _ _ ?r ?w1] =>
      destruct (IH r w1) as (msg & w' & Hrun & Htr & Hpm) end.
    { intros j cmd Hj. simpl. rewrite length_app. simpl.
      replace (length (trace w) + 1 + j)%nat with (length (trace w) + S j)%nat
        by lia.
      by apply Hall. }
    exists msg, w'. rewrite Hrun. split; [done | ]. split; [ | done].
    rewrite Htr. simpl. by rewrite <- app_assoc.
Qed.

Lemma run_batch_as_root_first_failure env pre : ∀ c post results w,
  (∀ j cmd, pre !! j = Some cmd →
            succeeded (spawn env (length (trace w) + j) cmd)) →
  ¬ succeeded (spawn env (length (trace w) + length pre) c) →
  ∃ msg w', run_batch_as_root env (pre ++ c :: post) results w
              = ((false, msg), w')
            ∧ trace w' = trace w ++ map (Spawned BatchCmd) (pre ++ [ c ])
            ∧ privilege_manager w' = privilege_manager w.
Proof.
  induction pre as [|p pre IH]; intros c post results w Hpre Hc.
  - simpl in *. rewrite Nat.add_0_r in Hc. run.
    destruct (spawn env (length (trace w)) c) as [[| |] out err| |];
      [by destruct Hc | eexists _, _; split_and!; reflexivity ..].
  - pose proof (Hpre 0%nat p eq_refl) as Hp. rewrite Nat.add_0_r in Hp.
    simpl. run. destruct (spawn env (length (trace w)) p) as [[| |] out err| |];
      try done.
    match goal with |- context [run_batch_as_root _ _ ?r ?w1] =>
      destruct (IH c post r w1) as (msg & w' & Hrun & Htr & Hpm) end.
    { intros j cmd Hj. simpl. rewrite length_app. simpl.
      replace (length (trace w) + 1 + j)%nat with (length (trace w) + S j)%nat
        by lia.
      by apply Hpre. }
    { simpl. rewrite length_app. simpl.
      by replace (length (trace w) + 1 + length pre)%nat
        with (length (trace w) + S (length pre))%nat by lia. }
    exists msg, w'. rewrite Hrun. split; [done | ]. split; [ | done].
    rewrite Htr. simpl. by rewrite <- app_assoc.
Qed.

(** C7. As root, a non-empty batch starts one process per command, in the
    order of the batch. When every command exits with status zero, all are
    started and the batch succeeds. When the command at position [k] is the
    first that does not (a non-zero exit, a timeout or any other failure), the
    commands up to and including position [k] are the only ones started and
    the batch is reported as failed. The session cache is not touched. *)
Theorem root_batch_fails_fast env w commands :
  geteuid env = 0 → commands ≠ [] →
  let result := run_batch_privileged_commands env commands w in
  let nth_result j cmd := spawn env (length (trace w) + j) cmd in
  privilege_manager result.2 = privilege_manager w
  ∧ ((∀ j cmd, commands !! j = Some cmd → succeeded (nth_result j cmd)) →
     result.1.1 = true
     ∧ trace result.2 = trace w ++ map (Spawned BatchCmd) commands)
  ∧ (∀ k c, commands !! k = Some c →
       (∀ j cmd, (j < k)%nat → commands !! j = Some cmd →
                 succeeded (nth_result j cmd)) →
       ¬ succeeded (nth_result k c) →
       result.1.1 = false
       ∧ trace result.2
         = trace w ++ map (Spawned BatchCmd) (take (S k) commands)).
Proof.
  intros Hroot Hne. cbv zeta.
  unfold run_batch_privileged_commands. rewrite Hroot. simpl (0 =? 0).
  destruct commands as [|c0 commands0]; [done | ].
  set (commands := c0 :: commands0) in *. cbv iota.
  assert (∀ k c, commands !! k = Some c →
            (∀ j cmd, (j < k)%nat → commands !! j = Some cmd →
                      succeeded (spawn env (length (trace w) + j) cmd)) →
            ¬ succeeded (spawn env (length (trace w) + k) c) →
            ∃ msg w', run_batch_as_root env commands [] w = ((false, msg), w')
              ∧ trace w' = trace w ++ map (Spawned BatchCmd) (take (S k) commands)
              ∧ privilege_manager w' = privilege_manager w) as Hfail.
  { intros k c Hk Hpre Hc.
    pose proof (take_drop_middle _ _ _ Hk) as Hsplit.
    assert (length (take k commands) = k) as Hlen.
    { apply length_take_le. apply lookup_lt_Some in Hk. lia. }
    rewrite <- Hsplit.
    destruct (run_batch_as_root_first_failure env (take k commands) c
                (drop (S k) commands) [] w) as (msg & w' & Hrun & Htr & Hpm).
    - intros j cmd Hj. pose proof (lookup_lt_Some _ _ _ Hj) as Hlt.
      rewrite Hlen in Hlt. rewrite lookup_take_lt in Hj by done.
      by apply Hpre.
    - by rewrite Hlen.
    - exists msg, w'. rewrite Hrun. split; [done | ]. split; [ | done].
      rewrite Htr. do 2 f_equal. rewrite Hsplit.
      by rewrite (take_S_r _ _ _ Hk). }
  split; [apply run_batch_as_root_pm | split].
  - intros Hall.
    destruct (run_batch_as_root_all env commands [] w Hall)
      as (msg & w' & Hrun & Htr & _). by rewrite Hrun.
  - intros k c Hk Hpre Hc.
    destruct (Hfail k c Hk Hpre Hc) as (msg & w' & Hrun & Htr & _).
    by rewrite Hrun.
Qed.

Lemma root_batch_fails_fast_witness :
  let commands := [ [ "zfs"; "destroy"; "tank@a" ];
                    [ "zfs"; "destroy"; "tank@b" ];
                    [ "zfs"; "destroy"; "tank@c" ] ] in
  let result := run_batch_privileged_commands
                  (example_env 0 second_fails elements) commands World_init in
  result.1.1 = false
  ∧ trace result.2 = map (Spawned BatchCmd) (take 2 commands).
Proof.
  intros commands.
  destruct (root_batch_fails_fast (example_env 0 second_fails elements)
              World_init commands) as (_ & _ & Hfail); [reflexivity | done | ].
  apply (Hfail 1%nat [ "zfs"; "destroy"; "tank@b" ]); [reflexivity | | ].
  - intros j cmd Hj _. by destruct j as [|[|j]]; [ | lia ..].
  - simpl. tauto.
Defined.

Lemma Qltb_false x y : (y <= x)%Q → Qltb x y = false.
Proof. intros H. unfold Qltb. by apply Qle_bool_iff in H as ->. Qed.

Lemma Qltb_true x y : (x < y)%Q → Qltb x y = true.
Proof.
  intros H. unfold Qltb. destruct (Qle_bool y x) eqn:Hle; [ | done].
  apply Qle_bool_iff in Hle. by apply Qle_not_lt in Hle.
Qed.

(** The messages of a command that was run and failed all differ from the
    message of a failed authentication. *)
Lemma command_result_not_auth_failed env argv r :
  (command_result env argv r).2 = AUTH_FAILED →
  (command_result env argv r).1 = true.
Proof. destruct r as [[| |] out err| |]; simpl; try done. Qed.

(** C6. A privileged call by a process that is not root, made when the session
    cache has expired ([now - authenticatedAt >= cacheDuration]), starts the
    authentication probe once, as its first process. When the probe succeeds,
    the time of authentication is set to the clock read after it, the session
    is active, and the command is the one process started after the probe.
    When the probe fails in any way (status not zero, timeout, or another
    error), the session is not active, the command is not started, and the
    call fails with the authentication message, which no failure of a command
    that was run produces. *)
Theorem expired_cache_reauthenticates_once env w command :
  geteuid env ≠ 0 →
  (_auth_cache_duration (privilege_manager w)
   <= time_time env (time_reads w) - _auth_cache_time (privilege_manager w))%Q →
  let probe := [ "pkexec"; "true" ] in
  let result := run_privileged_command env command w in
  let pm' := privilege_manager result.2 in
  if decide (succeeded (spawn env (length (trace w)) probe)) then
    trace result.2
      = trace w ++ [ Spawned AuthProbe probe; Spawned PrivCmd ("pkexec" :: command) ]
    ∧ _auth_cache_time pm' = time_time env (S (time_reads w))
    ∧ _session_active pm' = true
    ∧ result.1 = command_result env ("pkexec" :: command)
                   (spawn env (S (length (trace w))) ("pkexec" :: command))
  else
    trace result.2 = trace w ++ [ Spawned AuthProbe probe ]
    ∧ _session_active pm' = false
    ∧ _auth_cache_time pm' = _auth_cache_time (privilege_manager w)
    ∧ result.1 = (false, AUTH_FAILED)
    ∧ ∀ argv r, (command_result env argv r).1 = false →
                (command_result env argv r).2 ≠ AUTH_FAILED.
Proof.
  intros Hroot%Z.eqb_neq Hexp%Qltb_false. cbv zeta.
  unfold run_privileged_command, _is_auth_cached, _refresh_auth_cache.
  rewrite Hroot. run. cbn [privilege_manager time_reads trace].
  rewrite Hexp. cbn [privilege_manager time_reads trace].
  destruct (spawn env (length (trace w)) [ "pkexec"; "true" ])
    as [[| |] out err| |] eqn:Hprobe; simpl.
  all: try (split_and!; try done;
            intros argv r Hf Hm; apply command_result_not_auth_failed in Hm;
            congruence).
  rewrite <- app_assoc. split_and!; try done.
  rewrite length_app. simpl. by rewrite Nat.add_1_r.
Qed.

Lemma expired_cache_reauthenticates_once_witness :
  let result := run_privileged_command
                  (example_env 1000 probe_declined elements)
                  [ "zfs"; "destroy"; "tank@a" ] World_init in
  trace result.2 = [ Spawned AuthProbe [ "pkexec"; "true" ] ]
  ∧ _session_active (privilege_manager result.2) = false
  ∧ result.1 = (false, AUTH_FAILED).
Proof.
  pose proof (expired_cache_reauthenticates_once
                (example_env 1000 probe_declined elements) World_init
                [ "zfs"; "destroy"; "tank@a" ]) as H.
  cbv zeta in H. simpl in H.
  destruct H as (Htr & Hact & _ & Hres & _); [done | by vm_compute | ].
  by split_and!.
Defined.

(** ** Retention *)

Lemma insert_newest_first_perm x l : insert_newest_first x l ≡ₚ x :: l.
Proof.
  induction l as [|y l IH]; simpl; [done | ].
  destruct (sort_key y <=? sort_key x)%N; [done | ].
  rewrite IH. apply Permutation_swap.
Qed.

Lemma sorted_newest_first_perm l : sorted_newest_first l ≡ₚ l.
Proof.
  induction l as [|x l IH]; simpl; [done | ].
  rewrite insert_newest_first_perm. by rewrite IH.
Qed.

Lemma insert_newest_first_sorted x l :
  StronglySorted (λ a b, (sort_key b ≤ sort_key a)%N) l →
  StronglySorted (λ a b, (sort_key b ≤ sort_key a)%N) (insert_newest_first x l).
Proof.
  induction l as [|y l IH]; simpl; intros Hs.
  - by repeat constructor.
  - apply StronglySorted_inv in Hs as [Hl Hy].
    destruct (sort_key y <=? sort_key x)%N eqn:Hle.
    + apply N.leb_le in Hle. constructor.
      * by constructor.
      * constructor; [done | ].
        eapply Forall_impl; [exact Hy | ].
        intros z Hz. simpl in *. lia.
    + apply N.leb_gt in Hle. constructor; [by apply IH | ].
      rewrite insert_newest_first_perm. constructor; [ | done].
      simpl. lia.
Qed.

Lemma sorted_newest_first_sorted l :
  StronglySorted (λ a b, (sort_key b ≤ sort_key a)%N) (sorted_newest_first l).
Proof.
  induction l as [|x l IH]; simpl; [constructor | ].
  by apply insert_newest_first_sorted.
Qed.

(** The order of the keys is the order of the creation times, a snapshot
    without a creation time being the oldest. *)
Lemma not_newer_key a b : not_newer a b ↔ (sort_key b ≤ sort_key a)%N.
Proof.
  unfold not_newer, sort_key, datetime_min.
  destruct (creation_date a), (creation_date b); lia.
Qed.

Lemma StronglySorted_weaken {A} (R R' : A → A → Prop) l :
  (∀ x y, R x y → R' x y) → StronglySorted R l → StronglySorted R' l.
Proof.
  intros HR. induction 1 as [|x l _ IH Hx]; constructor; [done | ].
  eapply Forall_impl; [exact Hx | ]. intros y. apply HR.
Qed.

Lemma sorted_newest_first_by_creation l :
  StronglySorted not_newer (sorted_newest_first l).
Proof.
  eapply StronglySorted_weaken; [ | apply sorted_newest_first_sorted].
  intros x y Hxy. by apply not_newer_key.
Qed.

(** [timedelta.days] is the age in whole days. *)
Lemma age_in_whole_days_age_days now t days :
  age_in_whole_days now t days ↔ days = age_days now t.
Proof.
  unfold age_in_whole_days, age_days, microseconds_per_day, DAY.
  pose proof (Z.div_mod (Z.of_N now - Z.of_N t) 86400000000 ltac:(done)) as Hdm.
  pose proof (Z.mod_pos_bound (Z.of_N now - Z.of_N t) 86400000000 ltac:(done))
    as Hmod.
  split; [ | intros ->]; lia.
Qed.

Lemma too_old_age_days env reads max_age_days s :
  too_old env reads max_age_days s
  ↔ ∃ t, creation_date s = Parsed t
         ∧ max_age_days < age_days (datetime_now env reads) t.
Proof.
  unfold too_old. split.
  - intros (t & days & Hc & ->%age_in_whole_days_age_days & Hlt). by exists t.
  - intros (t & Hc & Hlt). exists t, (age_days (datetime_now env reads) t).
    split_and!; [done | by apply age_in_whole_days_age_days | done].
Qed.

Lemma shifted_ranks_sorted (b : bool) (ranks : list nat) :
  StronglySorted lt ranks →
  StronglySorted lt ((if b then [ 0%nat ] else []) ++ (S <$> ranks)).
Proof.
  intros Hs.
  assert (StronglySorted lt (S <$> ranks)) as Hs'.
  { apply (StronglySorted_fmap S lt lt); [ | done].
    intros x y ?. lia. }
  destruct b; [ | done]. simpl. constructor; [done | ].
  apply Forall_fmap, Forall_forall. intros x _. simpl. lia.
Qed.

Lemma mark_for_deletion_spec env keep_count max_age_days : ∀ rest i acc w,
  ∃ ranks marked,
    (mark_for_deletion env keep_count max_age_days i rest acc w).1
      = acc ++ marked
    ∧ Forall2 (λ k s, rest !! k = Some s) ranks marked
    ∧ StronglySorted lt ranks
    ∧ ∀ k s, rest !! k = Some s →
        (k ∈ ranks ↔
           keep_count ≤ Z.of_nat (i + k)
           ∨ too_old env (now_reads w + clock_reads_before k rest)
               max_age_days s).
Proof.
  induction rest as [|s rest IH]; intros i acc w.
  - exists [], []. simpl. unfold ret. simpl. rewrite app_nil_r.
    split_and!; [done | constructor | constructor | ].
    intros k s Hk. by rewrite lookup_nil in Hk.
  - (* the decision taken for [s], and the world after it *)
    set (b := match creation_date s with
              | Parsed t =>
                  if bool_decide (max_age_days
                                  < age_days (datetime_now env (now_reads w)) t)
                  then true else bool_decide (keep_count ≤ Z.of_nat i)
              | Unparsed _ => bool_decide (keep_count ≤ Z.of_nat i)
              end).
    assert (b = true ↔
              keep_count ≤ Z.of_nat i ∨ too_old env (now_reads w) max_age_days s)
      as Hb.
    { unfold b. rewrite too_old_age_days. destruct (creation_date s) as [t|raw].
      - case_bool_decide as Hage.
        + split; [ | done]. intros _. right. by exists t.
        + rewrite bool_decide_eq_true. split; [by left | ].
          intros [?|(t' & [= <-] & ?)]; [done | lia].
      - rewrite bool_decide_eq_true. split; [by left | ].
        by intros [?|(t' & ? & ?)]. }
    simpl. run.
    destruct (creation_date s) as [t|raw] eqn:Hc; run;
      cbn [now_reads privilege_manager time_reads trace].
    all: match goal with |- context [mark_for_deletion _ _ _ _ _ ?acc' ?w1] =>
           destruct (IH (S i) acc' w1) as (ranks & marked & Hrun & Hf & Hs & Hiff)
         end.
    all: exists ((if b then [ 0%nat ] else []) ++ (S <$> ranks)),
                ((if b then [ s ] else []) ++ marked).
    all: rewrite Hrun; fold b; split_and!.
    all: try (by destruct b; simpl; rewrite <- ?app_assoc).
    all: try (apply Forall2_app;
              [by destruct b; repeat constructor
              | by apply Forall2_fmap_l; eapply Forall2_impl; [exact Hf | ] ]).
    all: try (by apply shifted_ranks_sorted).
    all: intros [|k] s' Hk; simpl in Hk.
    all: rewrite elem_of_app, list_elem_of_fmap.
    + injection Hk as <-. cbn [clock_reads_before].
      rewrite !Nat.add_0_r, <- Hb.
      split.
      * intros [Hin|(y & [=] & _)]. by destruct b; [ | apply elem_of_nil in Hin].
      * intros ->. left. left.
    + specialize (Hiff k s' Hk). cbn [clock_reads_before now_reads] in *.
      rewrite Hc. cbn [is_datetime].
      replace (now_reads w + (1 + clock_reads_before k rest))%nat
        with (S (now_reads w) + clock_reads_before k rest)%nat by lia.
      replace (Z.of_nat (i + S k)) with (Z.of_nat (S i + k)) by lia.
      rewrite <- Hiff. split.
      * intros [Hin|(y & [= ->] & Hy)]; [ | done].
        destruct b; [ | by apply elem_of_nil in Hin].
        by apply list_elem_of_singleton in Hin.
      * intros Hin. right. by exists k.
    + injection Hk as <-. cbn [clock_reads_before].
      rewrite !Nat.add_0_r, <- Hb.
      split.
      * intros [Hin|(y & [=] & _)]. by destruct b; [ | apply elem_of_nil in Hin].
      * intros ->. left. left.
    + specialize (Hiff k s' Hk). cbn [clock_reads_before now_reads] in *.
      rewrite Hc. cbn [is_datetime].
      replace (Z.of_nat (i + S k)) with (Z.of_nat (S i + k)) by lia.
      rewrite Nat.add_0_l. rewrite <- Hiff. split.
      * intros [Hin|(y & [= ->] & Hy)]; [ | done].
        destruct b; [ | by apply elem_of_nil in Hin].
        by apply list_elem_of_singleton in Hin.
      * intros Hin. right. by exists k.
Qed.

Lemma StronglySorted_lookup {A} (R : A → A → Prop) l i j a b :
  StronglySorted R l → (i < j)%nat → l !! i = Some a → l !! j = Some b → R a b.
Proof.
  intros Hs. revert i j. induction Hs as [|x l _ IH Hx]; intros i j Hij Hi Hj.
  - by rewrite lookup_nil in Hi.
  - destruct j as [|j]; [lia | ]. simpl in Hj. destruct i as [|i].
    + simpl in Hi. injection Hi as <-. rewrite Forall_forall in Hx.
      apply Hx. by eapply list_elem_of_lookup_2.
    + simpl in Hi. apply (IH i j); [lia | done | done].
Qed.

(** C4. For a non-empty listing of the snapshots of a dataset and any
    retention policy, [cleanup_snapshots] works on the snapshots sorted
    descending by creation time: of two snapshots with a creation time the one
    created later comes first or they were created at the same time, and a
    snapshot whose creation time could not be parsed is ordered as the oldest,
    after every snapshot created later than [datetime.min]. The snapshots it
    marks, and hands over to the batch deletion, are those of the sorted list
    at exactly the ranks [i] with [i >= keep_count] or with an age in whole
    days (the full days elapsed between the creation time and the clock)
    above [max_age_days], in the order of the sorted list. The age of a
    snapshot is taken at the clock reading of its turn in the loop; a snapshot
    without a creation time has no age. *)
Theorem retention_marks_union env w0 dataset retention_policy :
  let snapshots := (get_snapshots env dataset w0).1 in
  let w := (get_snapshots env dataset w0).2 in
  let keep_count := default 10 (retention_policy !! "keep_count") in
  let max_age_days := default 30 (retention_policy !! "max_age_days") in
  let sorted_snapshots := sorted_newest_first snapshots in
  let marking :=
    mark_for_deletion env keep_count max_age_days 0 sorted_snapshots [] w in
  snapshots ≠ [] →
  sorted_snapshots ≡ₚ snapshots
  ∧ StronglySorted not_newer sorted_snapshots
  ∧ (∀ i j a b raw t,
       sorted_snapshots !! i = Some a → sorted_snapshots !! j = Some b →
       creation_date a = Unparsed raw → creation_date b = Parsed t →
       t ≠ 0%N → (j < i)%nat)
  ∧ cleanup_snapshots env dataset retention_policy w0
    = delete_in_batch env dataset marking.1 marking.2
  ∧ ∃ ranks,
      StronglySorted lt ranks
      ∧ Forall2 (λ i s, sorted_snapshots !! i = Some s) ranks marking.1
      ∧ ∀ i s, sorted_snapshots !! i = Some s →
          (i ∈ ranks ↔
             keep_count ≤ Z.of_nat i
             ∨ too_old env (now_reads w + clock_reads_before i sorted_snapshots)
                 max_age_days s).
Proof.
  cbv zeta. intros Hne. split_and!.
  - apply sorted_newest_first_perm.
  - apply sorted_newest_first_by_creation.
  - intros i j a b raw t Hi Hj Ha Hb Ht.
    destruct (decide (j < i)%nat) as [ | Hji]; [done | exfalso].
    destruct (decide (i = j)) as [->|Hij]; [congruence | ].
    pose proof (StronglySorted_lookup not_newer _ i j a b
                  (sorted_newest_first_by_creation _) ltac:(lia) Hi Hj) as Hab.
    unfold not_newer in Hab. by rewrite Ha, Hb in Hab.
  - unfold cleanup_snapshots, bind at 1.
    destruct (get_snapshots env dataset w0) as [snapshots w]. simpl in *.
    destruct snapshots as [|s0 snapshots]; [done | ].
    unfold bind.
    by destruct (mark_for_deletion env _ _ 0 _ [] w).
  - match goal with |- context [mark_for_deletion env ?k ?m 0 ?l [] ?w] =>
      destruct (mark_for_deletion_spec env k m l 0 [] w)
        as (ranks & marked & Hrun & Hf & Hs & Hiff)
    end.
    exists ranks. rewrite Hrun. split_and!; [done | done | ].
    intros i s Hi. by rewrite (Hiff i s Hi).
Qed.

(** The example of the specification: with [keep_count = 2] and
    [max_age_days = 30], of four snapshots aged 1, 10, 40 and 50 days the two
    aged 40 and 50 days are marked. *)
Example retention_example_count_and_age :
  (mark_for_deletion env_day_100 2 30 0 (sorted_newest_first four_snapshots) []
     World_init).1
  = [ aged "d40" 40; aged "d50" 50 ].
Proof. by vm_compute. Qed.

(** Union, not intersection: with [keep_count = 5] a snapshot aged 40 days,
    of two snapshots in all, is within the count and is marked for its age. *)
Example retention_example_age_alone :
  (mark_for_deletion env_day_100 5 30 0
     (sorted_newest_first [ aged "d40" 40; aged "d1" 1 ]) [] World_init).1
  = [ aged "d40" 40 ].
Proof. by vm_compute. Qed.

(** A snapshot whose creation time could not be parsed is ranked last and is
    marked by its rank only. *)
Example retention_example_unparsed :
  let odd := {| name := "odd"; creation_date := Unparsed "yesterday";
                dataset := "tank/data"; used := "0B"; referenced := "1G" |} in
  sorted_newest_first [ odd; aged "d50" 50; aged "d1" 1 ]
  = [ aged "d1" 1; aged "d50" 50; odd ]
  ∧ (mark_for_deletion env_day_100 5 30 0
       (sorted_newest_first [ odd; aged "d50" 50; aged "d1" 1 ]) []
       World_init).1
    = [ aged "d50" 50 ].
Proof. by vm_compute. Qed.

Lemma retention_marks_union_witness :
  let listed := get_snapshots env_two_ages "tank/data" World_init in
  let sorted_snapshots := sorted_newest_first listed.1 in
  let marking :=
    mark_for_deletion env_two_ages 5 30 0 sorted_snapshots [] listed.2 in
  StronglySorted not_newer sorted_snapshots
  ∧ ∃ ranks,
      Forall2 (λ i s, sorted_snapshots !! i = Some s) ranks marking.1
      ∧ 1%nat ∈ ranks ∧ 0%nat ∉ ranks.
Proof.
  intros listed sorted_snapshots marking.
  destruct (retention_marks_union env_two_ages World_init "tank/data"
              {[ "keep_count" := 5 ]})
    as (_ & Hsorted & _ & _ & ranks & _ & Hf & Hiff).
  - by vm_compute.
  - split; [exact Hsorted | ]. exists ranks. split; [exact Hf | ]. split.
    + apply (Hiff 1%nat {| name := "old"; creation_date := Parsed (day 60);
                           dataset := "tank/data"; used := "0B";
                           referenced := "1G" |}); [reflexivity | ].
      right. exists (day 60), 40. split_and!; [reflexivity | | reflexivity].
      by vm_compute.
    + intros H0.
      apply (Hiff 0%nat {| name := "new"; creation_date := Parsed (day 99);
                           dataset := "tank/data"; used := "0B";
                           referenced := "1G" |}) in H0; [ | reflexivity].
      destruct H0 as [H0|(t & days & [= <-] & Hage & Hlt)];
        [by vm_compute in H0 | ].
      unfold age_in_whole_days, microseconds_per_day in Hage.
      change (Z.of_N (datetime_now env_two_ages _)) with 8640000000000 in Hage.
      change (Z.of_N (day 99)) with 8553600000000 in Hage.
      change (default 30 _) with 30 in Hlt. lia.
Defined.

(** ** The replication resolver *)

Lemma by_name_lookup l n s : by_name l !! n = Some s → s ∈ l ∧ name s = n.
Proof.
  unfold by_name.
  assert (∀ m : gmap string ZFSSnapshot,
            foldl (λ m snapshot, <[ name snapshot := snapshot ]> m) m l !! n
              = Some s →
            m !! n = Some s ∨ (s ∈ l ∧ name s = n)) as Hgen.
  { induction l as [|x l IH]; intros m; simpl; [by left | ].
    intros [Hm|[Hin Hn]]%IH.
    - destruct (decide (name x = n)) as [Heq|Hne].
      + rewrite Heq, lookup_insert_eq in Hm. injection Hm as <-.
        right. split; [left | done].
      + rewrite lookup_insert_ne in Hm by done. by left.
    - right. split; [by right | done]. }
  intros [Hm|?]%Hgen; [ | done]. by rewrite lookup_empty in Hm.
Qed.

Lemma by_name_dom l n : n ∈ dom (by_name l) ↔ ∃ s, s ∈ l ∧ name s = n.
Proof.
  split.
  - intros [s Hs]%elem_of_dom. exists s. by apply by_name_lookup.
  - unfold by_name.
    assert (∀ m : gmap string ZFSSnapshot,
              n ∈ dom m ∨ (∃ s, s ∈ l ∧ name s = n) →
              n ∈ dom (foldl (λ m snapshot, <[ name snapshot := snapshot ]> m)
                         m l)) as Hgen.
    { induction l as [|x l IH]; intros m; simpl.
      - intros [?|(s & Hin & _)]; [done | by apply elem_of_nil in Hin].
      - intros [Hm|(s & Hin & Hn)]; apply IH.
        + left. rewrite dom_insert_L. set_solver.
        + apply elem_of_cons in Hin as [->|Hin].
          * left. rewrite dom_insert_L. set_solver.
          * right. by exists s. }
    intros H. apply Hgen. by right.
Qed.

Lemma latest_of_spec (m : gmap string ZFSSnapshot) names : ∀ latest ld,
  (∀ s, latest = Some s → creation_date s = Parsed ld) →
  match latest_of m names latest ld with
  | Some s =>
      ∃ t, creation_date s = Parsed t
           ∧ (latest = Some s ∧ t = ld
              ∨ ∃ n, n ∈ names ∧ m !! n = Some s ∧ (ld < t)%N)
           ∧ ∀ n s' t', n ∈ names → m !! n = Some s' →
                        creation_date s' = Parsed t' → (t' ≤ t)%N
  | None =>
      latest = None
      ∧ ∀ n s' t', n ∈ names → m !! n = Some s' →
                   creation_date s' = Parsed t' → (t' ≤ ld)%N
  end.
Proof.
  induction names as [|n names IH]; intros latest ld Hinv; simpl.
  - destruct latest as [s|].
    + exists ld. split_and!; [by apply Hinv | by left | ].
      intros n s' t' Hn. by apply elem_of_nil in Hn.
    + split; [done | ]. intros n s' t' Hn. by apply elem_of_nil in Hn.
  - destruct (m !! n) as [x|] eqn:Hx.
    + destruct (creation_date x) as [tx|raw] eqn:Hcx.
      * case_bool_decide as Hlt.
        -- specialize (IH (Some x) tx). destruct (latest_of m names (Some x) tx) as [s|].
           ++ destruct IH as (t & Hc & Hfrom & Hmax); [by intros ? [= <-] | ].
              assert (tx ≤ t)%N as Hle.
              { destruct Hfrom as [[_ ->]|(n' & _ & _ & ?)]; lia. }
              exists t. split_and!; [done | | ].
              ** right. destruct Hfrom as [[[= <-] ->]|(n' & Hn' & Hs & ?)].
                 --- exists n. split_and!; [left | done | done].
                 --- exists n'. split_and!; [by right | done | lia].
              ** intros n' s' t' [->|Hn']%elem_of_cons Hs' Hc'; [ | by eauto].
                 rewrite Hx in Hs'. injection Hs' as <-.
                 rewrite Hcx in Hc'. injection Hc' as <-. done.
           ++ by destruct IH as [? _]; [by intros ? [= <-] | ].
        -- specialize (IH latest ld Hinv).
           destruct (latest_of m names latest ld) as [s|].
           ++ destruct IH as (t & Hc & Hfrom & Hmax).
              assert (ld ≤ t)%N as Hle.
              { destruct Hfrom as [[_ ->]|(n' & _ & _ & ?)]; lia. }
              exists t. split_and!; [done | | ].
              ** destruct Hfrom as [?|(n' & Hn' & Hs & ?)]; [by left | ].
                 right. exists n'. split_and!; [by right | done | done].
              ** intros n' s' t' [->|Hn']%elem_of_cons Hs' Hc'; [ | by eauto].
                 rewrite Hx in Hs'. injection Hs' as <-.
                 rewrite Hcx in Hc'. injection Hc' as <-. lia.
           ++ destruct IH as [Hnone Hmax]. split; [done | ].
              intros n' s' t' [->|Hn']%elem_of_cons Hs' Hc'; [ | by eauto].
              rewrite Hx in Hs'. injection Hs' as <-.
              rewrite Hcx in Hc'. injection Hc' as <-. lia.
      * specialize (IH latest ld Hinv).
        destruct (latest_of m names latest ld) as [s|].
        -- destruct IH as (t & Hc & Hfrom & Hmax).
           exists t. split_and!; [done | | ].
           ++ destruct Hfrom as [?|(n' & Hn' & Hs & ?)]; [by left | ].
              right. exists n'. split_and!; [by right | done | done].
           ++ intros n' s' t' [->|Hn']%elem_of_cons Hs' Hc'; [ | by eauto].
              rewrite Hx in Hs'. injection Hs' as <-. congruence.
        -- destruct IH as [Hnone Hmax]. split; [done | ].
           intros n' s' t' [->|Hn']%elem_of_cons Hs' Hc'; [ | by eauto].
           rewrite Hx in Hs'. injection Hs' as <-. congruence.
    + specialize (IH latest ld Hinv).
      destruct (latest_of m names latest ld) as [s|].
      * destruct IH as (t & Hc & Hfrom & Hmax).
        exists t. split_and!; [done | | ].
        -- destruct Hfrom as [?|(n' & Hn' & Hs & ?)]; [by left | ].
           right. exists n'. split_and!; [by right | done | done].
        -- intros n' s' t' [->|Hn']%elem_of_cons Hs' Hc'; [ | by eauto].
           congruence.
      * destruct IH as [Hnone Hmax]. split; [done | ].
        intros n' s' t' [->|Hn']%elem_of_cons Hs' Hc'; [ | by eauto].
        congruence.
Qed.

Lemma get_latest_common_snapshot_world env source_dataset target_pool w :
  (get_latest_common_snapshot env true source_dataset target_pool w).2
  = (get_snapshots env target_pool (get_snapshots env source_dataset w).2).2.
Proof.
  unfold get_latest_common_snapshot, bind. cbn [negb].
  destruct (get_snapshots env source_dataset w) as [source w1].
  cbn [fst snd].
  destruct (get_snapshots env target_pool w1) as [target w2].
  by destruct (bool_decide _).
Qed.

(** The dictionary by name holds, for every name, the last entry of the
    listing that has this name. *)
Lemma by_name_last l : ∀ n s,
  by_name l !! n = Some s ↔ last_of_its_name l s ∧ name s = n.
Proof.
  unfold by_name, last_of_its_name.
  induction l as [|x l IH] using rev_ind; intros n s.
  - simpl. rewrite lookup_empty. split; [done | ].
    intros [(i & Hi & _) _]. by rewrite lookup_nil in Hi.
  - rewrite foldl_app. cbn [foldl].
    destruct (decide (name x = n)) as [Hx|Hx].
    + subst n. rewrite lookup_insert_eq. split.
      * intros [= <-]. split; [ | done]. exists (length l). split.
        -- by rewrite lookup_app_r, Nat.sub_diag by lia.
        -- intros j s' Hj Hs'. apply lookup_lt_Some in Hs'.
           rewrite length_app in Hs'. simpl in Hs'. lia.
      * intros [(i & Hi & Hlast) Hn].
        destruct (decide (i = length l)) as [->|Hne].
        -- rewrite lookup_app_r, Nat.sub_diag in Hi by lia.
           simpl in Hi. by injection Hi as <-.
        -- pose proof (lookup_lt_Some _ _ _ Hi) as Hlt.
           rewrite length_app in Hlt. simpl in Hlt.
           exfalso. apply (Hlast (length l) x); [lia | | done].
           by rewrite lookup_app_r, Nat.sub_diag by lia.
    + rewrite lookup_insert_ne by done. rewrite IH. split.
      * intros [(i & Hi & Hlast) Hn]. split; [ | done].
        pose proof (lookup_lt_Some _ _ _ Hi) as Hlt.
        exists i. split; [by rewrite lookup_app_l | ].
        intros j s' Hj Hs'.
        destruct (decide (j < length l)%nat) as [Hj'|Hj'].
        -- rewrite lookup_app_l in Hs' by done. by eapply Hlast.
        -- rewrite lookup_app_r in Hs' by lia.
           destruct (j - length l)%nat; [ | done].
           simpl in Hs'. injection Hs' as <-. congruence.
      * intros [(i & Hi & Hlast) Hn]. split; [ | done].
        destruct (decide (i < length l)%nat) as [Hi'|Hi'].
        -- exists i. rewrite lookup_app_l in Hi by done. split; [done | ].
           intros j s' Hj Hs'. apply (Hlast j s' Hj).
           rewrite lookup_app_l; [done | by eapply lookup_lt_Some].
        -- rewrite lookup_app_r in Hi by lia.
           destruct (i - length l)%nat; [ | done].
           simpl in Hi. injection Hi as <-. congruence.
Qed.

(** C5, as amended. [get_latest_common_snapshot] returns nothing when the
    backup module has no ZFS core, starting no process. Otherwise it lists the
    source dataset and the target pool and intersects the listings by snapshot
    name; when a name occurs more than once in the source listing, the last
    entry of that name stands for it. When no common snapshot has a parsed
    creation time on the source side (in particular when the intersection is
    empty) it returns nothing. When some common snapshot has a parsed
    creation time later than [datetime.min], it returns the source-side full
    name of a common snapshot whose source-side creation time is the latest
    among the common snapshots with a parsed creation time. This holds for
    every order in which the set of common names is iterated. *)
Theorem latest_common_snapshot_parsed env w source_dataset target_pool :
  (∀ X, set_order env X ≡ₚ elements X) →
  let source := (get_snapshots env source_dataset w).1 in
  let w1 := (get_snapshots env source_dataset w).2 in
  let target := (get_snapshots env target_pool w1).1 in
  let result :=
    (get_latest_common_snapshot env true source_dataset target_pool w).1 in
  get_latest_common_snapshot env false source_dataset target_pool w = (None, w)
  ∧ ((∀ s t, ¬ common_snapshot source target s t) → result = None)
  ∧ ((∃ s t, common_snapshot source target s t ∧ (datetime_min < t)%N) →
     ∃ s t, result = Some (full_name s)
            ∧ s ∈ source
            ∧ common_snapshot source target s t
            ∧ ∀ s' t', common_snapshot source target s' t' → (t' ≤ t)%N).
Proof.
  intros Horder. cbv zeta. split; [done | ].
  unfold get_latest_common_snapshot, bind. cbn [negb].
  destruct (get_snapshots env source_dataset w) as [source w1].
  cbn [fst snd].
  destruct (get_snapshots env target_pool w1) as [target w2].
  cbn [fst snd].
  set (common_names := dom (by_name source) ∩ dom (by_name target)).
  assert (∀ n, n ∈ set_order env common_names ↔
               n ∈ dom (by_name source) ∧ n ∈ dom (by_name target)) as Hnames.
  { intros n. rewrite (Horder common_names), elem_of_elements.
    unfold common_names. set_solver. }
  assert (∀ s t, common_snapshot source target s t →
                 by_name source !! name s = Some s) as Hkept.
  { intros s t (Hs & _ & _). by apply by_name_last. }
  assert (∀ s t, common_snapshot source target s t →
                 name s ∈ set_order env common_names) as Hcand.
  { intros s t Hcommon. pose proof (Hkept s t Hcommon) as Hs.
    destruct Hcommon as (_ & Ht & _). apply Hnames. split.
    - apply elem_of_dom. by exists s.
    - by apply by_name_dom. }
  assert (∀ n s t, n ∈ set_order env common_names →
                   by_name source !! n = Some s → creation_date s = Parsed t →
                   common_snapshot source target s t) as Hback.
  { intros n s t [_ Ht]%Hnames Hs Hc.
    apply by_name_last in Hs as [Hlast <-].
    split_and!; [done | by apply by_name_dom | done]. }
  pose proof (latest_of_spec (by_name source) (set_order env common_names)
                None datetime_min) as Hspec.
  split.
  - (* no candidate *)
    intros Hnone. case_bool_decide; [done | ]. unfold ret. simpl.
    destruct (latest_of _ _ None datetime_min) as [s|]; [ | done].
    destruct Hspec as (t & Hc & [[? _]|(n & Hn & Hs & _)] & _); [done | done | ].
    by destruct (Hnone s t (Hback n s t Hn Hs Hc)).
  - (* a candidate later than the minimum *)
    intros (s0 & t0 & Hs0 & Ht0).
    pose proof (Hcand s0 t0 Hs0) as Hin0.
    case_bool_decide as Hempty.
    { apply Hnames in Hin0. fold common_names in Hempty.
      assert (name s0 ∈ common_names) as Hin by (unfold common_names; set_solver).
      rewrite Hempty in Hin. by apply not_elem_of_empty in Hin. }
    unfold ret. simpl.
    destruct (latest_of _ _ None datetime_min) as [s|].
    + destruct Hspec as (t & Hc & [[? _]|(n & Hn & Hs & Hlt)] & Hmax);
        [done | done | ].
      exists s, t. split_and!; [done | | by eapply Hback | ].
      * by apply (by_name_lookup _ n).
      * intros s' t' Hs'. pose proof (Hcand s' t' Hs') as Hin'.
        pose proof (Hkept s' t' Hs') as Hl'.
        destruct Hs' as (_ & _ & Hc'). by eapply Hmax.
    + destruct Hspec as [_ Hmax]; [done | ].
      pose proof (Hkept s0 t0 Hs0) as Hl0.
      destruct Hs0 as (_ & _ & Hc0).
      pose proof (Hmax _ _ _ Hin0 Hl0 Hc0). lia.
Qed.

Lemma latest_common_snapshot_parsed_witness :
  let env := example_env 1000 (listing_oracle source_abc target_ac) elements in
  let source := (get_snapshots env "tank/data" World_init).1 in
  ∃ s, (get_latest_common_snapshot env true "tank/data" "backup" World_init).1
       = Some (full_name s)
       ∧ s ∈ source.
Proof.
  intros env source.
  destruct (latest_common_snapshot_parsed env World_init "tank/data" "backup")
    as (_ & _ & Hsome); [done | ].
  destruct Hsome as (s & t & Hres & Hin & _); [ | by exists s].
  exists {| name := "c"; creation_date := Parsed 30; dataset := "tank/data";
            used := "0B"; referenced := "1G" |}, 30%N.
  split; [ | done]. split_and!; [ | | by vm_compute].
  - exists 2%nat. split; [by vm_compute | ].
    intros j s' Hj Hs'. apply lookup_lt_Some in Hs'.
    change (j < 3)%nat in Hs'. lia.
  - exists {| name := "c"; creation_date := Parsed 30; dataset := "backup";
              used := "0B"; referenced := "1G" |}.
    split; [ | reflexivity]. vm_compute. right. left.
Defined.

(** The example of the specification: the source has a, b, c created at
    t1 < t2 < t3, the target has a and c; the result is the source-side full
    name of c, whichever way the common names are iterated. *)
Example latest_common_snapshot_example :
  (get_latest_common_snapshot
     (example_env 1000 (listing_oracle source_abc target_ac) elements)
     true "tank/data" "backup" World_init).1 = Some "tank/data@c"
  ∧ (get_latest_common_snapshot
       (example_env 1000 (listing_oracle source_abc target_ac)
          (λ X, reverse (elements X)))
       true "tank/data" "backup" World_init).1 = Some "tank/data@c".
Proof. by vm_compute. Qed.

(** C5, as stated, fails: here the source and the target both have a snapshot
    named a, so the intersection by name is not empty and the source was
    listed, yet nothing is returned, because the creation time of the source
    snapshot could not be parsed. *)
Lemma latest_common_snapshot_counterexample :
  let env := example_env 1000 (listing_oracle source_unparsed target_a) elements in
  let source := (get_snapshots env "tank/data" World_init).1 in
  let w1 := (get_snapshots env "tank/data" World_init).2 in
  let target := (get_snapshots env "backup" w1).1 in
  ¬ returns_latest_common source target
      (get_latest_common_snapshot env true "tank/data" "backup" World_init).1.
Proof.
  intros env source w1 target [_ Hsome].
  destruct Hsome as (s & _ & Hres & _); [ | by vm_compute in Hres].
  eexists. split; [left | ]. eexists. split; [left | ]. reflexivity.
Qed.

(** ** Backups *)

Lemma get_snapshots_trace env dataset w :
  trace (get_snapshots env dataset w).2
  = trace w ++ [ Spawned ZfsList (list_command dataset) ].
Proof.
  unfold get_snapshots, bind, subprocess.
  by destruct (spawn env _ _) as [[| |] ? ?| |].
Qed.

Lemma get_latest_common_snapshot_trace env source_dataset target_pool w :
  trace (get_latest_common_snapshot env true source_dataset target_pool w).2
  = trace w ++ [ Spawned ZfsList (list_command source_dataset);
                 Spawned ZfsList (list_command target_pool) ].
Proof.
  rewrite get_latest_common_snapshot_world, !get_snapshots_trace.
  by rewrite <- app_assoc.
Qed.

(** Where [perform_backup] stands once the target pool has answered and the
    source has been listed. *)
Lemma perform_backup_prepared env w dataset target_pool latest :
  is_safe_zfs_token dataset = true →
  is_safe_zfs_token target_pool = true →
  succeeded (spawn env (length (trace w)) [ "zfs"; "list"; target_pool ]) →
  let w1 := (popen env PoolProbe [ "zfs"; "list"; target_pool ] w).2 in
  let listed := get_snapshots env dataset w1 in
  let common := get_latest_common_snapshot env true dataset target_pool listed.2 in
  head (sorted_newest_first listed.1) = Some latest →
  trace common.2 = trace w ++ backup_preparation dataset target_pool
  ∧ perform_backup env true dataset target_pool w
    = match truthy common.1 with
      | Some base =>
          if String.eqb base (full_name latest)
          then ((true, "Latest snapshot " +:+ full_name latest
                         +:+ " already exists in target pool"), common.2)
          else send_snapshot env (full_name latest) target_pool (Some base)
                 common.2
      | None => send_snapshot env (full_name latest) target_pool None common.2
      end.
Proof.
  intros Hd Hp Hprobe. cbv zeta. intros Hlatest. split.
  - rewrite get_latest_common_snapshot_trace, get_snapshots_trace.
    unfold popen, bind, subprocess. simpl. by rewrite <- !app_assoc.
  - unfold perform_backup. rewrite Hd, Hp. cbn [negb].
    unfold popen, bind, subprocess, ret in *. cbn [fst snd] in *.
    destruct (spawn env (length (trace w)) [ "zfs"; "list"; target_pool ])
      as [[| |] out err| |]; try done.
    cbn [fst snd] in *.
    destruct (get_snapshots env dataset _) as [snapshots w2]. cbn [fst snd] in *.
    destruct snapshots as [|s0 snapshots]; [done | ].
    destruct (sorted_newest_first (s0 :: snapshots)) as [|l sorted]; [done | ].
    injection Hlatest as ->.
    destruct (get_latest_common_snapshot env true dataset target_pool w2)
      as [common w3]. cbn [fst snd].
    destruct (truthy common) as [base|]; [ | done].
    by destruct (String.eqb base (full_name latest)).
Qed.

Lemma full_name_at s : Py.contains AT (full_name s) = true.
Proof. apply full_name_contains_at. Qed.

Lemma truthy_full_name s : truthy (Some (full_name s)) = Some (full_name s).
Proof.
  pose proof (full_name_at s) as H.
  by destruct (full_name s).
Qed.

Lemma truthy_Some o base : truthy o = Some base → o = Some base.
Proof. by destruct o as [[|c s]|]; simpl; intros [= <-]. Qed.

(** No full name passes the validation of [send_snapshot]. *)
Lemma send_snapshot_rejects env s target_pool incremental_snapshot w :
  send_snapshot env (full_name s) target_pool incremental_snapshot w
  = ((false, "Invalid snapshot identifier"), w).
Proof.
  unfold send_snapshot. by rewrite (at_sign_rejected _ (full_name_at s)).
Qed.

(** C8. For a valid dataset and a reachable target pool with at least one
    source snapshot, when the common snapshot found is the newest source
    snapshot, [perform_backup] returns success with the message that the
    latest snapshot already exists in the target pool; the processes it has
    started are the probe of the pool and the three listings, and no send or
    receive process. *)
Theorem up_to_date_backup_is_a_no_op env w dataset target_pool latest :
  is_safe_zfs_token dataset = true →
  is_safe_zfs_token target_pool = true →
  succeeded (spawn env (length (trace w)) [ "zfs"; "list"; target_pool ]) →
  let w1 := (popen env PoolProbe [ "zfs"; "list"; target_pool ] w).2 in
  let listed := get_snapshots env dataset w1 in
  let common := get_latest_common_snapshot env true dataset target_pool listed.2 in
  let result := perform_backup env true dataset target_pool w in
  head (sorted_newest_first listed.1) = Some latest →
  common.1 = Some (full_name latest) →
  result.1 = (true, "Latest snapshot " +:+ full_name latest
                      +:+ " already exists in target pool")
  ∧ trace result.2 = trace w ++ backup_preparation dataset target_pool
  ∧ ∀ e, e ∈ backup_preparation dataset target_pool →
         ev_site e ≠ Send ∧ ev_site e ≠ Receive.
Proof.
  intros Hd Hp Hprobe. cbv zeta. intros Hlatest Hcommon.
  destruct (perform_backup_prepared env w dataset target_pool latest
              Hd Hp Hprobe Hlatest) as [Htrace ->].
  rewrite Hcommon, truthy_full_name, String.eqb_refl. cbn [fst snd].
  split_and!; [done | done | ].
  intros e He. unfold backup_preparation in He.
  repeat (apply elem_of_cons in He as [->|He]; [done | ]).
  by apply elem_of_nil in He.
Qed.

Lemma up_to_date_backup_is_a_no_op_witness :
  let env := example_env 1000 (listing_oracle source_abc target_ac) elements in
  let result := perform_backup env true "tank/data" "backup" World_init in
  result.1 = (true, "Latest snapshot tank/data@c already exists in target pool")
  ∧ trace result.2 = backup_preparation "tank/data" "backup".
Proof.
  intros env result.
  destruct (up_to_date_backup_is_a_no_op env World_init "tank/data" "backup"
              {| name := "c"; creation_date := Parsed 30; dataset := "tank/data";
                 used := "0B"; referenced := "1G" |})
    as (Hres & Htrace & _); [by vm_compute .. | ].
  by split.
Defined.

(** C2. The claim is that [perform_backup], for valid inputs, sends the newest
    source snapshot, incrementally from the common snapshot when there is one
    that is not the newest, in full when there is none. The code does not:
    [send_snapshot] validates the full name of the snapshot with the token
    validator, whose grammar has no at sign, so every transfer is refused
    with a validation error before the privilege check and before any send or
    receive process is started. *)
Theorem backup_refuses_every_transfer env w dataset target_pool latest :
  is_safe_zfs_token dataset = true →
  is_safe_zfs_token target_pool = true →
  succeeded (spawn env (length (trace w)) [ "zfs"; "list"; target_pool ]) →
  let w1 := (popen env PoolProbe [ "zfs"; "list"; target_pool ] w).2 in
  let listed := get_snapshots env dataset w1 in
  let common := get_latest_common_snapshot env true dataset target_pool listed.2 in
  let result := perform_backup env true dataset target_pool w in
  head (sorted_newest_first listed.1) = Some latest →
  common.1 ≠ Some (full_name latest) →
  result.1 = (false, "Invalid snapshot identifier")
  ∧ trace result.2 = trace w ++ backup_preparation dataset target_pool.
Proof.
  intros Hd Hp Hprobe. cbv zeta. intros Hlatest Hcommon.
  destruct (perform_backup_prepared env w dataset target_pool latest
              Hd Hp Hprobe Hlatest) as [Htrace ->].
  destruct (truthy _) as [base|] eqn:Hbase.
  - destruct (String.eqb_spec base (full_name latest)) as [->|_].
    + by apply truthy_Some in Hbase.
    + by rewrite send_snapshot_rejects.
  - by rewrite send_snapshot_rejects.
Qed.

Lemma backup_refuses_every_transfer_witness :
  let env := example_env 1000 (listing_oracle source_abc target_a) elements in
  let result := perform_backup env true "tank/data" "backup" World_init in
  result.1 = (false, "Invalid snapshot identifier")
  ∧ trace result.2 = backup_preparation "tank/data" "backup".
Proof.
  intros env result.
  apply (backup_refuses_every_transfer env World_init "tank/data" "backup"
           {| name := "c"; creation_date := Parsed 30; dataset := "tank/data";
              used := "0B"; referenced := "1G" |}); by vm_compute.
Defined.

(** The same with an empty target pool, where the transfer would be a full
    send. *)
Example backup_refuses_full_send :
  (perform_backup (example_env 1000 (listing_oracle source_abc []) elements)
     true "tank/data" "backup" World_init).1
  = (false, "Invalid snapshot identifier").
Proof. by vm_compute. Qed.

(** * Further properties *)

(** ** The other validators *)

Lemma re_class_rest_iff class s :
  re_class_rest class s = true ↔
  Forall (λ c, class c = true) (chars s)
  ∨ ∃ s', s = s' +:+ String LF "" ∧ Forall (λ c, class c = true) (chars s').
Proof.
  induction s as [|c s IH]; simpl.
  - split; [by left | done].
  - destruct (class c) eqn:Hc.
    + rewrite IH. split.
      * intros [Hs|(s' & -> & Hs')]; [left; by constructor | ].
        right. exists (String c s'). split; [done | by constructor].
      * intros [[_ Hs]%Forall_cons|(s' & Heq & Hs')]; [by left | ].
        destruct s' as [|c' s']; simpl in Heq; injection Heq as -> ->.
        -- by left.
        -- right. exists s'. split; [done | ].
           by apply Forall_cons in Hs' as [_ ?].
    + rewrite andb_true_iff. split.
      * intros [->%Ascii.eqb_eq Hs]. destruct s; [ | done].
        right. by exists "".
      * intros [[Hcc _]%Forall_cons|(s' & Heq & Hs')]; [congruence | ].
        destruct s' as [|c' s']; simpl in Heq; injection Heq as -> ->.
        -- by rewrite Ascii.eqb_refl.
        -- apply Forall_cons in Hs' as [? _]. congruence.
Qed.

Lemma re_class_plus_end_iff class s :
  re_class_plus_end class s = true ↔
  ∃ body, body ≠ "" ∧ Forall (λ c, class c = true) (chars body)
          ∧ (s = body ∨ s = body +:+ String LF "").
Proof.
  destruct s as [|c s]; simpl.
  - split; [done | ]. intros (body & Hne & _ & [<-|Heq]); [done | ].
    by destruct body.
  - rewrite andb_true_iff, re_class_rest_iff. split.
    + intros [Hc [Hs|(s' & -> & Hs')]].
      * exists (String c s). split_and!; [done | by constructor | by left].
      * exists (String c s'). split_and!; [done | by constructor | by right].
    + intros (body & Hne & Hbody & [<-|Heq]).
      * apply Forall_cons in Hbody as [? ?]. split; [done | by left].
      * destruct body as [|c' body]; [done | ].
        simpl in Heq. injection Heq as -> ->.
        apply Forall_cons in Hbody as [? ?]. split; [done | ].
        right. by exists body.
Qed.

Lemma alnum_class_char c : alnum_class c = true ↔ alnum_char c.
Proof.
  unfold alnum_class, alnum_char. cbv zeta.
  rewrite !orb_true_iff, !andb_true_iff, !N.leb_le. tauto.
Qed.

Lemma prefix_class_char c : prefix_class c = true ↔ prefix_char c.
Proof.
  unfold prefix_class, prefix_char.
  by rewrite orb_true_iff, alnum_class_char, bool_decide_eq_true.
Qed.

Lemma word_class_char c : word_class c = true ↔ word_char c.
Proof.
  unfold word_class, word_char.
  by rewrite orb_true_iff, alnum_class_char, Ascii.eqb_eq.
Qed.

Lemma digit_class_char c : digit_class c = true ↔ digit_char c.
Proof.
  unfold digit_class, digit_char. cbv zeta.
  by rewrite andb_true_iff, !N.leb_le.
Qed.

Lemma prefix_char_token c : prefix_char c → token_char c.
Proof.
  unfold prefix_char, token_char, alnum_char. cbv zeta.
  intros [?|Hin]; [tauto | ]. do 3 right.
  repeat (apply elem_of_cons in Hin as [->|Hin]; [set_solver | ]).
  by apply elem_of_nil in Hin.
Qed.

Lemma chars_nil s : chars s = [] → s = "".
Proof. by destruct s. Qed.

Lemma any_disallowed_line_feed s :
  Py.any disallowed (s +:+ String LF "") = true.
Proof.
  destruct (Py.any disallowed (s +:+ String LF "")) eqn:H; [done | ].
  apply any_false in H. rewrite chars_app, Forall_app in H.
  destruct H as [_ [H _]%Forall_cons]. by vm_compute in H.
Qed.

Lemma is_safe_snapshot_prefix_iff s :
  is_safe_snapshot_prefix s = true ↔ s ≠ "" ∧ Forall prefix_char (chars s).
Proof.
  unfold is_safe_snapshot_prefix, _SAFE_PREFIX_RE_match.
  destruct s as [|a s]; [by intuition | ]. cbn [Py.nonempty negb].
  destruct (Py.any disallowed (String a s)) eqn:Hany.
  - split; [done | ]. intros [_ Hs].
    assert (Py.any disallowed (String a s) = false); [ | congruence].
    apply any_false. eapply Forall_impl; [exact Hs | ].
    intros c Hc%prefix_char_token%token_class_char.
    by apply token_class_allowed.
  - rewrite re_class_plus_end_iff. split.
    + intros (body & Hne & Hbody & [<-|Heq]).
      * split; [done | ]. eapply Forall_impl; [exact Hbody | ].
        intros c. apply prefix_class_char.
      * rewrite Heq, any_disallowed_line_feed in Hany. done.
    + intros [_ Hs]. exists (String a s). split_and!; [done | | by left].
      eapply Forall_impl; [exact Hs | ]. intros c. apply prefix_class_char.
Qed.

(** X1. [is_safe_snapshot_prefix] accepts exactly the non-empty strings made
    of letters, digits and [. _ -]; every prefix it accepts is also a valid
    ZFS token. *)
Theorem safe_snapshot_prefix_grammar s :
  (is_safe_snapshot_prefix s = true ↔ s ≠ "" ∧ Forall prefix_char (chars s))
  ∧ (is_safe_snapshot_prefix s = true → is_safe_zfs_token s = true).
Proof.
  split; [apply is_safe_snapshot_prefix_iff | ].
  intros [Hne Hs]%is_safe_snapshot_prefix_iff.
  apply is_safe_zfs_token_iff. split; [done | ].
  eapply Forall_impl; [exact Hs | ]. apply prefix_char_token.
Qed.

Lemma chars_inj s1 s2 : chars s1 = chars s2 → s1 = s2.
Proof.
  revert s2. induction s1 as [|a s1 IH]; intros [|b s2]; simpl; try done.
  intros [= -> H]. by rewrite (IH _ H).
Qed.

Lemma word_char_not_slash_or_dot c :
  word_char c → c ≠ "/"%char ∧ c ≠ "."%char ∧ c ≠ LF.
Proof.
  intros Hc%word_class_char. revert Hc.
  destruct c as [[] [] [] [] [] [] [] []]; vm_compute; intuition congruence.
Qed.

Lemma arc_param_match_inv v :
  _SAFE_ARC_PARAM_RE_match v = true →
  ∃ rest, v = String "z" (String "f" (String "s" (String "_" rest)))
          ∧ re_class_plus_end word_class rest = true.
Proof.
  unfold _SAFE_ARC_PARAM_RE_match. intros Hm.
  destruct v as [|c0 v]; [done | ].
  destruct (Ascii.eqb_spec c0 "z") as [->|Hne];
    [ | exfalso; revert Hm Hne;
        destruct c0 as [[] [] [] [] [] [] [] []]; simpl; congruence ].
  destruct v as [|c1 v]; [done | ].
  destruct (Ascii.eqb_spec c1 "f") as [->|Hne];
    [ | exfalso; revert Hm Hne;
        destruct c1 as [[] [] [] [] [] [] [] []]; simpl; congruence ].
  destruct v as [|c2 v]; [done | ].
  destruct (Ascii.eqb_spec c2 "s") as [->|Hne];
    [ | exfalso; revert Hm Hne;
        destruct c2 as [[] [] [] [] [] [] [] []]; simpl; congruence ].
  destruct v as [|c3 v]; [done | ].
  destruct (Ascii.eqb_spec c3 "_") as [->|Hne];
    [ | exfalso; revert Hm Hne;
        destruct c3 as [[] [] [] [] [] [] [] []]; simpl; congruence ].
  by exists v.
Qed.

Lemma is_safe_arc_parameter_spec v :
  (is_safe_arc_parameter v = true ↔
     ∃ w, w ≠ "" ∧ Forall word_char (chars w)
          ∧ (v = "zfs_" +:+ w ∨ v = "zfs_" +:+ w +:+ String LF ""))
  ∧ (is_safe_arc_parameter v = true →
     "/"%char ∉ chars v ∧ "."%char ∉ chars v).
Proof.
  assert (is_safe_arc_parameter v = true ↔
     ∃ w, w ≠ "" ∧ Forall word_char (chars w)
          ∧ (v = "zfs_" +:+ w ∨ v = "zfs_" +:+ w +:+ String LF "")) as Hiff.
  { unfold is_safe_arc_parameter. split.
    - intros [_ Hm]%andb_true_iff.
      apply arc_param_match_inv in Hm as (rest & -> & Hm).
      apply re_class_plus_end_iff in Hm as (body & Hne & Hbody & Heq).
      exists body. split_and!; [done | | ].
      + eapply Forall_impl; [exact Hbody | ]. intros c. apply word_class_char.
      + destruct Heq as [->| ->]; [by left | by right].
    - unfold _SAFE_ARC_PARAM_RE_match. intros (w & Hne & Hw & [-> | ->]).
      + change (re_class_plus_end word_class w = true).
        apply re_class_plus_end_iff. exists w. split_and!; [done | | by left].
        eapply Forall_impl; [exact Hw | ]. intros c. apply word_class_char.
      + change (re_class_plus_end word_class (w +:+ String LF "") = true).
        apply re_class_plus_end_iff. exists w. split_and!; [done | | by right].
        eapply Forall_impl; [exact Hw | ]. intros c. apply word_class_char. }
  split; [done | ].
  intros (w & _ & Hw & Hv)%Hiff.
  assert (∀ c, c ∈ chars v → c ∈ [ "z"; "f"; "s"; "_"; LF ]%char ∨ word_char c)
    as Hchars.
  { intros c Hc. destruct Hv as [-> | ->].
    - change ("zfs_" +:+ w) with (String "z" (String "f" (String "s" (String "_" w)))) in Hc.
      simpl in Hc. rewrite Forall_forall in Hw.
      repeat (apply elem_of_cons in Hc as [->|Hc]; [left; set_solver | ]).
      right. by apply Hw.
    - change ("zfs_" +:+ w +:+ String LF "")
        with (String "z" (String "f" (String "s" (String "_" (w +:+ String LF ""))))) in Hc.
      simpl in Hc. rewrite Forall_forall in Hw.
      repeat (apply elem_of_cons in Hc as [->|Hc]; [left; set_solver | ]).
      rewrite chars_app in Hc. apply elem_of_app in Hc as [Hc|Hc].
      + right. by apply Hw.
      + left. simpl in Hc. set_solver. }
  split.
  - intros [Hin|Hin%word_char_not_slash_or_dot]%Hchars; [ | by destruct Hin].
    repeat (apply elem_of_cons in Hin as [Hin|Hin]; [by vm_compute in Hin | ]).
    by apply elem_of_nil in Hin.
  - intros [Hin|Hin%word_char_not_slash_or_dot]%Hchars;
      [ | by destruct Hin as (_ & ? & _)].
    repeat (apply elem_of_cons in Hin as [Hin|Hin]; [by vm_compute in Hin | ]).
    by apply elem_of_nil in Hin.
Qed.

(** X2. [is_safe_arc_parameter] accepts exactly [zfs_] followed by one or
    more letters, digits or underscores, and the same followed by one line
    feed: the [$] of its pattern also matches before a final line feed, and
    this validator does not reject line feeds first. A name it accepts has no
    slash and no dot. *)
Theorem safe_arc_parameter_grammar v :
  (is_safe_arc_parameter v = true ↔
     ∃ w, w ≠ "" ∧ Forall word_char (chars w)
          ∧ (v = "zfs_" +:+ w ∨ v = "zfs_" +:+ w +:+ String LF ""))
  ∧ (is_safe_arc_parameter v = true →
     "/"%char ∉ chars v ∧ "."%char ∉ chars v).
Proof. apply is_safe_arc_parameter_spec. Qed.


Lemma rstrip_last s : ∀ s' c,
  Py.rstrip s = s' +:+ String c "" → Py.isspace c = false.
Proof.
  induction s as [|a s IH]; intros s' c; simpl.
  - by destruct s'.
  - destruct (Py.rstrip s) as [|b r] eqn:Hr.
    + destruct (Py.isspace a) eqn:Ha; [by destruct s' | ].
      destruct s' as [|a' s']; [by intros [= <-] | ].
      intros [= _ Heq]. by destruct s'.
    + destruct s' as [|a' s']; [done | ].
      intros [= _ Heq]. by apply (IH s' c).
Qed.

Lemma strip_last v s' c : Py.strip v = s' +:+ String c "" → Py.isspace c = false.
Proof. apply rstrip_last. Qed.

Lemma int_re_match_eq t :
  _SAFE_INT_RE_match t
  = match t with
    | EmptyString => false
    | String c rest =>
        if Ascii.eqb c "-" then re_class_plus_end digit_class rest
        else re_class_plus_end digit_class t
    end.
Proof.
  destruct t as [|c rest]; [done | ].
  by destruct c as [[] [] [] [] [] [] [] []].
Qed.

Lemma digits_decimal d :
  d ≠ "" → Forall (λ c, digit_class c = true) (chars d) →
  d ≠ "" ∧ Forall digit_char (chars d).
Proof.
  intros Hne Hd. split; [done | ].
  eapply Forall_impl; [exact Hd | ]. intros c. apply digit_class_char.
Qed.

Lemma is_safe_integer_spec v :
  is_safe_integer v = true ↔ decimal (Py.strip v).
Proof.
  unfold is_safe_integer. rewrite andb_true_iff, int_re_match_eq. split.
  - intros [_ Hm]. destruct (Py.strip v) as [|c rest] eqn:Ht; [done | ].
    destruct (Ascii.eqb_spec c "-") as [->|Hne].
    + apply re_class_plus_end_iff in Hm as (body & Hb & Hd & [->|Heq]).
      * exists body. destruct (digits_decimal body Hb Hd). by split_and!; [ | | right].
      * subst rest.
        assert (Py.isspace LF = false) as Hsp; [ | by vm_compute in Hsp].
        by apply (strip_last v (String "-" body) LF).
    + apply re_class_plus_end_iff in Hm as (body & Hb & Hd & [<-|Heq]).
      * exists (String c rest).
        destruct (digits_decimal (String c rest) Hb Hd). by split_and!; [ | | left].
      * assert (Py.isspace LF = false) as Hsp; [ | by vm_compute in Hsp].
        apply (strip_last v body LF). by rewrite Ht.
  - intros (d & Hne & Hd & Heq).
    assert (Forall (λ c, digit_class c = true) (chars d)) as Hd'.
    { eapply Forall_impl; [exact Hd | ]. intros c. apply digit_class_char. }
    split.
    + destruct v; [ | done]. destruct Heq as [Heq|Heq]; [ | done].
      by destruct d.
    + destruct Heq as [-> | ->].
      * destruct d as [|c d]; [done | ].
        destruct (Ascii.eqb_spec c "-") as [->|_].
        -- apply Forall_cons in Hd' as [Hc _]. by vm_compute in Hc.
        -- apply re_class_plus_end_iff. exists (String c d). by split_and!; [ | | left].
      * rewrite Ascii.eqb_refl. apply re_class_plus_end_iff.
        exists d. by split_and!; [ | | left].
Qed.

(** X3. [is_safe_integer] accepts a value exactly when the value without its
    surrounding whitespace is a decimal integer: one or more digits after an
    optional minus sign. *)
Theorem safe_integer_grammar v :
  is_safe_integer v = true ↔ decimal (Py.strip v).
Proof. apply is_safe_integer_spec. Qed.


Example safe_integer_examples :
  is_safe_integer " 1073741824 " = true
  ∧ is_safe_integer "-1" = true
  ∧ is_safe_integer "1 2" = false
  ∧ is_safe_integer "0x10" = false
  ∧ is_safe_integer "" = false.
Proof. by vm_compute. Qed.

(** ** The session cache *)

(** The world after one more process has been started. *)
Lemma subprocess_world env site argv w :
  subprocess env site argv w
  = (spawn env (length (trace w)) argv,
     {| privilege_manager := privilege_manager w; time_reads := time_reads w;
        now_reads := now_reads w; trace := trace w ++ [ Spawned site argv ] |}).
Proof. reflexivity. Qed.

Lemma run_privileged_command_root env w command :
  geteuid env = 0 →
  run_privileged_command env command w
  = (command_result env command (spawn env (length (trace w)) command),
     {| privilege_manager := privilege_manager w; time_reads := time_reads w;
        now_reads := now_reads w;
        trace := trace w ++ [ Spawned PrivCmd command ] |}).
Proof. intros Hroot. unfold run_privileged_command. by rewrite Hroot. Qed.

Lemma run_privileged_command_cached env w command :
  geteuid env ≠ 0 →
  Qltb (time_time env (time_reads w) - _auth_cache_time (privilege_manager w))
       (_auth_cache_duration (privilege_manager w)) = true →
  run_privileged_command env command w
  = (command_result env ("pkexec" :: command)
       (spawn env (length (trace w)) ("pkexec" :: command)),
     {| privilege_manager := privilege_manager w;
        time_reads := S (time_reads w); now_reads := now_reads w;
        trace := trace w ++ [ Spawned PrivCmd ("pkexec" :: command) ] |}).
Proof.
  intros Hroot%Z.eqb_neq Hcached.
  unfold run_privileged_command, _is_auth_cached. rewrite Hroot. run.
  cbn [privilege_manager time_reads trace]. by rewrite Hcached.
Qed.

Lemma run_privileged_command_renewed env w command :
  geteuid env ≠ 0 →
  Qltb (time_time env (time_reads w) - _auth_cache_time (privilege_manager w))
       (_auth_cache_duration (privilege_manager w)) = false →
  succeeded (spawn env (length (trace w)) [ "pkexec"; "true" ]) →
  run_privileged_command env command w
  = (command_result env ("pkexec" :: command)
       (spawn env (S (length (trace w))) ("pkexec" :: command)),
     {| privilege_manager :=
          {| _auth_cache_time := time_time env (S (time_reads w));
             _auth_cache_duration := _auth_cache_duration (privilege_manager w);
             _session_active := true;
             _initial_auth_completed := true |};
        time_reads := S (S (time_reads w)); now_reads := now_reads w;
        trace := trace w ++ [ Spawned AuthProbe [ "pkexec"; "true" ];
                              Spawned PrivCmd ("pkexec" :: command) ] |}).
Proof.
  intros Hroot%Z.eqb_neq Hexp Hprobe.
  unfold run_privileged_command, _is_auth_cached, _refresh_auth_cache.
  rewrite Hroot. run. cbn [privilege_manager time_reads trace].
  rewrite Hexp. cbn [privilege_manager time_reads trace].
  destruct (spawn env (length (trace w)) [ "pkexec"; "true" ])
    as [[| |] out err| |]; try done.
  cbn [privilege_manager time_reads trace now_reads].
  rewrite <- app_assoc, length_app. simpl. by rewrite Nat.add_1_r.
Qed.

(** X4. A privileged call by root runs the command directly: no clock is
    read and nothing is authenticated, whatever the state of the cache. A
    call by another user while the cache is valid
    ([now - authenticatedAt < cacheDuration]) runs the command under [pkexec]
    without an authentication probe. In both cases the session cache is left
    as it is. *)
Theorem privileged_call_without_prompt env w command :
  let result := run_privileged_command env command w in
  (geteuid env = 0 →
     trace result.2 = trace w ++ [ Spawned PrivCmd command ]
     ∧ time_reads result.2 = time_reads w
     ∧ privilege_manager result.2 = privilege_manager w
     ∧ result.1 = command_result env command
                    (spawn env (length (trace w)) command))
  ∧ (geteuid env ≠ 0 →
     (time_time env (time_reads w) - _auth_cache_time (privilege_manager w)
      < _auth_cache_duration (privilege_manager w))%Q →
     trace result.2 = trace w ++ [ Spawned PrivCmd ("pkexec" :: command) ]
     ∧ privilege_manager result.2 = privilege_manager w
     ∧ result.1 = command_result env ("pkexec" :: command)
                    (spawn env (length (trace w)) ("pkexec" :: command))).
Proof.
  cbv zeta. split.
  - intros Hroot. by rewrite run_privileged_command_root.
  - intros Hroot Hlt%Qltb_true. by rewrite run_privileged_command_cached.
Qed.

Lemma privileged_call_without_prompt_witness :
  let env := example_env 1000 all_succeed elements in
  let w := {| privilege_manager :=
                {| _auth_cache_time := 1500; _auth_cache_duration := 900;
                   _session_active := true; _initial_auth_completed := true |};
              time_reads := 0; now_reads := 0; trace := [] |} in
  trace (run_privileged_command env [ "zfs"; "snapshot"; "tank@a" ] w).2
  = [ Spawned PrivCmd [ "pkexec"; "zfs"; "snapshot"; "tank@a" ] ].
Proof.
  intros env w.
  destruct (privileged_call_without_prompt env w [ "zfs"; "snapshot"; "tank@a" ])
    as [_ Hcached].
  destruct Hcached as (Htrace & _); [done | by vm_compute | exact Htrace].
Defined.

(** X5. One prompt serves later calls. When a call by a user who is not root
    finds the cache expired and the authentication probe succeeds, a second
    call whose clock reading is less than [cacheDuration] after the time of
    authentication starts its command only: no second probe. *)
Theorem one_prompt_serves_later_calls env w first second :
  geteuid env ≠ 0 →
  (_auth_cache_duration (privilege_manager w)
   <= time_time env (time_reads w) - _auth_cache_time (privilege_manager w))%Q →
  succeeded (spawn env (length (trace w)) [ "pkexec"; "true" ]) →
  (time_time env (S (S (time_reads w))) - time_time env (S (time_reads w))
   < _auth_cache_duration (privilege_manager w))%Q →
  let w1 := (run_privileged_command env first w).2 in
  let w2 := (run_privileged_command env second w1).2 in
  trace w2 = trace w ++ [ Spawned AuthProbe [ "pkexec"; "true" ];
                          Spawned PrivCmd ("pkexec" :: first);
                          Spawned PrivCmd ("pkexec" :: second) ]
  ∧ privilege_manager w2 = privilege_manager w1.
Proof.
  intros Hroot Hexp%Qltb_false Hprobe Hlt%Qltb_true. cbv zeta.
  rewrite (run_privileged_command_renewed env w first Hroot Hexp Hprobe).
  cbn [snd]. rewrite run_privileged_command_cached; [ | done | done].
  cbn [snd trace privilege_manager]. by rewrite <- app_assoc.
Qed.

Lemma one_prompt_serves_later_calls_witness :
  let env := example_env 1000 all_succeed elements in
  let w1 := (run_privileged_command env [ "zfs"; "snapshot"; "tank@a" ]
               World_init).2 in
  let w2 := (run_privileged_command env [ "zfs"; "snapshot"; "tank@b" ] w1).2 in
  trace w2 = [ Spawned AuthProbe [ "pkexec"; "true" ];
               Spawned PrivCmd [ "pkexec"; "zfs"; "snapshot"; "tank@a" ];
               Spawned PrivCmd [ "pkexec"; "zfs"; "snapshot"; "tank@b" ] ].
Proof.
  intros env w1 w2.
  destruct (one_prompt_serves_later_calls env World_init
              [ "zfs"; "snapshot"; "tank@a" ] [ "zfs"; "snapshot"; "tank@b" ])
    as [Htrace _]; [done | by vm_compute | done | by vm_compute | exact Htrace].
Defined.

Lemma Qltb_lt x y : Qltb x y = true ↔ (x < y)%Q.
Proof.
  split; [ | apply Qltb_true].
  unfold Qltb. destruct (Qle_bool y x) eqn:Hle; [done | ]. intros _.
  apply Qnot_le_lt. intros H%Qle_bool_iff. congruence.
Qed.

Lemma run_privileged_command_expired_first env w command :
  geteuid env ≠ 0 →
  Qltb (time_time env (time_reads w) - _auth_cache_time (privilege_manager w))
       (_auth_cache_duration (privilege_manager w)) = false →
  ∃ later, trace (run_privileged_command env command w).2
           = trace w ++ Spawned AuthProbe [ "pkexec"; "true" ] :: later.
Proof.
  intros Hroot%Z.eqb_neq Hexp.
  unfold run_privileged_command, _is_auth_cached, _refresh_auth_cache.
  rewrite Hroot. run. cbn [privilege_manager time_reads trace].
  rewrite Hexp. cbn [privilege_manager time_reads trace].
  destruct (spawn env (length (trace w)) [ "pkexec"; "true" ])
    as [[| |] out err| |]; cbn [snd trace];
    rewrite <- ?app_assoc; by eexists.
Qed.

(** X6. [cleanup_session] ends the session: afterwards [is_authenticated]
    answers no and [get_session_remaining_time] answers 0, both without
    reading the clock; no process is started; and the next privileged call of
    a user who is not root, at any clock reading of at least [cacheDuration]
    seconds, starts with the authentication probe. *)
Theorem cleanup_session_ends_the_session env w command :
  let w' := (cleanup_session w).2 in
  is_authenticated env w' = (false, w')
  ∧ get_session_remaining_time env w' = (0, w')
  ∧ trace w' = trace w
  ∧ _auth_cache_duration (privilege_manager w')
    = _auth_cache_duration (privilege_manager w)
  ∧ (geteuid env ≠ 0 →
     (_auth_cache_duration (privilege_manager w)
      <= time_time env (time_reads w))%Q →
     ∃ later, trace (run_privileged_command env command w').2
              = trace w ++ Spawned AuthProbe [ "pkexec"; "true" ] :: later).
Proof.
  cbv zeta. split_and!; try done.
  intros Hroot Hclock.
  apply (run_privileged_command_expired_first env (cleanup_session w).2 command
           Hroot).
  apply Qltb_false. cbn. unfold Qminus. by rewrite Qplus_0_r.
Qed.

Lemma cleanup_session_ends_the_session_witness :
  let env := example_env 1000 all_succeed elements in
  let w := {| privilege_manager :=
                {| _auth_cache_time := 1999; _auth_cache_duration := 900;
                   _session_active := true; _initial_auth_completed := true |};
              time_reads := 0; now_reads := 0; trace := [] |} in
  ∃ later, trace (run_privileged_command env [ "true" ] (cleanup_session w).2).2
           = Spawned AuthProbe [ "pkexec"; "true" ] :: later.
Proof.
  intros env w.
  destruct (cleanup_session_ends_the_session env w [ "true" ])
    as (_ & _ & _ & _ & Hnext).
  apply Hnext; [done | by vm_compute].
Defined.

Lemma max_0_nonneg x : (0 <= max_0 x)%Q.
Proof.
  unfold max_0. destruct (Qltb 0 x) eqn:H; [ | apply Qle_refl].
  by apply Qltb_lt, Qlt_le_weak in H.
Qed.

Lemma py_int_nonneg x : (0 <= x)%Q → py_int x = Qfloor x ∧ 0 ≤ Qfloor x.
Proof.
  intros Hx. unfold py_int. apply Qle_bool_iff in Hx as Hb. rewrite Hb.
  split; [done | ]. by apply (Qfloor_resp_le 0 x) in Hx.
Qed.

(** X7. [get_session_remaining_time] is never negative and is 0, without a
    look at the clock, when the session is not active. When it answers a
    positive number [r] of seconds, the cache is valid at that clock reading
    and stays valid for [r] more seconds:
    [now - authenticatedAt + r <= cacheDuration]. *)
Theorem session_remaining_time_bounds env w :
  let r := (get_session_remaining_time env w).1 in
  let elapsed :=
    (time_time env (time_reads w) - _auth_cache_time (privilege_manager w))%Q in
  0 ≤ r
  ∧ (_session_active (privilege_manager w) = false →
     get_session_remaining_time env w = (0, w))
  ∧ (0 < r →
     _session_active (privilege_manager w) = true
     ∧ (elapsed + inject_Z r <= _auth_cache_duration (privilege_manager w))%Q
     ∧ (elapsed < _auth_cache_duration (privilege_manager w))%Q).
Proof.
  cbv zeta. unfold get_session_remaining_time. run.
  destruct (_session_active (privilege_manager w)) eqn:Hactive;
    cbn [negb fst snd]; [ | done].
  set (elapsed := (time_time env (time_reads w)
                   - _auth_cache_time (privilege_manager w))%Q).
  set (dur := _auth_cache_duration (privilege_manager w)).
  destruct (py_int_nonneg _ (max_0_nonneg (dur - elapsed))) as [-> Hge].
  split_and!; [done | done | ]. intros Hpos. split; [done | ].
  assert (inject_Z (Qfloor (max_0 (dur - elapsed))) <= dur - elapsed)%Q as Hle.
  { pose proof (Qfloor_le (max_0 (dur - elapsed))) as Hfl.
    unfold max_0 in *. destruct (Qltb 0 (dur - elapsed)) eqn:Hlt; [done | ].
    change (Qfloor 0) with 0 in Hpos. lia. }
  assert (1 <= inject_Z (Qfloor (max_0 (dur - elapsed))))%Q as Hone.
  { change 1%Q with (inject_Z 1). rewrite <- Zle_Qle. lia. }
  split; lra.
Qed.

Lemma session_remaining_time_bounds_witness :
  let env := example_env 1000 all_succeed elements in
  let w := {| privilege_manager :=
                {| _auth_cache_time := 1500; _auth_cache_duration := 900;
                   _session_active := true; _initial_auth_completed := true |};
              time_reads := 0; now_reads := 0; trace := [] |} in
  (time_time env 0 - 1500 < 900)%Q.
Proof.
  intros env w.
  destruct (session_remaining_time_bounds env w) as (_ & _ & Hpos).
  destruct Hpos as (_ & _ & Hvalid); [by vm_compute | exact Hvalid].
Defined.

(** ** One elevation for a batch *)

(** X8. A batch submitted by a user who is not root costs one elevation,
    however many commands it holds: the processes started are the
    authentication probe, only if the cache has expired, and then at most one
    process, [pkexec bash] on the staged script that holds all the commands.
    When the authentication fails, or the script cannot be staged, no command
    is run at all. *)
Theorem batch_single_elevation env w commands :
  geteuid env ≠ 0 → commands ≠ [] →
  let probe := [ "pkexec"; "true" ] in
  let cached :=
    Qltb (time_time env (time_reads w) - _auth_cache_time (privilege_manager w))
         (_auth_cache_duration (privilege_manager w)) in
  let authenticated :=
    cached || bool_decide (succeeded (spawn env (length (trace w)) probe)) in
  let script := Py.join (String LF "") (script_lines commands) in
  let result := run_batch_privileged_commands env commands w in
  trace result.2
  = trace w
    ++ (if cached then [] else [ Spawned AuthProbe probe ])
    ++ (if authenticated
        then match stage_script env script with
             | inl path => [ Spawned BatchScript [ "pkexec"; "bash"; path ] ]
             | inr _ => []
             end
        else [])
  ∧ (authenticated = false → result.1 = (false, AUTH_FAILED))
  ∧ (length (trace result.2) ≤ length (trace w) + 2)%nat.
Proof.
  intros Hroot%Z.eqb_neq Hne. cbv zeta.
  unfold run_batch_privileged_commands. rewrite Hroot.
  destruct commands as [|c0 commands0]; [done | ].
  set (commands := c0 :: commands0). cbv iota.
  unfold _is_auth_cached, _refresh_auth_cache. run.
  cbn [privilege_manager time_reads trace].
  destruct (Qltb _ _) eqn:Hcached; cbn [orb].
  - destruct (stage_script env _) as [path|msg]; run; cbn [fst snd trace];
      rewrite ?app_nil_r, ?length_app; simpl; split_and!; (done || lia).
  - cbn [privilege_manager time_reads trace].
    destruct (spawn env (length (trace w)) [ "pkexec"; "true" ])
      as [[| |] out err| |]; cbn [bool_decide decide_rel succeeded_dec];
      simpl; try (rewrite ?length_app; simpl; split_and!; (done || lia)).
    destruct (stage_script env _) as [path|msg]; run; cbn [fst snd trace];
      rewrite <- ?app_assoc, ?length_app; simpl; split_and!; (done || lia).
Qed.

Lemma batch_single_elevation_witness :
  let commands := [ [ "zfs"; "destroy"; "tank@a" ];
                    [ "zfs"; "destroy"; "tank@b" ];
                    [ "zfs"; "destroy"; "tank@c" ] ] in
  let result := run_batch_privileged_commands
                  (example_env 1000 all_succeed elements) commands World_init in
  (length (trace result.2) ≤ 2)%nat.
Proof.
  intros commands result.
  destruct (batch_single_elevation (example_env 1000 all_succeed elements)
              World_init commands) as (_ & _ & Hlen); [done | done | exact Hlen].
Defined.

(** ** The batch script *)

Lemma append_cons c s t : String c s +:+ t = String c (s +:+ t).
Proof. reflexivity. Qed.

Lemma append_nil_r s : s +:+ "" = s.
Proof.
  induction s as [|c s IH]; [done | ]. by rewrite append_cons, IH.
Qed.

Lemma replace_absent old new s :
  Py.contains old s = false → Py.replace old new s = s.
Proof.
  induction s as [|c s IH]; simpl; [done | ].
  destruct (Ascii.eqb c old); [done | ]. intros H. by rewrite (IH H).
Qed.

Lemma escape_arg_quoted arg :
  escape_arg arg
  = String SQUOTE (Py.replace SQUOTE QUOTE_ESCAPE arg +:+ String SQUOTE "").
Proof.
  unfold escape_arg. destruct (Py.contains SQUOTE arg) eqn:Hq; [done | ].
  by rewrite (replace_absent _ _ _ Hq).
Qed.

Lemma single_close word words rest :
  sh_script_from Single word words (String SQUOTE rest)
  = sh_script_from Bare word words rest.
Proof. reflexivity. Qed.

Lemma single_keep c word words rest :
  c ≠ SQUOTE →
  sh_script_from Single word words (String c rest)
  = sh_script_from Single (word +:+ String c "") words rest.
Proof. intros Hne%Ascii.eqb_neq. simpl. by rewrite Hne. Qed.

Lemma single_escape word words rest :
  sh_script_from Single word words (QUOTE_ESCAPE +:+ rest)
  = sh_script_from Single (word +:+ String SQUOTE "") words rest.
Proof. reflexivity. Qed.

Lemma blank_open words rest :
  sh_script_from Blank "" words (String SQUOTE rest)
  = sh_script_from Single "" words rest.
Proof. reflexivity. Qed.

Lemma bare_blank word words rest :
  sh_script_from Bare word words (String " " rest)
  = sh_script_from Blank "" (words ++ [ word ]) rest.
Proof. reflexivity. Qed.

Lemma bare_line_feed word words rest :
  sh_script_from Bare word words (String LF rest)
  = cons (words ++ [ word ]) <$> sh_script_from Blank "" [] rest.
Proof. reflexivity. Qed.

Lemma blank_line_feed words rest :
  sh_script_from Blank "" words (String LF rest)
  = end_command words <$> sh_script_from Blank "" [] rest.
Proof. reflexivity. Qed.

(** Inside single quotes, the escaped text of an argument followed by the
    closing quote is read as the argument itself. *)
Lemma single_quoted_body arg : ∀ word words rest,
  sh_script_from Single word words
    (Py.replace SQUOTE QUOTE_ESCAPE arg +:+ String SQUOTE rest)
  = sh_script_from Bare (word +:+ arg) words rest.
Proof.
  induction arg as [|c arg IH]; intros word words rest.
  - rewrite append_nil_r. apply single_close.
  - cbn [Py.replace]. destruct (Ascii.eqb_spec c SQUOTE) as [->|Hne].
    + rewrite append_assoc, single_escape, IH. by rewrite append_assoc.
    + rewrite append_cons, (single_keep _ _ _ _ Hne), IH.
      by rewrite append_assoc.
Qed.

Lemma end_command_app words command commands :
  command ≠ [] →
  end_command (words ++ command) commands = (words ++ command) :: commands.
Proof. intros Hne. destruct words; [by destruct command | done]. Qed.

Lemma escaped_arg_read arg words rest :
  sh_script_from Blank "" words (escape_arg arg +:+ rest)
  = sh_script_from Bare arg words rest.
Proof.
  rewrite escape_arg_quoted, append_cons, blank_open, append_assoc, append_cons.
  change ("" +:+ rest) with rest. by rewrite single_quoted_body.
Qed.

(** The line of a command, read after the words [words] of the same line. *)
Lemma command_line_read command : ∀ words rest,
  sh_script_from Blank "" words (command_line command +:+ String LF rest)
  = end_command (words ++ command) <$> sh_script_from Blank "" [] rest.
Proof.
  unfold command_line.
  induction command as [|x [|y command] IH]; intros words rest.
  - rewrite app_nil_r. apply blank_line_feed.
  - cbn [map Py.join]. rewrite escaped_arg_read, bare_line_feed.
    destruct (sh_script_from Blank "" [] rest) as [commands| ]; [ | done].
    simpl. by rewrite end_command_app.
  - cbn [map Py.join] in *.
    rewrite append_assoc, escaped_arg_read, append_assoc.
    change (" " +:+ ?z) with (String " " z). rewrite bare_blank, IH.
    by rewrite <- app_assoc.
Qed.

Lemma contains_join_absent c sep l :
  Py.contains c sep = false →
  Forall (λ arg, Py.contains c arg = false) l →
  Py.contains c (Py.join sep l) = false.
Proof.
  intros Hsep. induction l as [|x [|y l] IH]; intros Hl; [done | | ].
  - by apply Forall_cons in Hl as [? _].
  - apply Forall_cons in Hl as [Hx Hl]. cbn [Py.join].
    rewrite !contains_app, Hx, Hsep. by apply IH.
Qed.

Lemma echo_open body :
  sh_script_from Blank "" [] ("echo 'Executing: " +:+ body)
  = sh_script_from Single "Executing: " [ "echo" ] body.
Proof. reflexivity. Qed.

(** The line that announces a command without a single quote. *)
Lemma echo_line_read command rest :
  Forall (λ arg, SQUOTE ∉ chars arg) command →
  sh_script_from Blank "" [] (echo_line command +:+ String LF rest)
  = cons [ "echo"; "Executing: " +:+ Py.join " " command ]
      <$> sh_script_from Blank "" [] rest.
Proof.
  intros Hq.
  assert (Py.contains SQUOTE (Py.join " " command) = false) as Hjoin.
  { apply contains_join_absent; [done | ].
    eapply Forall_impl; [exact Hq | ]. intros arg. apply contains_false. }
  unfold echo_line. rewrite !append_assoc, echo_open.
  rewrite <- (replace_absent SQUOTE QUOTE_ESCAPE _ Hjoin) at 1.
  rewrite append_cons. change ("" +:+ ?x) with x.
  rewrite single_quoted_body. by rewrite bare_line_feed.
Qed.

(** The script as one text: the two lines of the header, and for every
    command an empty line, its announcement and its line. *)
Lemma script_text commands :
  Py.join (String LF "") (script_lines commands)
  = "#!/bin/bash" +:+ String LF ("set -e  # Exit on any error" +:+ String LF
      (foldr (λ command text,
                String LF (echo_line command +:+ String LF
                  (command_line command +:+ String LF text)))
             "" commands)).
Proof.
  unfold script_lines.
  assert (∀ cs,
    Py.join (String LF "")
      ("" :: concat (map (λ command,
                       [ "echo 'Executing: " +:+ Py.join " " command +:+ "'";
                         Py.join " " (map escape_arg command); "" ]) cs))
    = foldr (λ command text,
               String LF (echo_line command +:+ String LF
                 (command_line command +:+ String LF text)))
            "" cs) as Hbody.
  { induction cs as [|c cs IH]; [done | ].
    cbn [map concat app foldr]. cbn [map concat app foldr] in IH.
    change (Py.join (String LF "") ("" :: ?e :: ?l :: ?rest))
      with ("" +:+ String LF "" +:+ (e +:+ String LF ""
              +:+ (l +:+ String LF "" +:+ Py.join (String LF "") rest))).
    rewrite IH. reflexivity. }
  cbn [app].
  change (Py.join (String LF "") (?h1 :: ?h2 :: ?rest))
    with (h1 +:+ String LF "" +:+ (h2 +:+ String LF ""
            +:+ Py.join (String LF "") rest)).
  rewrite Hbody. reflexivity.
Qed.

Lemma script_header_read rest :
  sh_script_from Blank "" []
    ("#!/bin/bash" +:+ String LF ("set -e  # Exit on any error" +:+ String LF rest))
  = cons [ "set"; "-e" ] <$> sh_script_from Blank "" [] rest.
Proof.
  transitivity (end_command [] <$> (end_command [ "set"; "-e" ]
                                      <$> sh_script_from Blank "" [] rest));
    [reflexivity | ].
  by destruct (sh_script_from Blank "" [] rest).
Qed.

Lemma script_body_read commands :
  Forall (λ command, Forall (λ arg, SQUOTE ∉ chars arg) command) commands →
  sh_script_from Blank "" []
    (foldr (λ command text,
              String LF (echo_line command +:+ String LF
                (command_line command +:+ String LF text)))
           "" commands)
  = Some (concat (map announced_and_run commands)).
Proof.
  induction 1 as [|c cs Hc _ IH]; [done | ].
  cbn [foldr map concat]. rewrite blank_line_feed.
  rewrite (echo_line_read c _ Hc), command_line_read, IH.
  unfold announced_and_run. by destruct c.
Qed.

(** X9. When no argument of a batch holds a single quote, the shell reads the
    script that [run_batch_privileged_commands] writes as [set -e] and then,
    for every command in order, the announcement of the command and the
    command with exactly its arguments: an argument is one word, whatever
    blanks, line feeds, dollars, backticks, double quotes or backslashes it
    holds. (With a single quote in an argument the announcement, which is not
    escaped, ends its quoted part early.) *)
Theorem script_read_back commands :
  Forall (λ command, Forall (λ arg, SQUOTE ∉ chars arg) command) commands →
  sh_script (Py.join (String LF "") (script_lines commands))
  = Some ([ "set"; "-e" ] :: concat (map announced_and_run commands)).
Proof.
  intros Hq. unfold sh_script.
  rewrite script_text, script_header_read, script_body_read by done.
  reflexivity.
Qed.

Lemma script_read_back_witness :
  sh_script
    (Py.join (String LF "")
       (script_lines
          [ [ "zfs"; "snapshot"; "tank/my data@a b" ];
            [ "rm"; "-f"; "two" +:+ String LF "lines; $(reboot) `x`" ] ]))
  = Some [ [ "set"; "-e" ];
           [ "echo"; "Executing: zfs snapshot tank/my data@a b" ];
           [ "zfs"; "snapshot"; "tank/my data@a b" ];
           [ "echo";
             "Executing: rm -f two" +:+ String LF "lines; $(reboot) `x`" ];
           [ "rm"; "-f"; "two" +:+ String LF "lines; $(reboot) `x`" ] ].
Proof.
  apply (script_read_back
           [ [ "zfs"; "snapshot"; "tank/my data@a b" ];
             [ "rm"; "-f"; "two" +:+ String LF "lines; $(reboot) `x`" ] ]).
  repeat (apply Forall_cons_2;
          [repeat (apply Forall_cons_2; [apply contains_false; reflexivity | ]);
           apply Forall_nil_2 | ]).
  apply Forall_nil_2.
Defined.

(** With a single quote in an argument the command is still run with its
    arguments, but the announcement is cut at the quote: here its second part
    is a word of its own. *)
Example script_read_back_with_quote :
  sh_script (Py.join (String LF "") (script_lines [ [ "touch"; "a' 'b" ] ]))
  = Some [ [ "set"; "-e" ]; [ "echo"; "Executing: touch a"; "b" ];
           [ "touch"; "a' 'b" ] ].
Proof. reflexivity. Qed.

(** ** More on the order of snapshots and on retention *)

Lemma insert_newest_first_filter k x l :
  filter (λ s, sort_key s = k) (insert_newest_first x l)
  = filter (λ s, sort_key s = k) (x :: l).
Proof.
  induction l as [|y l IH]; simpl; [done | ].
  destruct (sort_key y <=? sort_key x)%N eqn:Hle; [done | ].
  apply N.leb_gt in Hle. rewrite (filter_cons _ y), IH, !filter_cons.
  destruct (decide (sort_key y = k)) as [Hy|Hy];
    destruct (decide (sort_key x = k)) as [Hx|Hx]; try done.
  lia.
Qed.

Lemma sorted_newest_first_filter k l :
  filter (λ s, sort_key s = k) (sorted_newest_first l)
  = filter (λ s, sort_key s = k) l.
Proof.
  induction l as [|x l IH]; [done | ]. simpl.
  by rewrite insert_newest_first_filter, !filter_cons, IH.
Qed.

(** X11. The sort of [cleanup_snapshots] and [perform_backup] is stable:
    snapshots of equal key (equal creation time, or no parsed creation time)
    keep the order of the listing. So the snapshot [perform_backup] takes as
    the newest has the greatest key of the listing and is, among the
    snapshots of that key, the first of the listing. *)
Theorem newest_first_is_stable snapshots :
  (∀ k, filter (λ s, sort_key s = k) (sorted_newest_first snapshots)
        = filter (λ s, sort_key s = k) snapshots)
  ∧ ∀ latest, head (sorted_newest_first snapshots) = Some latest →
      (∀ s, s ∈ snapshots → (sort_key s ≤ sort_key latest)%N)
      ∧ head (filter (λ s, sort_key s = sort_key latest) snapshots)
        = Some latest.
Proof.
  split; [intros k; apply sorted_newest_first_filter | ].
  intros latest Hhead.
  pose proof (sorted_newest_first_sorted snapshots) as Hsorted.
  pose proof (sorted_newest_first_perm snapshots) as Hperm.
  pose proof (sorted_newest_first_filter (sort_key latest) snapshots) as Hstable.
  destruct (sorted_newest_first snapshots) as [|l rest]; [done | ].
  injection Hhead as ->. split.
  - intros s Hs. rewrite <- Hperm in Hs.
    apply StronglySorted_inv in Hsorted as [_ Hall].
    apply elem_of_cons in Hs as [->|Hs]; [done | ].
    rewrite Forall_forall in Hall. by apply Hall.
  - rewrite <- Hstable, filter_cons. by rewrite decide_True.
Qed.

Lemma newest_first_is_stable_witness :
  let early := {| name := "early"; creation_date := Parsed 10;
                  dataset := "tank"; used := "0B"; referenced := "1G" |} in
  let first := {| name := "first"; creation_date := Parsed 30;
                  dataset := "tank"; used := "0B"; referenced := "1G" |} in
  let second := {| name := "second"; creation_date := Parsed 30;
                   dataset := "tank"; used := "0B"; referenced := "1G" |} in
  head (filter (λ s, sort_key s = sort_key first) [ early; first; second ])
  = Some first.
Proof.
  intros early first second.
  destruct (newest_first_is_stable [ early; first; second ]) as [_ Hnewest].
  by destruct (Hnewest first eq_refl) as [_ Hfirst].
Defined.

Lemma mark_for_deletion_all env keep_count max_age_days : ∀ rest i acc w,
  keep_count ≤ 0 →
  (mark_for_deletion env keep_count max_age_days i rest acc w).1 = acc ++ rest.
Proof.
  induction rest as [|s rest IH]; intros i acc w Hkeep; simpl.
  - unfold ret. simpl. by rewrite app_nil_r.
  - run. rewrite bool_decide_true by lia.
    destruct (creation_date s) as [t|raw]; run.
    + destruct (bool_decide _); rewrite IH by done; by rewrite <- app_assoc.
    + rewrite IH by done. by rewrite <- app_assoc.
Qed.

(** X12. Retention leaves at most [keep_count] snapshots unmarked, whatever
    their ages; and with a [keep_count] of zero or less it marks every
    snapshot of the dataset, the newest included. *)
Theorem retention_keeps_at_most_keep_count env w sorted_snapshots
    keep_count max_age_days :
  let snapshots_to_delete :=
    (mark_for_deletion env keep_count max_age_days 0 sorted_snapshots [] w).1 in
  (length sorted_snapshots - length snapshots_to_delete ≤ Z.to_nat keep_count)%nat
  ∧ (keep_count ≤ 0 → snapshots_to_delete = sorted_snapshots).
Proof.
  cbv zeta. split; [ | intros Hkeep; by rewrite mark_for_deletion_all].
  destruct (mark_for_deletion_spec env keep_count max_age_days
              sorted_snapshots 0 [] w) as (ranks & marked & -> & Hf & Hs & Hiff).
  simpl. rewrite <- (Forall2_length _ _ _ Hf).
  set (n := length sorted_snapshots). set (K := Z.to_nat keep_count).
  assert (seq K (n - K) ⊆+ ranks) as Hsub.
  { apply NoDup_submseteq; [apply NoDup_seq | ].
    intros i [HK Hn]%elem_of_seq.
    destruct (lookup_lt_is_Some_2 sorted_snapshots i) as [s Hi]; [unfold n in *; lia | ].
    apply (Hiff i s Hi). left. unfold K in HK. lia. }
  apply submseteq_length in Hsub. rewrite length_seq in Hsub. lia.
Qed.

Lemma cleanup_snapshots_failed_listing env w dataset retention_policy :
  ¬ succeeded (spawn env (length (trace w)) (list_command dataset)) →
  cleanup_snapshots env dataset retention_policy w
  = ((true, "No snapshots found for dataset " +:+ dataset),
     (subprocess env ZfsList (list_command dataset) w).2).
Proof.
  intros Hfail. unfold cleanup_snapshots, get_snapshots. run.
  by destruct (spawn env (length (trace w)) (list_command dataset))
    as [[| |] out err| |]; [destruct Hfail | ..].
Qed.

(** X13. [cleanup_snapshots] cannot tell a listing that failed from a dataset
    without snapshots: when the listing process fails (a non-zero exit or any
    other error), it reports success, "No snapshots found", having started
    the listing and nothing else. *)
Theorem cleanup_reports_failed_listing_as_success env w dataset retention_policy :
  ¬ succeeded (spawn env (length (trace w)) (list_command dataset)) →
  let result := cleanup_snapshots env dataset retention_policy w in
  result.1 = (true, "No snapshots found for dataset " +:+ dataset)
  ∧ trace result.2 = trace w ++ [ Spawned ZfsList (list_command dataset) ]
  ∧ privilege_manager result.2 = privilege_manager w.
Proof.
  intros Hfail. cbv zeta.
  by rewrite cleanup_snapshots_failed_listing.
Qed.

Lemma cleanup_reports_failed_listing_as_success_witness :
  (cleanup_snapshots (example_env 1000 (λ _ _, Exited 1 "" "dataset does not exist")
                        elements)
     "tank/none" ∅ World_init).1
  = (true, "No snapshots found for dataset tank/none").
Proof.
  destruct (cleanup_reports_failed_listing_as_success
              (example_env 1000 (λ _ _, Exited 1 "" "dataset does not exist")
                 elements)
              World_init "tank/none" ∅) as [Hres _]; [ | exact Hres].
  simpl. tauto.
Defined.

(** ** Reading the listing *)

Lemma split1_inv sep p : ∀ d n,
  Py.split1 sep p = [ d; n ] →
  p = d +:+ String sep n ∧ Py.contains sep d = false.
Proof.
  induction p as [|a p IH]; intros d n; simpl; [done | ].
  destruct (Ascii.eqb_spec a sep) as [->|Hne].
  - by intros [= <- <-].
  - destruct (Py.split1 sep p) as [|h t] eqn:Hp; [done | ].
    intros [= <- ->]. destruct (IH h n eq_refl) as [-> Hh].
    split; [done | ]. simpl. by apply Ascii.eqb_neq in Hne as ->.
Qed.

(** X14. A snapshot read by [get_snapshots] from a line of the listing has,
    as its full name, exactly the first field of the line, cut at its first
    at sign: the dataset part has no at sign. Its used and referenced sizes
    are the third and fourth fields, and its creation date is the second
    field, parsed. *)
Theorem parsed_line_full_name env line s :
  parse_snapshot_line env line = Some s →
  ∃ creation_str more,
    Py.split TAB line
    = full_name s :: creation_str :: used s :: referenced s :: more
    ∧ creation_date s = parse_creation env creation_str
    ∧ AT ∉ chars (dataset s).
Proof.
  unfold parse_snapshot_line. destruct (Py.nonempty (Py.strip line)); [ | done].
  destruct (Py.split TAB line) as [|p0 [|p1 [|p2 [|p3 more]]]]; try done.
  destruct (Py.contains AT p0); [ | done].
  destruct (Py.split1 AT p0) as [|d [|n [|? ?]]] eqn:Hsplit; try done.
  intros [= <-]. apply split1_inv in Hsplit as [-> Hd].
  exists p1, more. split_and!; [done | done | by apply contains_false].
Qed.

Lemma parsed_line_full_name_witness :
  let env := example_env 1000 all_succeed elements in
  let s := {| name := "a@b"; creation_date := Parsed 10;
              dataset := "tank/data"; used := "0B"; referenced := "1G" |} in
  parse_snapshot_line env (listing_line "tank/data@a@b" "t1") = Some s
  ∧ AT ∉ chars (dataset s).
Proof.
  intros env s. split; [reflexivity | ].
  by destruct (parsed_line_full_name env (listing_line "tank/data@a@b" "t1") s
                 eq_refl) as (c & more & _ & _ & Hd).
Defined.

(** ** What backups never do *)

Lemma only_started_refl sites w : only_started sites w w.
Proof.
  split_and!; try done. exists []. by rewrite app_nil_r.
Qed.

Lemma only_started_trans sites w1 w2 w3 :
  only_started sites w1 w2 → only_started sites w2 w3 →
  only_started sites w1 w3.
Proof.
  intros (Hp1 & Ht1 & Hn1 & new1 & Htr1 & Hf1)
         (Hp2 & Ht2 & Hn2 & new2 & Htr2 & Hf2).
  split_and!; try congruence.
  exists (new1 ++ new2). rewrite Htr2, Htr1, <- app_assoc.
  split; [done | by apply Forall_app].
Qed.

Lemma subprocess_only_started env sites site argv w :
  site ∈ sites → only_started sites w (subprocess env site argv w).2.
Proof.
  intros Hsite. split_and!; try done.
  exists [ Spawned site argv ]. split; [done | by repeat constructor].
Qed.

Lemma get_snapshots_only_started env sites dataset w :
  ZfsList ∈ sites → only_started sites w (get_snapshots env dataset w).2.
Proof.
  intros Hsite. unfold get_snapshots, bind.
  pose proof (subprocess_only_started env sites ZfsList (list_command dataset)
                w Hsite) as H.
  destruct (subprocess env ZfsList (list_command dataset) w)
    as [[[| |] out err| |] w1]; exact H.
Qed.

Lemma get_latest_common_snapshot_only_started env sites zfs_core
    source_dataset target_pool w :
  ZfsList ∈ sites →
  only_started sites w
    (get_latest_common_snapshot env zfs_core source_dataset target_pool w).2.
Proof.
  intros Hsite. destruct zfs_core; [ | apply only_started_refl].
  rewrite get_latest_common_snapshot_world.
  eapply only_started_trans; by apply get_snapshots_only_started.
Qed.

(** The guard of the operations on a full name holds for every string: a
    string that passes the validator has no at sign. *)
Lemma full_name_guard full :
  negb (is_safe_zfs_token full) || negb (Py.contains AT full) = true.
Proof.
  destruct (is_safe_zfs_token full) eqn:Hsafe; [ | done].
  by rewrite (safe_token_no_char AT full AT_not_token_char Hsafe).
Qed.

Lemma send_snapshot_never env full target_pool incremental_snapshot w :
  send_snapshot env full target_pool incremental_snapshot w
  = ((false, "Invalid snapshot identifier"), w).
Proof. unfold send_snapshot. by rewrite full_name_guard. Qed.

(** X15. The operations that take a full snapshot name, [delete_snapshot],
    [rollback_snapshot], [clone_snapshot] and [send_snapshot], answer
    "Invalid snapshot identifier" to every argument whatsoever, with or
    without an at sign, and leave the world as it is: they start no process
    and never reach the privilege broker. *)
Theorem full_name_operations_accept_nothing env full force target
    incremental_snapshot w :
  delete_snapshot env full w = ((false, "Invalid snapshot identifier"), w)
  ∧ rollback_snapshot env full force w
    = ((false, "Invalid snapshot identifier"), w)
  ∧ clone_snapshot env full target w
    = ((false, "Invalid snapshot identifier"), w)
  ∧ send_snapshot env full target incremental_snapshot w
    = ((false, "Invalid snapshot identifier"), w).
Proof.
  unfold delete_snapshot, rollback_snapshot, clone_snapshot, send_snapshot.
  by rewrite full_name_guard.
Qed.

Lemma perform_backup_only_started env zfs_core dataset target_pool w :
  only_started [ PoolProbe; ZfsList ] w
    (perform_backup env zfs_core dataset target_pool w).2
  ∧ ((perform_backup env zfs_core dataset target_pool w).1.1 = true →
     ∃ latest,
       (perform_backup env zfs_core dataset target_pool w).1.2
       = "Latest snapshot " +:+ full_name latest
         +:+ " already exists in target pool").
Proof.
  unfold perform_backup.
  destruct zfs_core; cbn [negb]; [ | split; [apply only_started_refl | done]].
  destruct (is_safe_zfs_token dataset); cbn [negb];
    [ | split; [apply only_started_refl | done]].
  destruct (is_safe_zfs_token target_pool); cbn [negb];
    [ | split; [apply only_started_refl | done]].
  pose proof (subprocess_only_started env [ PoolProbe; ZfsList ] PoolProbe
                [ "zfs"; "list"; target_pool ] w ltac:(set_solver)) as Hprobe.
  unfold popen, bind, subprocess, ret in *. cbn [fst snd] in *.
  match type of Hprobe with only_started _ _ ?w1' => set (w1 := w1') in * end.
  destruct (spawn env (length (trace w)) [ "zfs"; "list"; target_pool ])
    as [[| |] out err| |]; cbn [fst snd];
    try (split; [exact Hprobe | done]).
  pose proof (get_snapshots_only_started env [ PoolProbe; ZfsList ] dataset w1
                ltac:(set_solver)) as Hlist.
  destruct (get_snapshots env dataset w1) as [snapshots w2]. cbn [fst snd] in *.
  pose proof (only_started_trans _ _ _ _ Hprobe Hlist) as H2.
  destruct snapshots as [|s0 snapshots]; [split; [exact H2 | done] | ].
  destruct (sorted_newest_first (s0 :: snapshots)) as [|latest sorted];
    [split; [exact H2 | done] | ].
  pose proof (get_latest_common_snapshot_only_started env [ PoolProbe; ZfsList ]
                true dataset target_pool w2 ltac:(set_solver)) as Hcommon.
  destruct (get_latest_common_snapshot env true dataset target_pool w2)
    as [common w3]. cbn [fst snd] in *.
  pose proof (only_started_trans _ _ _ _ H2 Hcommon) as H3.
  destruct (truthy common) as [base|].
  - destruct (String.eqb base (full_name latest)).
    + cbn [fst snd]. split; [exact H3 | ]. intros _. by exists latest.
    + rewrite send_snapshot_never. split; [exact H3 | done].
  - rewrite send_snapshot_never. split; [exact H3 | done].
Qed.

Lemma backup_each_only_started env zfs_core target_pool datasets :
  ∀ success_count failures w,
  let counted := backup_each env zfs_core target_pool datasets
                   success_count failures w in
  only_started [ PoolProbe; ZfsList ] w counted.2
  ∧ (counted.1.1 + length counted.1.2
     = success_count + length failures + length datasets)%nat.
Proof.
  induction datasets as [|d datasets IH]; intros success_count failures w;
    cbv zeta.
  - simpl. unfold ret. simpl. split; [apply only_started_refl | lia].
  - cbn [backup_each]. unfold bind.
    destruct (perform_backup_only_started env zfs_core d target_pool w)
      as [Hone _].
    destruct (perform_backup env zfs_core d target_pool w) as [[ok msg] w1].
    cbn [fst snd] in *. destruct ok.
    + destruct (IH (S success_count) failures w1) as [Hrest Hcount].
      split; [by eapply only_started_trans | ]. simpl. lia.
    + destruct (IH success_count (failures ++ [ d +:+ ": " +:+ msg ]) w1)
        as [Hrest Hcount].
      split; [by eapply only_started_trans | ].
      rewrite length_app in Hcount. simpl in *. lia.
Qed.

(** X16. No backup ever transfers anything. For every input and every
    environment, [perform_backup], [create_backup_schedule] and
    [run_scheduled_backup] start no send and no receive process and never
    reach the privilege broker: the only processes they start are the probe
    of the target pool and listings, the session cache is untouched and no
    clock is read. [perform_backup] can succeed in one way only, with the
    message that the latest snapshot already exists in the target pool. *)
Theorem backups_never_transfer env zfs_core config dataset datasets target_pool
    schedule_type w :
  let sites := [ PoolProbe; ZfsList ] in
  let result := perform_backup env zfs_core dataset target_pool w in
  only_started sites w result.2
  ∧ (result.1.1 = true →
     ∃ latest, result.1.2 = "Latest snapshot " +:+ full_name latest
                             +:+ " already exists in target pool")
  ∧ only_started sites w
      (create_backup_schedule env zfs_core datasets target_pool schedule_type w).2
  ∧ only_started sites w (run_scheduled_backup env zfs_core config w).2.
Proof.
  cbv zeta.
  destruct (perform_backup_only_started env zfs_core dataset target_pool w)
    as [Hone Hmsg].
  split_and!; [done | done | | ].
  - unfold create_backup_schedule, bind.
    destruct (backup_each_only_started env zfs_core target_pool datasets 0 [] w)
      as [Hall _].
    destruct (backup_each env zfs_core target_pool datasets 0 [] w)
      as [[count failures] w1]. cbn [fst snd] in *.
    by destruct failures.
  - unfold run_scheduled_backup.
    destruct (negb _); [apply only_started_refl | ].
    destruct (negb _); [apply only_started_refl | ].
    destruct (default [] (cfg_datasets config)) as [|d0 ds] eqn:Hds;
      [apply only_started_refl | ].
    unfold bind.
    match goal with |- context [backup_each env zfs_core ?pool ?l 0 [] w] =>
      destruct (backup_each_only_started env zfs_core pool l 0 [] w)
        as [Hall _];
      destruct (backup_each env zfs_core pool l 0 [] w)
        as [[count failures] w1]
    end.
    cbn [fst snd] in *. by destruct failures.
Qed.

(** X17. [perform_backup] checks before it acts. Without a ZFS core, or with
    a dataset or pool name that is not a valid token, it fails and starts no
    process. When the probe of the target pool does not succeed, it fails
    having started only the probe. When the pool answers and the listing of
    the source gives nothing (no snapshot, or a listing that failed), it
    fails with "No snapshots found", having started the probe and that
    listing only. *)
Theorem perform_backup_checks_first env zfs_core dataset target_pool w :
  let result := perform_backup env zfs_core dataset target_pool w in
  let probe := [ "zfs"; "list"; target_pool ] in
  let w1 := (popen env PoolProbe probe w).2 in
  (zfs_core = false ∨ is_safe_zfs_token dataset = false
   ∨ is_safe_zfs_token target_pool = false →
   result.1.1 = false ∧ result.2 = w)
  ∧ (zfs_core = true → is_safe_zfs_token dataset = true →
     is_safe_zfs_token target_pool = true →
     (¬ succeeded (spawn env (length (trace w)) probe) →
      result.1.1 = false
      ∧ trace result.2 = trace w ++ [ Spawned PoolProbe probe ])
     ∧ (succeeded (spawn env (length (trace w)) probe) →
        (get_snapshots env dataset w1).1 = [] →
        result.1 = (false, "No snapshots found for dataset " +:+ dataset)
        ∧ trace result.2
          = trace w ++ [ Spawned PoolProbe probe;
                         Spawned ZfsList (list_command dataset) ])).
Proof.
  cbv zeta. unfold perform_backup. split.
  - intros [-> | [Hd | Hp]]; [done | | ].
    + destruct zfs_core; [ | done]. by rewrite Hd.
    + destruct zfs_core; [ | done].
      destruct (is_safe_zfs_token dataset); [ | done]. by rewrite Hp.
  - intros -> -> ->. cbn [negb].
    unfold popen, bind, subprocess, ret. cbn [fst snd].
    split.
    + intros Hfail.
      destruct (spawn env (length (trace w)) [ "zfs"; "list"; target_pool ])
        as [[| |] out err| |]; done.
    + intros Hok.
      destruct (spawn env (length (trace w)) [ "zfs"; "list"; target_pool ])
        as [[| |] out err| |]; try done. cbn [fst snd].
      match goal with |- context [get_snapshots env dataset ?w1] =>
        pose proof (get_snapshots_trace env dataset w1) as Htrace;
        destruct (get_snapshots env dataset w1) as [snapshots w2]
      end.
      cbn [fst snd trace] in *. intros ->. split; [done | ].
      cbn [snd]. rewrite Htrace. by rewrite <- app_assoc.
Qed.

Lemma perform_backup_checks_first_witness :
  let env := example_env 1000 all_succeed elements in
  let result := perform_backup env true "tank/data; rm -rf /" "backup" World_init in
  result.1.1 = false ∧ result.2 = World_init.
Proof.
  intros env result.
  destruct (perform_backup_checks_first env true "tank/data; rm -rf /" "backup"
              World_init) as [Hinvalid _].
  apply Hinvalid. right. left. reflexivity.
Defined.

Lemma attempts_length step datasets : ∀ w,
  length (attempts step datasets w).1 = length datasets.
Proof.
  induction datasets as [|d ds IH]; intros w; [done | ]. simpl.
  destruct (step d w) as [answer w1]. specialize (IH w1).
  destruct (attempts step ds w1) as [answers w2]. simpl in *. by rewrite IH.
Qed.

Lemma failed_nil datasets : ∀ answers,
  length answers = length datasets →
  failed datasets answers = [] ↔ Forall (λ answer, answer.1 = true) answers.
Proof.
  induction datasets as [|d ds IH]; intros [|[ok msg] answers] Hlen;
    simpl in Hlen; try lia.
  - split; [intros _; constructor | done].
  - simpl in *. rewrite Forall_cons. simpl. destruct ok; simpl.
    + rewrite IH by lia. tauto.
    + split; [done | by intros [? _]].
Qed.

Lemma successes_all answers :
  Forall (λ answer, answer.1 = true) answers →
  successes answers = length answers.
Proof.
  induction 1 as [|[ok msg] answers Hok _ IH]; [done | ].
  simpl in *. by rewrite Hok, IH.
Qed.

(** The loop over the datasets is a run of [perform_backup] over them. *)
Lemma backup_each_attempts env zfs_core target_pool datasets :
  ∀ success_count failures w,
  let run :=
    attempts (λ dataset, perform_backup env zfs_core dataset target_pool)
      datasets w in
  backup_each env zfs_core target_pool datasets success_count failures w
  = (((success_count + successes run.1)%nat,
      failures ++ failed datasets run.1), run.2).
Proof.
  induction datasets as [|d ds IH]; intros sc fl w; cbv zeta.
  - simpl. unfold ret. by rewrite Nat.add_0_r, app_nil_r.
  - simpl. unfold bind.
    destruct (perform_backup env zfs_core d target_pool w) as [[ok msg] w1].
    cbn [fst snd]. destruct ok.
    + rewrite IH.
      destruct (attempts _ ds w1) as [answers w2]. cbn [fst snd app].
      f_equal. f_equal. simpl. lia.
    + rewrite IH.
      destruct (attempts _ ds w1) as [answers w2]. cbn [fst snd].
      f_equal. f_equal; simpl; try lia. by rewrite <- app_assoc.
Qed.

(** X18. [run_scheduled_backup] does nothing and reports success when the
    external backup is disabled or the key is missing; it fails without
    starting a process when no target pool is configured (a blank name
    counts as none) or no dataset is configured. Otherwise it runs
    [perform_backup] on every configured dataset, in order, each in the world
    the one before has left and whatever the one before answered; it leaves
    the world of the last one; it succeeds exactly when every backup
    succeeded, and then counts all the datasets; and when it fails its
    message counts the successes and lists every dataset that failed with the
    message of its backup. *)
Theorem run_scheduled_backup_attempts_every_dataset env zfs_core config w :
  let result := run_scheduled_backup env zfs_core config w in
  let target_pool := Py.strip (default "" (cfg_external_pool_name config)) in
  let datasets := default [] (cfg_datasets config) in
  (default false (cfg_external_backup_enabled config) = false →
   result = ((true, "External backup is disabled"), w))
  ∧ (default false (cfg_external_backup_enabled config) = true →
     (target_pool = "" →
      result = ((false, "External backup is enabled but no target pool is configured"), w))
     ∧ (target_pool ≠ "" → datasets = [] →
        result = ((false, "No datasets configured for scheduled backup"), w))
     ∧ (target_pool ≠ "" → datasets ≠ [] →
        let run :=
          attempts (λ dataset, perform_backup env zfs_core dataset target_pool)
            datasets w in
        result.2 = run.2
        ∧ (result.1.1 = true ↔ Forall (λ answer, answer.1 = true) run.1)
        ∧ (result.1.1 = true →
           result.1.2 = "Scheduled backup completed successfully for "
                        +:+ pretty (length datasets) +:+ " datasets")
        ∧ (result.1.1 = false →
           result.1.2 = "Scheduled backup completed with partial failures ("
                        +:+ pretty (successes run.1) +:+ "/"
                        +:+ pretty (length datasets) +:+ "): "
                        +:+ Py.join "; " (failed datasets run.1)))).
Proof.
  cbv zeta. unfold run_scheduled_backup. split.
  - by intros ->.
  - intros ->. cbn [negb]. split_and!.
    + by intros ->.
    + intros Hpool ->. by destruct (Py.strip _).
    + intros Hpool Hds. destruct (Py.strip _) as [|c pool] eqn:Hp; [done | ].
      cbn [Py.nonempty negb].
      destruct (default [] (cfg_datasets config)) as [|d0 ds]; [done | ].
      unfold bind. rewrite backup_each_attempts. cbv zeta.
      pose proof (attempts_length
                    (λ dataset, perform_backup env zfs_core dataset (String c pool))
                    (d0 :: ds) w) as Hlen.
      destruct (attempts _ (d0 :: ds) w) as [answers w1]. cbn [fst snd app] in *.
      pose proof (failed_nil (d0 :: ds) answers Hlen) as Hnil.
      destruct (failed (d0 :: ds) answers) as [|f fs] eqn:Hfailed;
        unfold ret; cbn [fst snd].
      * assert (Forall (λ answer, answer.1 = true) answers) as Hall
          by (by apply Hnil).
        split_and!; [done | done | | done].
        intros _. by rewrite (successes_all answers Hall), Hlen.
      * split_and!; [done | | done | done].
        split; [done | ]. intros Hall. by apply Hnil in Hall.
Qed.

Lemma run_scheduled_backup_attempts_every_dataset_witness :
  let result :=
    run_scheduled_backup (example_env 1000 all_succeed elements) true
      {| cfg_datasets := Some [ "tank/data"; "tank b" ]; cfg_prefix := None;
         cfg_external_backup_enabled := Some true;
         cfg_external_pool_name := Some " backup ";
         cfg_snapshot_retention := None |} World_init in
  result.1
  = (false,
     "Scheduled backup completed with partial failures (0/2): "
     +:+ "tank/data: No snapshots found for dataset tank/data; "
     +:+ "tank b: Invalid source dataset name")
  ∧ trace result.2
    = [ Spawned PoolProbe [ "zfs"; "list"; "backup" ];
        Spawned ZfsList (list_command "tank/data") ].
Proof.
  intros result.
  destruct (run_scheduled_backup_attempts_every_dataset
              (example_env 1000 all_succeed elements) true
              {| cfg_datasets := Some [ "tank/data"; "tank b" ];
                 cfg_prefix := None;
                 cfg_external_backup_enabled := Some true;
                 cfg_external_pool_name := Some " backup ";
                 cfg_snapshot_retention := None |} World_init)
    as [_ Henabled].
  destruct (Henabled eq_refl) as (_ & _ & Hloop).
  destruct (Hloop ltac:(done) ltac:(done)) as (Hworld & Hok & _ & Hmsg).
  fold result in Hworld, Hok, Hmsg.
  assert (result.1.1 = false) as Hfalse.
  { destruct (result.1.1) eqn:Hres; [ | done].
    destruct Hok as [Hok _]. specialize (Hok eq_refl).
    apply Forall_cons in Hok as [Hfirst _]. by vm_compute in Hfirst. }
  split.
  - destruct result as [[ok msg] w']. simpl in *. subst ok.
    by rewrite (Hmsg eq_refl).
  - by rewrite Hworld.
Defined.

Lemma gset_difference_empty (S T : gset string) :
  S ∖ T = ∅ ∧ T ∖ S = ∅ ↔ S = T.
Proof.
  split.
  - intros [H1 H2]. apply set_eq. intros x. split; intros Hx.
    + destruct (decide (x ∈ T)) as [|Hn]; [done | ].
      assert (x ∈ S ∖ T) as Hd by (by apply elem_of_difference).
      rewrite H1 in Hd. by apply not_elem_of_empty in Hd.
    + destruct (decide (x ∈ S)) as [|Hn]; [done | ].
      assert (x ∈ T ∖ S) as Hd by (by apply elem_of_difference).
      rewrite H2 in Hd. by apply not_elem_of_empty in Hd.
  - intros ->. split; apply set_eq; intros x;
      rewrite elem_of_difference; split; [tauto | | tauto | ];
      by intros ?%not_elem_of_empty.
Qed.

(** X19. [verify_backup_integrity] succeeds exactly when the snapshot names of
    the source listing and of the target listing are the same set, whatever
    the creation times, sizes and order; it starts the two listings and
    nothing else. Without a ZFS core it fails and starts nothing. *)
Theorem verify_backup_integrity_compares_names env source_dataset target_pool w :
  let source := (get_snapshots env source_dataset w).1 in
  let w1 := (get_snapshots env source_dataset w).2 in
  let target := (get_snapshots env target_pool w1).1 in
  let result := verify_backup_integrity env true source_dataset target_pool w in
  (result.1.1 = true ↔ ∀ n, n ∈ name <$> source ↔ n ∈ name <$> target)
  ∧ trace result.2 = trace w ++ [ Spawned ZfsList (list_command source_dataset);
                                  Spawned ZfsList (list_command target_pool) ]
  ∧ (verify_backup_integrity env false source_dataset target_pool w).1.1 = false
  ∧ (verify_backup_integrity env false source_dataset target_pool w).2 = w.
Proof.
  cbv zeta. unfold verify_backup_integrity, bind. cbn [negb].
  pose proof (get_snapshots_trace env source_dataset w) as Ht1.
  destruct (get_snapshots env source_dataset w) as [source w1].
  cbn [fst snd] in *.
  pose proof (get_snapshots_trace env target_pool w1) as Ht2.
  destruct (get_snapshots env target_pool w1) as [target w2].
  cbn [fst snd] in *.
  set (S := list_to_set (name <$> source) : gset string).
  set (T := list_to_set (name <$> target) : gset string).
  assert ((∀ n, n ∈ name <$> source ↔ n ∈ name <$> target) ↔ S = T) as Heq.
  { unfold S, T. split.
    - intros H. apply set_eq. intros n. by rewrite !elem_of_list_to_set.
    - intros H n. by rewrite <- !(elem_of_list_to_set (C := gset string)), H. }
  split_and!; [ | | done | done].
  - etrans; [ | symmetry; exact Heq].
    etrans; [ | apply gset_difference_empty].
    do 2 case_bool_decide; unfold ret; cbn [fst snd app]; intuition congruence.
  - assert (trace w2 = trace w ++ [ Spawned ZfsList (list_command source_dataset);
                                    Spawned ZfsList (list_command target_pool) ])
      as <- by (rewrite Ht2, Ht1; by rewrite <- app_assoc).
    by do 2 case_bool_decide.
Qed.

Example verify_backup_integrity_examples :
  (verify_backup_integrity
     (example_env 1000 (listing_oracle source_abc target_ac) elements)
     true "tank/data" "backup" World_init).1
  = (false, "Backup integrity check found issues: Missing in target: b")
  ∧ (verify_backup_integrity
       (example_env 1000 (listing_oracle source_abc source_abc) elements)
       true "tank/data" "backup" World_init).1
    = (true, "Backup integrity verified: 3 snapshots match").
Proof. by vm_compute. Qed.

(** ** Scheduled snapshots *)





(** ** The order of the common names *)

Lemma latest_of_order (m : gmap string ZFSSnapshot) names1 names2 :
  names1 ≡ₚ names2 →
  let r1 := latest_of m names1 None datetime_min in
  let r2 := latest_of m names2 None datetime_min in
  creation_date <$> r1 = creation_date <$> r2
  ∧ ((∀ n1 n2 s1 s2 t, n1 ∈ names1 → n2 ∈ names1 →
        m !! n1 = Some s1 → m !! n2 = Some s2 →
        creation_date s1 = Parsed t → creation_date s2 = Parsed t → n1 = n2) →
     r1 = r2).
Proof.
  intros Hperm. cbv zeta.
  pose proof (latest_of_spec m names1 None datetime_min) as H1.
  pose proof (latest_of_spec m names2 None datetime_min) as H2.
  destruct (latest_of m names1 None datetime_min) as [s1|];
    destruct (latest_of m names2 None datetime_min) as [s2|].
  - destruct H1 as (t1 & Hc1 & [[? _]|(n1 & Hn1 & Hs1 & Hlt1)] & Hmax1);
      [done | done | ].
    destruct H2 as (t2 & Hc2 & [[? _]|(n2 & Hn2 & Hs2 & Hlt2)] & Hmax2);
      [done | done | ].
    assert (t1 = t2) as ->.
    { rewrite <- Hperm in Hn2.
      pose proof (Hmax1 n2 s2 t2 Hn2 Hs2 Hc2).
      rewrite Hperm in Hn1.
      pose proof (Hmax2 n1 s1 t1 Hn1 Hs1 Hc1). lia. }
    split; [simpl; congruence | ].
    intros Hdistinct. rewrite <- Hperm in Hn2.
    assert (n1 = n2) as -> by (by eapply Hdistinct). congruence.
  - destruct H1 as (t1 & Hc1 & [[? _]|(n1 & Hn1 & Hs1 & Hlt1)] & _);
      [done | done | ].
    destruct H2 as [_ Hmax2]; [done | ]. rewrite Hperm in Hn1.
    pose proof (Hmax2 n1 s1 t1 Hn1 Hs1 Hc1). lia.
  - destruct H2 as (t2 & Hc2 & [[? _]|(n2 & Hn2 & Hs2 & Hlt2)] & _);
      [done | done | ].
    destruct H1 as [_ Hmax1]; [done | ]. rewrite <- Hperm in Hn2.
    pose proof (Hmax1 n2 s2 t2 Hn2 Hs2 Hc2). lia.
  - done.
Qed.

(** X21. The search for the latest common snapshot does not depend on the
    order in which the set of common names is iterated, as far as the
    creation time goes: two orders give results of the same creation time.
    When no two common snapshots have the same source-side creation time,
    the two orders give the same snapshot. *)
Theorem latest_common_order_independent (source : gmap string ZFSSnapshot)
    order1 order2 :
  order1 ≡ₚ order2 →
  let r1 := latest_of source order1 None datetime_min in
  let r2 := latest_of source order2 None datetime_min in
  creation_date <$> r1 = creation_date <$> r2
  ∧ ((∀ n1 n2 s1 s2 t, n1 ∈ order1 → n2 ∈ order1 →
        source !! n1 = Some s1 → source !! n2 = Some s2 →
        creation_date s1 = Parsed t → creation_date s2 = Parsed t → n1 = n2) →
     r1 = r2).
Proof. apply latest_of_order. Qed.

Lemma latest_common_order_independent_witness :
  let a := {| name := "a"; creation_date := Parsed 10; dataset := "tank";
              used := "0B"; referenced := "1G" |} in
  let b := {| name := "b"; creation_date := Parsed 20; dataset := "tank";
              used := "0B"; referenced := "1G" |} in
  creation_date <$> latest_of (by_name [ a; b ]) [ "a"; "b" ] None datetime_min
  = creation_date <$> latest_of (by_name [ a; b ]) [ "b"; "a" ] None datetime_min.
Proof.
  intros a b.
  destruct (latest_common_order_independent (by_name [ a; b ])
              [ "a"; "b" ] [ "b"; "a" ]) as [Hdate _]; [ | exact Hdate].
  apply Permutation_swap.
Defined.

(** ** Single snapshots and ARC tunables *)

(** What [run_privileged_command] starts: at most the authentication probe
    and then the command, the latter with or without [pkexec] in front. *)
Lemma run_privileged_command_events env command w :
  let result := run_privileged_command env command w in
  ∃ new,
    trace result.2 = trace w ++ new
    ∧ Forall (λ e, e ∈ [ Spawned AuthProbe [ "pkexec"; "true" ];
                         Spawned PrivCmd command;
                         Spawned PrivCmd ("pkexec" :: command) ]) new
    ∧ (result.1.1 = true →
       ∃ argv, (argv = command ∨ argv = "pkexec" :: command)
               ∧ last new = Some (Spawned PrivCmd argv)
               ∧ succeeded (spawn env (length (trace w ++ new) - 1) argv)).
Proof.
  cbv zeta. unfold run_privileged_command.
  destruct (geteuid env =? 0) eqn:Hroot.
  - run. cbn [fst snd trace].
    exists [ Spawned PrivCmd command ]. split_and!; [done | | ].
    { apply Forall_singleton. set_solver. }
    intros Hok. exists command. split_and!; [by left | done | ].
    rewrite length_app. simpl.
    replace (length (trace w) + 1 - 1)%nat with (length (trace w)) by lia.
    by destruct (spawn env (length (trace w)) command) as [[| |] ? ?| |].
  - unfold _is_auth_cached, _refresh_auth_cache. run.
    cbn [privilege_manager time_reads trace].
    destruct (Qltb _ _).
    + cbn [fst snd trace].
      exists [ Spawned PrivCmd ("pkexec" :: command) ]. split_and!; [done | | ].
      { apply Forall_singleton. set_solver. }
      intros Hok. exists ("pkexec" :: command). split_and!; [by right | done | ].
      rewrite length_app. simpl.
      replace (length (trace w) + 1 - 1)%nat with (length (trace w)) by lia.
      by destruct (spawn env (length (trace w)) ("pkexec" :: command))
        as [[| |] ? ?| |].
    + cbn [privilege_manager time_reads trace].
      destruct (spawn env (length (trace w)) [ "pkexec"; "true" ])
        as [[| |] out err| |]; cbn [fst snd trace privilege_manager time_reads];
        try (exists [ Spawned AuthProbe [ "pkexec"; "true" ] ];
             split_and!; [done | apply Forall_singleton; set_solver | done]).
      exists [ Spawned AuthProbe [ "pkexec"; "true" ];
               Spawned PrivCmd ("pkexec" :: command) ].
      split_and!; [by rewrite <- app_assoc | | ].
      { repeat apply Forall_cons_2; [set_solver .. | done]. }
      intros Hok. exists ("pkexec" :: command). split_and!; [by right | done | ].
      rewrite !length_app in *. simpl in *.
      replace (length (trace w) + 2 - 1)%nat with (length (trace w) + 1)%nat
        by lia.
      by destruct (spawn env (length (trace w) + 1) ("pkexec" :: command))
        as [[| |] ? ?| |].
Qed.

Lemma run_privileged_command_now_reads env command w :
  now_reads (run_privileged_command env command w).2 = now_reads w.
Proof.
  unfold run_privileged_command, _is_auth_cached, _refresh_auth_cache.
  destruct (geteuid env =? 0); run; [done | ].
  cbn [privilege_manager time_reads trace].
  destruct (Qltb _ _); [done | ].
  cbn [privilege_manager time_reads trace].
  by destruct (spawn env (length (trace w)) [ "pkexec"; "true" ])
    as [[| |] ? ?| |].
Qed.

(** X22. [create_snapshot] starts a process only for a dataset that is a
    valid token and a name that is either given and a valid token, or missing
    (or empty) and then generated as [zfs-assistant-] and the timestamp of
    the one clock read. What it starts is at most the authentication probe
    and [zfs snapshot dataset@name], with or without [pkexec]. It reports
    success only when that command was the last process started and exited
    with status 0, and then names the snapshot in its answer. *)
Theorem create_snapshot_validates_then_runs env dataset name w :
  let result := create_snapshot env dataset name w in
  ∃ new,
    trace result.2 = trace w ++ new
    ∧ (new ≠ [] ∨ result.1.1 = true →
       is_safe_zfs_token dataset = true
       ∧ ∃ n, let full := dataset +:+ "@" +:+ n in
           ((name = Some n ∧ n ≠ "" ∧ is_safe_zfs_token n = true
             ∧ now_reads result.2 = now_reads w)
            ∨ ((name = None ∨ name = Some "")
               ∧ n = "zfs-assistant-"
                     +:+ strftime_stamp env (datetime_now env (now_reads w))
               ∧ now_reads result.2 = S (now_reads w)))
           ∧ Forall (λ e, e ∈ [ Spawned AuthProbe [ "pkexec"; "true" ];
                                Spawned PrivCmd [ "zfs"; "snapshot"; full ];
                                Spawned PrivCmd
                                  [ "pkexec"; "zfs"; "snapshot"; full ] ]) new
           ∧ (result.1.1 = true →
              result.1.2 = "Created snapshot " +:+ full
              ∧ ∃ argv, (argv = [ "zfs"; "snapshot"; full ]
                         ∨ argv = [ "pkexec"; "zfs"; "snapshot"; full ])
                        ∧ last new = Some (Spawned PrivCmd argv)
                        ∧ succeeded
                            (spawn env (length (trace w ++ new) - 1) argv))).
Proof.
  cbv zeta. unfold create_snapshot.
  destruct (is_safe_zfs_token dataset) eqn:Hd; cbn [negb];
    [ | exists []; split; [by rewrite app_nil_r | by intros [?|?]]].
  assert (∀ n w0, trace w0 = trace w →
    let full := dataset +:+ "@" +:+ n in
    let result :=
      (let* sr := run_privileged_command env [ "zfs"; "snapshot"; full ] in
       if sr.1 then ret (true, "Created snapshot " +:+ full)
       else ret (false, sr.2)) w0 in
    now_reads result.2 = now_reads w0
    ∧ ∃ new, trace result.2 = trace w ++ new
      ∧ Forall (λ e, e ∈ [ Spawned AuthProbe [ "pkexec"; "true" ];
                           Spawned PrivCmd [ "zfs"; "snapshot"; full ];
                           Spawned PrivCmd
                             [ "pkexec"; "zfs"; "snapshot"; full ] ]) new
      ∧ (result.1.1 = true →
         result.1.2 = "Created snapshot " +:+ full
         ∧ ∃ argv, (argv = [ "zfs"; "snapshot"; full ]
                    ∨ argv = [ "pkexec"; "zfs"; "snapshot"; full ])
                   ∧ last new = Some (Spawned PrivCmd argv)
                   ∧ succeeded (spawn env (length (trace w ++ new) - 1) argv)))
    as Hcreate.
  { intros n w0 Htr. cbv zeta. unfold bind.
    destruct (run_privileged_command_events env
                [ "zfs"; "snapshot"; dataset +:+ "@" +:+ n ] w0)
      as (new & Hnew & Hall & Hok).
    assert (now_reads (run_privileged_command env
              [ "zfs"; "snapshot"; dataset +:+ "@" +:+ n ] w0).2 = now_reads w0)
      as Hnow.
    { apply run_privileged_command_now_reads. }
    destruct (run_privileged_command env _ w0) as [[ok msg] w1].
    cbn [fst snd] in *. rewrite Htr in Hnew.
    destruct ok; unfold ret; cbn [fst snd].
    - split; [done | ]. exists new. split_and!; [done | done | ].
      intros _. split; [done | ]. rewrite <- Htr. rewrite <- Htr in Hnew.
      by apply Hok.
    - split; [done | ]. exists new. by split_and!. }
  destruct name as [[|c n]| ].
  - unfold bind at 1, read_now. cbn [fst snd].
    destruct (Hcreate ("zfs-assistant-"
                       +:+ strftime_stamp env (datetime_now env (now_reads w)))
                {| privilege_manager := privilege_manager w;
                   time_reads := time_reads w; now_reads := S (now_reads w);
                   trace := trace w |} eq_refl)
      as (Hnow & new & Hnew & Hall & Hok).
    exists new. split; [exact Hnew | ]. intros _. split; [done | ].
    eexists. split; [right; split_and!; [by right | done | exact Hnow] | ].
    by split.
  - destruct (is_safe_zfs_token (String c n)) eqn:Hn; cbn [negb];
      [ | exists []; split; [by rewrite app_nil_r | by intros [?|?]]].
    destruct (Hcreate (String c n) w eq_refl) as (Hnow & new & Hnew & Hall & Hok).
    exists new. split; [exact Hnew | ]. intros _. split; [done | ].
    exists (String c n). split; [left; by split_and! | ]. by split.
  - unfold bind at 1, read_now. cbn [fst snd].
    destruct (Hcreate ("zfs-assistant-"
                       +:+ strftime_stamp env (datetime_now env (now_reads w)))
                {| privilege_manager := privilege_manager w;
                   time_reads := time_reads w; now_reads := S (now_reads w);
                   trace := trace w |} eq_refl)
      as (Hnow & new & Hnew & Hall & Hok).
    exists new. split; [exact Hnew | ]. intros _. split; [done | ].
    eexists. split; [right; split_and!; [by left | done | exact Hnow] | ].
    by split.
Qed.

Lemma upto_last_slash_app a p :
  "/"%char ∉ chars p →
  upto_last_slash (a +:+ String "/" p) = a +:+ "/".
Proof.
  intros Hp. induction a as [|c a IH].
  - change (upto_last_slash (String "/" p) = "/"). simpl.
    assert (upto_last_slash p = "") as ->; [ | done].
    induction p as [|b p IHp]; [done | ]. simpl in *.
    apply not_elem_of_cons in Hp as [Hb Hp].
    destruct (Ascii.eqb_spec b "/") as [->|_]; [done | ]. by rewrite IHp.
  - rewrite !append_cons. simpl. rewrite IH.
    destruct (Ascii.eqb c "/"); [done | ]. by destruct a.
Qed.

(** X23. [set_arc_tunable] starts a process only when the parameter is
    [zfs_] followed by letters, digits and underscores (a final line feed
    is let through by the pattern), the value is a decimal integer once
    stripped, and the file of the parameter exists. The file it then hands
    to [tee] lies directly in [/sys/module/zfs/parameters]; what it starts
    is at most the authentication probe and that [tee], with or without
    [pkexec]; and it reports success only when the [tee] was the last
    process started and exited with status 0. *)
Theorem set_arc_tunable_validates_then_writes env path_exists parameter value w :
  let result := set_arc_tunable env path_exists parameter value w in
  let param_path := "/sys/module/zfs/parameters/" +:+ parameter in
  ∃ new,
    trace result.2 = trace w ++ new
    ∧ (new ≠ [] ∨ result.1.1 = true →
       (∃ word, word ≠ "" ∧ Forall word_char (chars word)
                ∧ (parameter = "zfs_" +:+ word
                   ∨ parameter = "zfs_" +:+ word +:+ String LF ""))
       ∧ decimal (Py.strip value)
       ∧ path_exists param_path = true
       ∧ dirname param_path = "/sys/module/zfs/parameters"
       ∧ Forall (λ e, e ∈ [ Spawned AuthProbe [ "pkexec"; "true" ];
                            Spawned PrivCmd [ "tee"; param_path ];
                            Spawned PrivCmd [ "pkexec"; "tee"; param_path ] ])
           new
       ∧ (result.1.1 = true →
          result.1.2 = "Set " +:+ parameter +:+ " to " +:+ value
          ∧ ∃ argv, (argv = [ "tee"; param_path ]
                     ∨ argv = [ "pkexec"; "tee"; param_path ])
                    ∧ last new = Some (Spawned PrivCmd argv)
                    ∧ succeeded (spawn env (length (trace w ++ new) - 1) argv))).
Proof.
  cbv zeta. unfold set_arc_tunable.
  destruct (is_safe_arc_parameter parameter) eqn:Hp; cbn [negb];
    [ | exists []; split; [by rewrite app_nil_r | by intros [?|?]]].
  destruct (is_safe_integer value) eqn:Hv; cbn [negb];
    [ | exists []; split; [by rewrite app_nil_r | by intros [?|?]]].
  destruct (path_exists _) eqn:Hpath; cbn [negb];
    [ | exists []; split; [by rewrite app_nil_r | by intros [?|?]]].
  unfold bind.
  destruct (run_privileged_command_events env
              [ "tee"; "/sys/module/zfs/parameters/" +:+ parameter ] w)
    as (new & Hnew & Hall & Hok).
  destruct (run_privileged_command env _ w) as [[ok msg] w1].
  cbn [fst snd] in *.
  assert (dirname ("/sys/module/zfs/parameters/" +:+ parameter)
          = "/sys/module/zfs/parameters") as Hdir.
  { destruct (is_safe_arc_parameter_spec parameter) as [_ Hchars].
    destruct (Hchars Hp) as [Hslash _].
    unfold dirname.
    change ("/sys/module/zfs/parameters/" +:+ parameter)
      with ("/sys/module/zfs/parameters" +:+ String "/" parameter).
    by rewrite upto_last_slash_app. }
  exists new.
  destruct ok; unfold ret; cbn [negb fst snd]; (split; [exact Hnew | ]);
    intros _; (split_and!;
      [by apply is_safe_arc_parameter_spec | by apply is_safe_integer_spec
      | done | done | done | ]); [ | done].
  intros _. split; [done | by apply Hok].
Qed.

(** ** Batch snapshots *)

Lemma run_batch_privileged_commands_root env commands w :
  geteuid env = 0 → commands ≠ [] →
  run_batch_privileged_commands env commands w
  = run_batch_as_root env commands [] w.
Proof.
  intros Hroot Hne. unfold run_batch_privileged_commands.
  destruct commands; [done | ]. by rewrite Hroot.
Qed.

(** X24. [create_batch_snapshots] validates no dataset and undoes nothing.
    When the process is root, the datasets before the first one whose
    [zfs snapshot] fails have got their snapshot, that command was the last
    process started, no snapshot is attempted for the datasets after it, and
    the answer is a failure. *)
Theorem batch_snapshots_stop_at_first_failure env before dataset after
    snapshot_name w :
  let command := λ d, [ "zfs"; "snapshot"; d +:+ "@" +:+ snapshot_name ] in
  geteuid env = 0 →
  (∀ j d, before !! j = Some d →
          succeeded (spawn env (length (trace w) + j) (command d))) →
  ¬ succeeded (spawn env (length (trace w) + length before) (command dataset)) →
  let result :=
    create_batch_snapshots env (before ++ dataset :: after) snapshot_name w in
  result.1.1 = false
  ∧ (∃ msg, result.1.2 = "Batch snapshot creation failed: " +:+ msg)
  ∧ trace result.2
    = trace w ++ map (λ d, Spawned BatchCmd (command d)) (before ++ [ dataset ]).
Proof.
  intros command Hroot Hbefore Hfail result. subst result.
  unfold create_batch_snapshots.
  destruct (before ++ dataset :: after) as [|d0 ds] eqn:Hds;
    [by destruct before | ].
  rewrite <- Hds. clear Hds d0 ds.
  unfold bind. fold command.
  rewrite run_batch_privileged_commands_root
    by (done || by destruct before).
  rewrite (map_app command). cbn [map].
  destruct (run_batch_as_root_first_failure env (map command before)
              (command dataset) (map command after) [] w)
    as (msg & w' & Hrun & Htr & _).
  { intros j cmd Hj. rewrite list_lookup_fmap in Hj.
    destruct (before !! j) as [d|] eqn:Hd; [ | done].
    simpl in Hj. injection Hj as <-. by apply Hbefore. }
  { by rewrite length_map. }
  rewrite Hrun. unfold ret. cbn [fst snd].
  split_and!; [done | by eexists | ].
  rewrite Htr, map_app, map_app, map_map. done.
Qed.

Lemma batch_snapshots_stop_at_first_failure_witness :
  let result :=
    create_batch_snapshots (example_env 0 second_fails elements)
      ([ "tank/home" ] ++ "tank/my data" :: [ "tank/var" ]) "manual" World_init in
  result.1.1 = false
  ∧ trace result.2
    = [ Spawned BatchCmd [ "zfs"; "snapshot"; "tank/home@manual" ];
        Spawned BatchCmd [ "zfs"; "snapshot"; "tank/my data@manual" ] ].
Proof.
  intros result.
  destruct (batch_snapshots_stop_at_first_failure
              (example_env 0 second_fails elements)
              [ "tank/home" ] "tank/my data" [ "tank/var" ] "manual" World_init)
    as (Hres & _ & Htrace).
  - reflexivity.
  - intros [|j] d Hj; [vm_compute; exact I | destruct j; inversion Hj].
  - vm_compute. tauto.
  - split; [exact Hres | exact Htrace].
Defined.

(** ** Copying files *)

Lemma upto_last_slash_none p :
  "/"%char ∉ chars p → upto_last_slash p = "".
Proof.
  induction p as [|b p IH]; [done | ]. simpl.
  intros [Hb Hp]%not_elem_of_cons.
  destruct (Ascii.eqb_spec b "/") as [->|_]; [done | ]. by rewrite IH.
Qed.

Lemma rstrip_slash_dir dir c :
  last (chars dir) = Some c → c ≠ "/"%char →
  rstrip_slash (dir +:+ "/") = dir ∧ all_slashes (dir +:+ "/") = false.
Proof.
  intros Hlast Hc. induction dir as [|a dir IH]; [done | ].
  rewrite append_cons. destruct dir as [|b dir].
  - simpl in Hlast. injection Hlast as ->.
    change (String c "" +:+ "/") with (String c "/"). simpl.
    by destruct (Ascii.eqb_spec c "/").
  - destruct IH as [IH1 IH2]; [exact Hlast | ].
    simpl. simpl in IH1. rewrite IH1. split; [done | ].
    simpl in IH2. rewrite IH2. by rewrite andb_false_r.
Qed.

Lemma dirname_under dir base c :
  last (chars dir) = Some c → c ≠ "/"%char → "/"%char ∉ chars base →
  dirname (dir +:+ "/" +:+ base) = dir.
Proof.
  intros Hlast Hc Hbase. unfold dirname.
  change (dir +:+ "/" +:+ base) with (dir +:+ String "/" base).
  rewrite upto_last_slash_app by done.
  destruct (rstrip_slash_dir dir c Hlast Hc) as [-> ->].
  by destruct dir.
Qed.

Lemma copy_commands_plan src d :
  proper_destination d →
  copy_commands (src, destination_path d) = copy_plan (src, d).
Proof.
  destruct d as [base|dir base]; unfold copy_commands, copy_plan; simpl.
  - intros Hbase. unfold dirname. by rewrite upto_last_slash_none.
  - intros (Hbase & c & Hlast & Hc). rewrite (dirname_under dir base c) by done.
    by destruct dir.
Qed.

(** X25. [copy_files_privileged] makes the directory of a destination before
    it copies to it, and keeps the order of the operations: for destinations
    that are a file name, or a file name under a directory, it runs as one
    batch the commands [mkdir -p dir] (when there is a directory) and
    [cp src dst] of each operation in turn. A destination that is a file
    name alone gets no [mkdir]. *)
Theorem copy_files_makes_directories_first env
    (operations : list (string * destination)) w :
  operations ≠ [] →
  Forall (λ o, proper_destination o.2) operations →
  copy_files_privileged env
    (map (λ o, (o.1, destination_path o.2)) operations) w
  = run_batch_privileged_commands env (concat (map copy_plan operations)) w.
Proof.
  intros Hne Hall. unfold copy_files_privileged.
  destruct (map _ operations) as [|o0 os] eqn:Hmap;
    [by destruct operations | ].
  rewrite <- Hmap. clear Hmap o0 os. f_equal.
  rewrite map_map. f_equal.
  apply Forall_fmap_ext. eapply Forall_impl; [exact Hall | ].
  intros [src d] Hd. by apply copy_commands_plan.
Qed.

Lemma copy_files_makes_directories_first_witness :
  trace (copy_files_privileged (example_env 0 all_succeed elements)
           [ ("/tmp/hook", "/etc/pacman.d/hooks/00-zfs-snapshot.hook");
             ("/tmp/notes", "notes.txt") ] World_init).2
  = [ Spawned BatchCmd [ "mkdir"; "-p"; "/etc/pacman.d/hooks" ];
      Spawned BatchCmd
        [ "cp"; "/tmp/hook"; "/etc/pacman.d/hooks/00-zfs-snapshot.hook" ];
      Spawned BatchCmd [ "cp"; "/tmp/notes"; "notes.txt" ] ].
Proof.
  refine (eq_trans
            (f_equal (λ r, trace r.2)
               (copy_files_makes_directories_first
                  (example_env 0 all_succeed elements)
                  [ ("/tmp/hook",
                     Under "/etc/pacman.d/hooks" "00-zfs-snapshot.hook");
                    ("/tmp/notes", Flat "notes.txt") ] World_init _ _))
            eq_refl).
  - done.
  - repeat apply Forall_cons_2; [ | | apply Forall_nil_2 ].
    + split; [apply contains_false; reflexivity | ].
      exists "s"%char. split; [reflexivity | done].
    + apply contains_false. reflexivity.
Defined.

(** ** The listings of datasets and pools *)

Lemma rstrip_idem s : Py.rstrip (Py.rstrip s) = Py.rstrip s.
Proof.
  induction s as [|a s IH]; [done | ]. simpl.
  destruct (Py.rstrip s) as [|b r] eqn:Hr.
  - destruct (Py.isspace a) eqn:Ha; [done | ]. simpl. by rewrite Ha.
  - change (Py.rstrip (String a (String b r)))
      with (match Py.rstrip (String b r) with
            | EmptyString =>
                if Py.isspace a then EmptyString else String a EmptyString
            | r' => String a r'
            end).
    by rewrite IH.
Qed.

Lemma lstrip_head s a t : Py.lstrip s = String a t → Py.isspace a = false.
Proof.
  induction s as [|b s IH]; [done | ]. simpl.
  destruct (Py.isspace b) eqn:Hb; [exact IH | ]. by intros [= <- _].
Qed.

Lemma rstrip_head a t :
  Py.isspace a = false → ∃ r, Py.rstrip (String a t) = String a r.
Proof.
  intros Ha. simpl. rewrite Ha. destruct (Py.rstrip t); by eexists.
Qed.

Lemma strip_idem s : Py.strip (Py.strip s) = Py.strip s.
Proof.
  unfold Py.strip. destruct (Py.lstrip s) as [|a t] eqn:Hl; [done | ].
  apply lstrip_head in Hl.
  destruct (rstrip_head a t Hl) as [r Hr].
  assert (Py.lstrip (Py.rstrip (String a t)) = Py.rstrip (String a t)) as ->.
  { rewrite Hr. simpl. by rewrite Hl. }
  apply rstrip_idem.
Qed.

Lemma rstrip_chars c s : c ∈ chars (Py.rstrip s) → c ∈ chars s.
Proof.
  induction s as [|a s IH]; [done | ]. simpl.
  destruct (Py.rstrip s) as [|b r].
  - destruct (Py.isspace a); [by intros ?%elem_of_nil | ].
    simpl. intros [->|?%elem_of_nil]%elem_of_cons; [left | done].
  - simpl in *. intros [->|Hc]%elem_of_cons; [left | right; by apply IH].
Qed.

Lemma lstrip_chars c s : c ∈ chars (Py.lstrip s) → c ∈ chars s.
Proof.
  induction s as [|a s IH]; [done | ]. simpl.
  destruct (Py.isspace a); [ | done]. intros Hc. right. by apply IH.
Qed.

Lemma strip_chars c s : c ∈ chars (Py.strip s) → c ∈ chars s.
Proof. intros Hc%rstrip_chars. by apply lstrip_chars. Qed.

Lemma split_no_sep sep s : Forall (λ part, sep ∉ chars part) (Py.split sep s).
Proof.
  induction s as [|a s IH]; simpl.
  - repeat constructor. by intros ?%elem_of_nil.
  - destruct (Ascii.eqb_spec a sep) as [->|Hne].
    + constructor; [by intros ?%elem_of_nil | done].
    + destruct (Py.split sep s) as [|h t].
      * repeat constructor. simpl. by intros [?|?%elem_of_nil]%elem_of_cons.
      * apply Forall_cons in IH as [Hh Ht]. constructor; [ | done].
        simpl. by intros [?|?]%elem_of_cons.
Qed.

Lemma listed_names_spec stdout name :
  name ∈ listed_names stdout →
  name ≠ "" ∧ Py.strip name = name ∧ LF ∉ chars name.
Proof.
  unfold listed_names. intros [Hne Hin]%list_elem_of_filter.
  apply list_elem_of_fmap in Hin as (line & -> & Hline).
  split_and!.
  - by destruct (Py.strip line).
  - apply strip_idem.
  - intros Hc%strip_chars.
    pose proof (split_no_sep LF (Py.strip stdout)) as Hall.
    rewrite Forall_forall in Hall. by apply (Hall line).
Qed.

(** X26. The datasets offered for selection, [get_filtered_datasets], are
    datasets of the first listing, in its order. When the second listing of
    the datasets gives what the first one gave, they are exactly the datasets
    that are not the name of a pool. When the listing of the pools, or the
    second listing of the datasets, fails, nothing is hidden: the pool roots
    are offered as well. Every listed name is non-empty, has no white space
    around it and no line feed. *)
Theorem filtered_datasets_hide_pool_roots datasets_listing pools_listing
    datasets_listing_again :
  let all_datasets := get_datasets datasets_listing in
  let shown :=
    get_filtered_datasets datasets_listing pools_listing
      datasets_listing_again in
  shown `sublist_of` all_datasets
  ∧ (datasets_listing_again = datasets_listing →
     ∀ d, d ∈ shown ↔ d ∈ all_datasets ∧ d ∉ get_zfs_pools pools_listing)
  ∧ (¬ succeeded pools_listing ∨ ¬ succeeded datasets_listing_again →
     shown = all_datasets)
  ∧ (∀ d, d ∈ all_datasets →
       d ≠ "" ∧ Py.strip d = d ∧ LF ∉ chars d).
Proof.
  cbv zeta. unfold get_filtered_datasets, get_root_pool_datasets.
  split_and!.
  - apply sublist_filter.
  - intros -> d. rewrite list_elem_of_filter, list_elem_of_filter. tauto.
  - intros Hfail.
    assert (filter (λ pool, pool ∈ get_datasets datasets_listing_again)
              (get_zfs_pools pools_listing) = []) as ->.
    { destruct Hfail as [Hp|Hd].
      - by destruct pools_listing as [[| |] ? ?| |].
      - replace (get_datasets datasets_listing_again) with (@nil string)
          by (by destruct datasets_listing_again as [[| |] ? ?| |]).
        induction (get_zfs_pools pools_listing) as [|p ps IH]; [done | ].
        rewrite filter_cons_False; [done | by intros ?%elem_of_nil]. }
    induction (get_datasets datasets_listing) as [|d ds IH]; [done | ].
    rewrite filter_cons_True; [by rewrite IH | by intros ?%elem_of_nil].
  - intros d Hd. destruct datasets_listing as [[| |] out err| |];
      try by apply elem_of_nil in Hd.
    by apply (listed_names_spec out).
Qed.

(** ** The snapshot before a system update *)

Lemma keep_chars_chars p s c :
  c ∈ chars (keep_chars p s) ↔ c ∈ chars s ∧ p c = true.
Proof.
  induction s as [|a s IH]; simpl.
  - split; [by intros ?%elem_of_nil | by intros [?%elem_of_nil _]].
  - destruct (p a) eqn:Ha; simpl; rewrite ?elem_of_cons, IH.
    + split; [intros [->|[? ?]]; auto | intros [[->|?] ?]; auto].
    + split; [intros [? ?]; auto | intros [[->|?] ?]; [congruence | auto]].
Qed.

Lemma replace_chars old new s c :
  c ∈ chars (Py.replace old new s) → c ∈ chars s ∨ c ∈ chars new.
Proof.
  induction s as [|a s IH]; simpl; [by intros ?%elem_of_nil | ].
  destruct (Ascii.eqb a old).
  - rewrite chars_app, elem_of_app. intros [?|Hc]; [by right | ].
    destruct (IH Hc); [left; by right | by right].
  - simpl. intros [->|Hc]%elem_of_cons; [left; left | ].
    destruct (IH Hc); [left; by right | by right].
Qed.

Lemma replace_keeps old new s c :
  c ∈ chars s → c ≠ old → c ∈ chars (Py.replace old new s).
Proof.
  intros Hin Hne. induction s as [|a s IH]; [done | ]. simpl in *.
  apply elem_of_cons in Hin as [<-|Hin].
  - destruct (Ascii.eqb_spec c old); [done | left].
  - destruct (Ascii.eqb a old).
    + rewrite chars_app, elem_of_app. right. by apply IH.
    + right. by apply IH.
Qed.

Lemma lstrip_keeps s c :
  c ∈ chars s → Py.isspace c = false → c ∈ chars (Py.lstrip s).
Proof.
  intros Hin Hc. induction s as [|a s IH]; [done | ]. simpl in *.
  destruct (Py.isspace a) eqn:Ha; [ | done].
  apply elem_of_cons in Hin as [->|Hin]; [congruence | by apply IH].
Qed.

Lemma rstrip_keeps s c :
  c ∈ chars s → Py.isspace c = false → c ∈ chars (Py.rstrip s).
Proof.
  intros Hin Hc. induction s as [|a s IH]; [done | ]. simpl in *.
  apply elem_of_cons in Hin as [<-|Hin].
  - rewrite Hc. destruct (Py.rstrip s); left.
  - specialize (IH Hin). destruct (Py.rstrip s) as [|b r];
      [by apply elem_of_nil in IH | by right].
Qed.

Lemma isalnum_not_space c : isalnum c = true → Py.isspace c = false.
Proof. destruct c as [[] [] [] [] [] [] [] []]; vm_compute; congruence. Qed.

Lemma isalnum_ascii c :
  isalnum c = true → (Ascii.N_of_ascii c < 128)%N → alnum_char c.
Proof.
  unfold isalnum, alnum_char. cbv zeta.
  rewrite !orb_true_iff, !andb_true_iff, !N.leb_le, !N.eqb_eq. lia.
Qed.

Lemma high_char_not_token c : (128 ≤ Ascii.N_of_ascii c)%N → ¬ token_char c.
Proof.
  unfold token_char. cbv zeta. intros Hc [?|[?|[?|Hin]]]; [lia .. | ].
  repeat (apply elem_of_cons in Hin as [->|Hin]; [by vm_compute in Hc | ]).
  by apply elem_of_nil in Hin.
Qed.

Lemma safe_type_chars snapshot_type c :
  c ∈ chars (safe_type snapshot_type) →
  (isalnum c = true ∨ c = "-"%char ∨ c = "_"%char)
  ∧ (c ∈ chars (default "" snapshot_type) ∨ (Ascii.N_of_ascii c < 128)%N).
Proof.
  unfold safe_type.
  set (kept := keep_chars _ _).
  assert (c ∈ chars kept →
          (isalnum c = true ∨ c = "-"%char ∨ c = "_"%char)
          ∧ (c ∈ chars (default "" snapshot_type)
             ∨ (Ascii.N_of_ascii c < 128)%N)) as Hkept.
  { unfold kept. intros [Hin Hp]%keep_chars_chars. split.
    - apply orb_true_iff in Hp as [?|Hp%bool_decide_eq_true]; [by left | ].
      right. set_solver.
    - apply replace_chars in Hin as [Hin%strip_chars|Hin].
      + destruct snapshot_type as [[|a t]| ]; simpl in Hin; [ | by left | ].
        all: right; revert Hin; clear; intros Hin;
          repeat (apply elem_of_cons in Hin as [->|Hin]; [by vm_compute | ]);
          by apply elem_of_nil in Hin.
      + right. simpl in Hin. apply elem_of_cons in Hin as [->|Hin];
          [by vm_compute | by apply elem_of_nil in Hin]. }
  destruct kept as [|a k]; [ | exact Hkept].
  simpl. intros Hin. split; [left | right]; revert Hin; clear; intros Hin;
    repeat (apply elem_of_cons in Hin as [->|Hin]; [by vm_compute | ]);
    by apply elem_of_nil in Hin.
Qed.

(** X27. The label that [create_system_update_snapshot] makes for the
    snapshot name is never empty and holds only alphanumeric characters, [-]
    and [_]. For a snapshot type of plain ASCII text (or none) it is a valid
    prefix, hence a valid token; but [str.isalnum] lets accented letters
    through, and a type that holds one gives a label the token validator
    rejects. The function itself never creates a snapshot: without
    configured datasets it fails and does nothing, and with datasets it reads
    the clock once for the name and then fails on the import of a module
    that is not there, having started no process. *)
Theorem system_update_snapshot_label env import_error config snapshot_type w :
  let label := safe_type snapshot_type in
  let datasets := default [] (cfg_datasets config) in
  let result :=
    create_system_update_snapshot env import_error config snapshot_type w in
  label ≠ ""
  ∧ Forall (λ c, isalnum c = true ∨ c = "-"%char ∨ c = "_"%char) (chars label)
  ∧ (ascii_only (default "" snapshot_type) →
     is_safe_snapshot_prefix label = true)
  ∧ (∀ t c, snapshot_type = Some t → c ∈ chars t → isalnum c = true →
            (128 ≤ Ascii.N_of_ascii c)%N →
            c ∈ chars label ∧ is_safe_zfs_token label = false)
  ∧ (datasets = [] →
     result = ((false, "No datasets configured for system update snapshot"), w))
  ∧ (datasets ≠ [] →
     result.1 = (false, "Error creating system update snapshot: "
                          +:+ import_error)
     ∧ trace result.2 = trace w
     ∧ privilege_manager result.2 = privilege_manager w
     ∧ now_reads result.2 = S (now_reads w)).
Proof.
  cbv zeta.
  assert (safe_type snapshot_type ≠ "") as Hne.
  { unfold safe_type. by destruct (keep_chars _ _). }
  split_and!.
  - exact Hne.
  - apply Forall_forall. intros c Hc. by apply safe_type_chars in Hc as [? _].
  - intros Hascii. apply is_safe_snapshot_prefix_iff. split; [exact Hne | ].
    apply Forall_forall. intros c Hc.
    apply safe_type_chars in Hc as [Hclass Hlow].
    assert (Ascii.N_of_ascii c < 128)%N as Hlt.
    { destruct Hlow as [Hin|?]; [ | done].
      unfold ascii_only in Hascii. rewrite Forall_forall in Hascii.
      by apply Hascii. }
    destruct Hclass as [Hal|[->| ->]].
    + left. by apply isalnum_ascii.
    + right. set_solver.
    + right. set_solver.
  - intros t c -> Hin Hal Hhigh.
    assert (c ∈ chars (safe_type (Some t))) as Hlabel.
    { unfold safe_type.
      destruct t as [|a t]; [by apply elem_of_nil in Hin | ].
      cbn [truthy default].
      set (kept := keep_chars _ _).
      assert (c ∈ chars kept) as Hkept.
      { apply keep_chars_chars. split; [ | by rewrite Hal].
        apply replace_keeps.
        - apply rstrip_keeps; [ | by apply isalnum_not_space].
          apply lstrip_keeps; [done | by apply isalnum_not_space].
        - intros ->. by vm_compute in Hal. }
      destruct kept; [by apply elem_of_nil in Hkept | done]. }
    split; [exact Hlabel | ].
    destruct (is_safe_zfs_token (safe_type (Some t))) eqn:Hsafe; [ | done].
    apply (safe_token_no_char c) in Hsafe; [ | by apply high_char_not_token].
    apply contains_false in Hsafe. done.
  - unfold create_system_update_snapshot. by intros ->.
  - unfold create_system_update_snapshot.
    destruct (default [] (cfg_datasets config)); done.
Qed.

(** A type with an accented letter: the label keeps the letter, which no
    token may hold. *)
Example system_update_snapshot_label_accent :
  safe_type (Some ("caf" +:+ String (Ascii.ascii_of_N 233) " au lait"))
  = "caf" +:+ String (Ascii.ascii_of_N 233) "-au-lait"
  ∧ is_safe_zfs_token
      (safe_type (Some ("caf" +:+ String (Ascii.ascii_of_N 233) " au lait")))
    = false.
Proof. by vm_compute. Qed.

(** ** Clean-up over the configured datasets *)

Lemma started_from_refl sites w : started_from sites w w.
Proof. exists []. by rewrite app_nil_r. Qed.

Lemma started_from_trans sites w1 w2 w3 :
  started_from sites w1 w2 → started_from sites w2 w3 →
  started_from sites w1 w3.
Proof.
  intros (new1 & Htr1 & Hf1) (new2 & Htr2 & Hf2).
  exists (new1 ++ new2). rewrite Htr2, Htr1, <- app_assoc.
  split; [done | by apply Forall_app].
Qed.

Lemma subprocess_started_from env sites site argv w :
  site ∈ sites → started_from sites w (subprocess env site argv w).2.
Proof.
  intros Hsite. exists [ Spawned site argv ]. split; [done | ].
  by apply Forall_singleton.
Qed.

Lemma run_batch_as_root_started_from env commands : ∀ results w,
  started_from [ AuthProbe; BatchCmd; BatchScript ] w
    (run_batch_as_root env commands results w).2.
Proof.
  induction commands as [|c commands IH]; intros results w.
  - apply started_from_refl.
  - simpl. unfold bind.
    pose proof (subprocess_started_from env [ AuthProbe; BatchCmd; BatchScript ]
                  BatchCmd c w ltac:(set_solver)) as Hc.
    destruct (subprocess env BatchCmd c w) as [[[| |] out err| |] w1];
      cbn [fst snd] in *; try exact Hc.
    eapply started_from_trans; [exact Hc | apply IH].
Qed.

Lemma refresh_auth_cache_started_from env w :
  started_from [ AuthProbe; BatchCmd; BatchScript ] w
    (_refresh_auth_cache env w).2.
Proof.
  unfold _refresh_auth_cache. run.
  exists [ Spawned AuthProbe [ "pkexec"; "true" ] ].
  split; [ | apply Forall_singleton; set_solver].
  by destruct (spawn env (length (trace w)) [ "pkexec"; "true" ])
    as [[| |] out err| |].
Qed.

Lemma run_batch_privileged_commands_started_from env commands w :
  started_from [ AuthProbe; BatchCmd; BatchScript ] w
    (run_batch_privileged_commands env commands w).2.
Proof.
  unfold run_batch_privileged_commands.
  destruct commands as [|c commands]; [apply started_from_refl | ].
  destruct (geteuid env =? 0); [apply run_batch_as_root_started_from | ].
  set (script := stage_script env _).
  assert (∀ w0, started_from [ AuthProbe; BatchCmd; BatchScript ] w0
            (match script with
             | inl temp_script_path =>
                 let* r := subprocess env BatchScript
                             [ "pkexec"; "bash"; temp_script_path ] in
                 ret (script_result env [ "pkexec"; "bash"; temp_script_path ] r)
             | inr msg =>
                 ret (false, "Unexpected error in batch execution: " +:+ msg)
             end w0).2) as Hscript.
  { intros w0. destruct script as [path|msg]; [ | apply started_from_refl].
    unfold bind, ret, subprocess. cbn [fst snd].
    exists [ Spawned BatchScript [ "pkexec"; "bash"; path ] ].
    split; [done | apply Forall_singleton; set_solver]. }
  unfold bind at 1. unfold _is_auth_cached. run.
  destruct (Qltb _ _).
  - eapply started_from_trans; [ | apply Hscript].
    exists []. by rewrite app_nil_r.
  - match goal with |- context [ _refresh_auth_cache env ?w1 ] =>
      pose proof (refresh_auth_cache_started_from env w1) as Hprobe;
      destruct (_refresh_auth_cache env w1) as [[] w2] end;
      cbn [fst snd] in *.
    + eapply started_from_trans; [exact Hprobe | apply Hscript].
    + exact Hprobe.
Qed.

Lemma mark_for_deletion_trace env keep_count max_age_days : ∀ rest i acc w,
  trace (mark_for_deletion env keep_count max_age_days i rest acc w).2 = trace w.
Proof.
  induction rest as [|s rest IH]; intros i acc w; [done | ].
  simpl. run. destruct (creation_date s) as [t|raw]; run; by rewrite IH.
Qed.

Lemma cleanup_snapshots_listing env dataset policy w :
  ∃ other,
    trace (cleanup_snapshots env dataset policy w).2
    = trace w ++ Spawned ZfsList (list_command dataset) :: other
    ∧ Forall (λ e, ev_site e ∈ [ AuthProbe; BatchCmd; BatchScript ]) other.
Proof.
  unfold cleanup_snapshots. unfold bind at 1.
  pose proof (get_snapshots_trace env dataset w) as Hlist.
  destruct (get_snapshots env dataset w) as [snapshots w1]. cbn [fst snd] in *.
  destruct snapshots as [|s snapshots].
  { exists []. unfold ret. cbn [snd]. by rewrite Hlist. }
  unfold bind.
  pose proof (mark_for_deletion_trace env
                (default 10 (policy !! "keep_count"))
                (default 30 (policy !! "max_age_days")) 
                (sorted_newest_first (s :: snapshots)) 0 [] w1) as Hmark.
  destruct (mark_for_deletion env _ _ 0 _ [] w1) as [marked w2].
  cbn [fst snd] in *. unfold delete_in_batch.
  destruct marked as [|m marked].
  { exists []. unfold ret. cbn [snd]. by rewrite Hmark, Hlist. }
  unfold bind.
  match goal with |- context [ run_batch_privileged_commands env ?cmds w2 ] =>
    destruct (run_batch_privileged_commands_started_from env cmds w2)
      as (other & Hother & Hsites);
    destruct (run_batch_privileged_commands env cmds w2) as [[[] msg] w3] end;
    cbn [fst snd] in *; exists other; unfold ret; cbn [snd];
    by rewrite Hother, Hmark, Hlist, <- app_assoc.
Qed.

Lemma derived_policy_sum config :
  foldr Z.add 0
    (omap (λ k, match default (VInt 0)
                        (default ∅ (cfg_snapshot_retention config) !! k) with
                | VInt n => Some n
                | VBool b => Some (Z.b2z b)
                | VOther => None
                end)
          [ "daily"; "weekly"; "monthly" ])
  = configured_total config.
Proof.
  unfold configured_total, configured_count. cbv zeta.
  set (retention := default ∅ (cfg_snapshot_retention config)).
  cbn [omap list_omap].
  destruct (retention !! "daily") as [[n1|b1| ]| ];
    destruct (retention !! "weekly") as [[n2|b2| ]| ];
    destruct (retention !! "monthly") as [[n3|b3| ]| ];
    cbn [default from_option id foldr]; lia.
Qed.

Lemma derived_policy_lookup config :
  ZFSAssistant.derived_policy config !! "keep_count"
  = Some (if configured_total config <=? 0 then 10 else configured_total config)
  ∧ ZFSAssistant.derived_policy config !! "max_age_days" = Some 30.
Proof.
  unfold ZFSAssistant.derived_policy. cbv zeta.
  rewrite derived_policy_sum. split; reflexivity.
Qed.

Lemma filter_other_sites (other : list event) :
  Forall (λ e, ev_site e ∈ [ AuthProbe; BatchCmd; BatchScript ]) other →
  filter (λ e, ev_site e = ZfsList) other = [].
Proof.
  induction 1 as [|e other He _ IH]; [done | ].
  rewrite filter_cons_False; [done | ].
  intros Hsite. rewrite Hsite in He. set_solver.
Qed.

Lemma cleanup_each_spec env policy datasets : ∀ success_count failures w,
  let counted :=
    ZFSAssistant.cleanup_each env policy datasets success_count failures w in
  ∃ more new,
    counted.1.2 = failures ++ more
    ∧ (counted.1.1 + length more = success_count + length datasets)%nat
    ∧ trace counted.2 = trace w ++ new
    ∧ filter (λ e, ev_site e = ZfsList) new
      = map (λ ds, Spawned ZfsList (list_command ds)) datasets.
Proof.
  induction datasets as [|ds datasets IH]; intros sc fl w; cbv zeta.
  - exists [], []. simpl. unfold ret. simpl. by rewrite !app_nil_r.
  - simpl. unfold bind.
    destruct (cleanup_snapshots_listing env ds policy w) as (other & Htr & Hsites).
    destruct (cleanup_snapshots env ds policy w) as [[ok msg] w1].
    cbn [fst snd] in *.
    destruct ok.
    + destruct (IH (S sc) fl w1) as (more & new & Hfl & Hcount & Hnew & Hfilter).
      exists more, (Spawned ZfsList (list_command ds) :: other ++ new).
      split_and!; [done | lia | | ].
      * rewrite Hnew, Htr, <- app_assoc. done.
      * rewrite filter_cons_True by done.
        rewrite filter_app, filter_other_sites by done. by rewrite Hfilter.
    + destruct (IH sc (fl ++ [ ds +:+ ": " +:+ msg ]) w1)
        as (more & new & Hfl & Hcount & Hnew & Hfilter).
      exists ((ds +:+ ": " +:+ msg) :: more),
             (Spawned ZfsList (list_command ds) :: other ++ new).
      split_and!.
      * by rewrite Hfl, <- app_assoc.
      * simpl. lia.
      * rewrite Hnew, Htr, <- app_assoc. done.
      * rewrite filter_cons_True by done.
        rewrite filter_app, filter_other_sites by done. by rewrite Hfilter.
Qed.

(** The loop over the datasets is a run of the core's clean-up over them. *)
Lemma cleanup_each_attempts env policy datasets :
  ∀ success_count failures w,
  let run := attempts (λ ds, cleanup_snapshots env ds policy) datasets w in
  ZFSAssistant.cleanup_each env policy datasets success_count failures w
  = (((success_count + successes run.1)%nat,
      failures ++ failed datasets run.1), run.2).
Proof.
  induction datasets as [|d ds IH]; intros sc fl w; cbv zeta.
  - simpl. unfold ret. by rewrite Nat.add_0_r, app_nil_r.
  - simpl. unfold bind.
    destruct (cleanup_snapshots env d policy w) as [[ok msg] w1].
    cbn [fst snd]. destruct ok.
    + rewrite IH.
      destruct (attempts _ ds w1) as [answers w2]. cbn [fst snd app].
      f_equal. f_equal. simpl. lia.
    + rewrite IH.
      destruct (attempts _ ds w1) as [answers w2]. cbn [fst snd].
      f_equal. f_equal; simpl; try lia. by rewrite <- app_assoc.
Qed.

(** X28. Clean-up without an explicit policy keeps at least one snapshot by
    count: the [keep_count] derived from the configuration is the sum of the
    integer entries of [snapshot_retention] for [daily], [weekly] and
    [monthly] (a boolean counts as 0 or 1, any other value as nothing) when
    that sum is positive, and 10 otherwise; the maximal age is 30 days. For
    a given dataset the call is the core's clean-up under that policy.
    Without one, it runs the core's clean-up on every configured dataset, in
    order, each in the world the one before has left and whatever the one
    before answered, which starts one listing per dataset; it leaves the
    world of the last one; it succeeds exactly when every clean-up succeeded,
    and then counts all the datasets; and when it fails its message counts
    the successes and lists every dataset that failed with the message of
    its clean-up. *)
Theorem assistant_cleanup_visits_every_dataset env config dataset
    retention_policy w :
  let derived := ZFSAssistant.derived_policy config in
  let policy := default derived retention_policy in
  let datasets := default [] (cfg_datasets config) in
  let result :=
    ZFSAssistant.cleanup_snapshots env config dataset retention_policy w in
  (∃ keep_count,
     derived !! "keep_count" = Some keep_count ∧ 1 ≤ keep_count
     ∧ (0 < configured_total config → keep_count = configured_total config)
     ∧ (configured_total config ≤ 0 → keep_count = 10))
  ∧ derived !! "max_age_days" = Some 30
  ∧ (∀ d, truthy dataset = Some d → result = cleanup_snapshots env d policy w)
  ∧ (truthy dataset = None → datasets = [] →
     result = ((true, "No datasets configured for cleanup"), w))
  ∧ (truthy dataset = None → datasets ≠ [] →
     let run := attempts (λ ds, cleanup_snapshots env ds policy) datasets w in
     result.2 = run.2
     ∧ (result.1.1 = true ↔ Forall (λ answer, answer.1 = true) run.1)
     ∧ (result.1.1 = true →
        result.1.2 = "Cleanup completed successfully for "
                     +:+ pretty (length datasets) +:+ " datasets")
     ∧ (result.1.1 = false →
        result.1.2 = "Cleanup completed with partial failures ("
                     +:+ pretty (successes run.1) +:+ "/"
                     +:+ pretty (length datasets) +:+ "): "
                     +:+ Py.join "; " (failed datasets run.1))
     ∧ ∃ new,
         trace result.2 = trace w ++ new
         ∧ filter (λ e, ev_site e = ZfsList) new
           = map (λ ds, Spawned ZfsList (list_command ds)) datasets).
Proof.
  cbv zeta. destruct (derived_policy_lookup config) as [Hkeep Hage].
  split_and!.
  - eexists. split; [exact Hkeep | ].
    destruct (configured_total config <=? 0) eqn:Htotal;
      [apply Z.leb_le in Htotal | apply Z.leb_gt in Htotal]; split_and!; lia.
  - exact Hage.
  - intros d Hd. unfold ZFSAssistant.cleanup_snapshots. by rewrite Hd.
  - intros Hnone Hds. unfold ZFSAssistant.cleanup_snapshots.
    by rewrite Hnone, Hds.
  - intros Hnone Hds. unfold ZFSAssistant.cleanup_snapshots. rewrite Hnone.
    destruct (default [] (cfg_datasets config)) as [|d0 ds] eqn:Hcfg; [done | ].
    unfold bind.
    set (policy := default (ZFSAssistant.derived_policy config) retention_policy).
    destruct (cleanup_each_spec env policy (d0 :: ds) 0 [] w)
      as (more & new & _ & _ & Hnew & Hfilter).
    rewrite cleanup_each_attempts in *. cbv zeta in *.
    pose proof (attempts_length (λ ds, cleanup_snapshots env ds policy)
                  (d0 :: ds) w) as Hlen.
    destruct (attempts _ (d0 :: ds) w) as [answers w1]. cbn [fst snd app] in *.
    pose proof (failed_nil (d0 :: ds) answers Hlen) as Hnil.
    destruct (failed (d0 :: ds) answers) as [|f fs] eqn:Hfailed;
      unfold ret; cbn [fst snd].
    + assert (Forall (λ answer, answer.1 = true) answers) as Hall
        by (by apply Hnil).
      split_and!; [done | done | | done | by exists new].
      intros _. by rewrite (successes_all answers Hall), Hlen.
    + split_and!; [done | | done | done | by exists new].
      split; [done | ]. intros Hall. by apply Hnil in Hall.
Qed.

Lemma assistant_cleanup_visits_every_dataset_witness :
  let result :=
    ZFSAssistant.cleanup_snapshots env_two_ages
      {| cfg_datasets := Some [ "tank/data" ]; cfg_prefix := None;
         cfg_external_backup_enabled := None;
         cfg_external_pool_name := None;
         cfg_snapshot_retention := None |} None None World_init in
  result.1 = (true, "Cleanup completed successfully for 1 datasets")
  ∧ trace result.2
    = [ Spawned ZfsList (list_command "tank/data");
        Spawned BatchCmd [ "zfs"; "destroy"; "tank/data@old" ] ].
Proof.
  intros result.
  destruct (assistant_cleanup_visits_every_dataset env_two_ages
              {| cfg_datasets := Some [ "tank/data" ]; cfg_prefix := None;
                 cfg_external_backup_enabled := None;
                 cfg_external_pool_name := None;
                 cfg_snapshot_retention := None |} None None World_init)
    as (_ & _ & _ & _ & Hloop).
  destruct (Hloop eq_refl ltac:(done)) as (Hworld & Hok & Hmsg & _ & _).
  fold result in Hworld, Hok, Hmsg.
  assert (result.1.1 = true) as Htrue.
  { apply Hok. apply Forall_cons_2; [by vm_compute | apply Forall_nil_2]. }
  split.
  - destruct result as [[ok msg] w']. simpl in *. subst ok.
    by rewrite (Hmsg eq_refl).
  - by rewrite Hworld.
Defined.

(** ** The properties of a dataset *)

Lemma properties_last_wins (lines : list string) k v :
  foldl (λ properties line,
           match property_of_line line with
           | Some (prop_name, prop_value) =>
               <[prop_name := prop_value]> properties
           | None => properties
           end) (∅ : gmap string string) lines !! k = Some v
  ↔ ∃ i line,
      lines !! i = Some line ∧ property_of_line line = Some (k, v)
      ∧ ∀ j later v', (i < j)%nat → lines !! j = Some later →
          property_of_line later ≠ Some (k, v').
Proof.
  revert v. induction lines as [|l ls IH] using rev_ind; intros v.
  - simpl. rewrite lookup_empty. split; [done | ].
    by intros (i & line & Hi & _).
  - rewrite foldl_app. cbn [foldl].
    destruct (property_of_line l) as [[k' v']| ] eqn:Hl.
    + destruct (decide (k' = k)) as [->|Hne].
      * rewrite lookup_insert_eq. split.
        -- intros [= ->]. exists (length ls), l. split_and!.
           ++ by rewrite lookup_app_r, Nat.sub_diag by lia.
           ++ done.
           ++ intros j later v'' Hj Hlater.
              apply lookup_lt_Some in Hlater. rewrite length_app in Hlater.
              simpl in Hlater. lia.
        -- intros (i & line & Hi & Hline & Hlast).
           destruct (decide (i = length ls)) as [->|Hi'].
           ++ rewrite lookup_app_r, Nat.sub_diag in Hi by lia.
              simpl in Hi. injection Hi as <-. congruence.
           ++ pose proof (lookup_lt_Some _ _ _ Hi) as Hlt.
              rewrite length_app in Hlt. simpl in Hlt.
              exfalso. apply (Hlast (length ls) l v'); [lia | | done].
              by rewrite lookup_app_r, Nat.sub_diag by lia.
      * rewrite lookup_insert_ne by done. rewrite IH. split.
        -- intros (i & line & Hi & Hline & Hlast).
           pose proof (lookup_lt_Some _ _ _ Hi) as Hlt.
           exists i, line. split_and!; [by rewrite lookup_app_l | done | ].
           intros j later v'' Hj Hlater.
           destruct (decide (j < length ls)%nat) as [Hj'|Hj'].
           ++ rewrite lookup_app_l in Hlater by done. by eapply Hlast.
           ++ rewrite lookup_app_r in Hlater by lia.
              destruct (j - length ls)%nat; [ | done].
              simpl in Hlater. injection Hlater as <-. congruence.
        -- intros (i & line & Hi & Hline & Hlast).
           destruct (decide (i < length ls)%nat) as [Hi'|Hi'].
           ++ exists i, line. rewrite lookup_app_l in Hi by done.
              split_and!; [done | done | ].
              intros j later v'' Hj Hlater. apply (Hlast j later v'' Hj).
              rewrite lookup_app_l; [done | by eapply lookup_lt_Some].
           ++ rewrite lookup_app_r in Hi by lia.
              destruct (i - length ls)%nat; [ | done].
              simpl in Hi. injection Hi as <-. congruence.
    + rewrite IH. split.
      * intros (i & line & Hi & Hline & Hlast).
        pose proof (lookup_lt_Some _ _ _ Hi) as Hlt.
        exists i, line. split_and!; [by rewrite lookup_app_l | done | ].
        intros j later v'' Hj Hlater.
        destruct (decide (j < length ls)%nat) as [Hj'|Hj'].
        -- rewrite lookup_app_l in Hlater by done. by eapply Hlast.
        -- rewrite lookup_app_r in Hlater by lia.
           destruct (j - length ls)%nat; [ | done].
           simpl in Hlater. injection Hlater as <-. congruence.
      * intros (i & line & Hi & Hline & Hlast).
        destruct (decide (i < length ls)%nat) as [Hi'|Hi'].
        -- exists i, line. rewrite lookup_app_l in Hi by done.
           split_and!; [done | done | ].
           intros j later v'' Hj Hlater. apply (Hlast j later v'' Hj).
           rewrite lookup_app_l; [done | by eapply lookup_lt_Some].
        -- rewrite lookup_app_r in Hi by lia.
           destruct (i - length ls)%nat; [ | done].
           simpl in Hi. injection Hi as <-. congruence.
Qed.

Lemma property_of_line_fields line k v :
  property_of_line line = Some (k, v) ↔
  Py.strip line ≠ "" ∧ ∃ first more, Py.split TAB line = first :: k :: v :: more.
Proof.
  unfold property_of_line. destruct (Py.strip line) as [|a t].
  - simpl. split; [done | by intros [? _]].
  - cbn [Py.nonempty].
    destruct (Py.split TAB line) as [|f [|k' [|v' more]]].
    + split; [done | by intros [_ (? & ? & ?)]].
    + split; [done | by intros [_ (? & ? & ?)]].
    + split; [done | by intros [_ (? & ? & ?)]].
    + split.
      * intros [= -> ->]. split; [done | by eexists _, _].
      * by intros [_ (? & ? & [= _ -> -> _])].
Qed.

(** X29. In the properties [get_dataset_properties] reads from the listing,
    the value of a property is the third field of the last line of the
    stripped output whose second field is that property, among the lines
    that are not blank and have at least three tab-separated fields: a later
    line overrides an earlier one, and a shorter line adds nothing. When the
    process fails there are no properties. *)
Theorem dataset_properties_last_line_wins listing :
  (∀ stdout stderr k v, listing = Exited 0 stdout stderr →
     let lines := Py.split LF (Py.strip stdout) in
     let sets line k v :=
       Py.strip line ≠ ""
       ∧ ∃ first more, Py.split TAB line = first :: k :: v :: more in
     get_dataset_properties listing !! k = Some v
     ↔ ∃ i line, lines !! i = Some line ∧ sets line k v
         ∧ ∀ j later v', (i < j)%nat → lines !! j = Some later →
             ¬ sets later k v')
  ∧ (¬ succeeded listing → get_dataset_properties listing = ∅).
Proof.
  split.
  - intros stdout stderr k v ->. cbv zeta. unfold get_dataset_properties.
    rewrite properties_last_wins. split.
    + intros (i & line & Hi & Hline%property_of_line_fields & Hlast).
      exists i, line. split; [done | split; [done | ]].
      intros j later v' Hj Hlater Hsets%property_of_line_fields.
      by eapply Hlast.
    + intros (i & line & Hi & Hline%property_of_line_fields & Hlast).
      exists i, line. split; [done | split; [done | ]].
      intros j later v' Hj Hlater Hsets%property_of_line_fields.
      by eapply Hlast.
  - by destruct listing as [[| |] ? ?| |].
Qed.
